(** * The max-flow and min-cut linear programs of
      [week2/Max Flow + Min Cut.ipynb]

    The notebook defines two functions, [max_flow] and [min_cut].  Each
    builds a Gurobi model from [(nodes, arcs, capacity)], hands it to the
    solver ([m.optimize()]), and, when the solver reports [GRB.OPTIMAL],
    prints part of the solution.  The embedding below keeps that shape:

    - the model object is a record that the builder fills in the order of
      the Python statements ([addVars], [setObjective], [addConstr]);
    - Python's [KeyError] is an explicit [Raise] in a small error monad;
    - the solver is a parameter of the run functions;
    - what the functions print is the value they return here; for
      [min_cut], which can raise after it has printed, the lines come
      with the exception.

    Numbers are rationals ([Q]): every finite Python number is one, and a
    linear program with rational data has the same optimum over the
    rationals as over the reals.

    The second notebook of the week,
    [week2/MIP Model Building Blocks-TO COMPLETE.ipynb], defines one
    function, [greater_or_equal_max]; it is embedded in the module
    [Blocks]. *)

From Stdlib Require Import List String Bool ZArith QArith Lia Lqa.
From Stdlib Require Import Permutation Qminmax.
Import ListNotations.
Local Open Scope string_scope.
Local Open Scope Q_scope.

(** * Part I: the embedding and the vocabulary of the statements *)

(** ** Python values *)

(** A node is its name; an arc is the pair (tail, head). *)
Abbreviation node := string (only parsing).
Abbreviation arc := (string * string)%type (only parsing).

Definition arc_eqb (a b : arc) : bool :=
  ((fst a =? fst b)%string && (snd a =? snd b)%string)%bool.

Inductive exn := KeyError.

Inductive result (A : Type) : Type :=
| Ok (a : A)
| Raise (e : exn).
Arguments Ok {A} a.
Arguments Raise {A} e.

Definition bind {A B} (r : result A) (k : A -> result B) : result B :=
  match r with
  | Ok a => k a
  | Raise e => Raise e
  end.

Notation "x <- r ;; k" := (bind r (fun x => k))
  (at level 61, r at next level, right associativity).
Notation "' p <- r ;; k" := (bind r (fun p => k))
  (at level 61, p pattern, r at next level, right associativity).

Fixpoint mapM {A B} (f : A -> result B) (l : list A) : result (list B) :=
  match l with
  | [] => Ok []
  | a :: l' => b <- f a ;; bs <- mapM f l' ;; Ok (b :: bs)
  end.

(** A dict is an association list; [d[k]] is the first binding of [k]. *)
Fixpoint dict_get {K V} (eqb : K -> K -> bool) (d : list (K * V)) (k : K)
  : result V :=
  match d with
  | [] => Raise KeyError
  | (k', v) :: d' => if eqb k' k then Ok v else dict_get eqb d' k
  end.

Definition Qlt_bool (x y : Q) : bool := negb (Qle_bool y x).

(** ** The Gurobi model object *)

(** The three variable families: [flow] of [max_flow], [remove] (named
    ["r_"]) and [connect] (named ["z_"]) of [min_cut]. *)
Inductive var :=
| Vflow (a : arc)
| Vremove (a : arc)
| Vconnect (i : node).

(** A linear expression: coefficient/variable terms and a constant. *)
Record LinExpr := mkLin { terms : list (Q * var); const : Q }.

Definition lin_var (v : var) : LinExpr := mkLin [(1, v)] 0.
Definition lin_const (c : Q) : LinExpr := mkLin [] c.
Definition lin_add (e1 e2 : LinExpr) : LinExpr :=
  mkLin (terms e1 ++ terms e2) (const e1 + const e2).
Definition lin_neg (e : LinExpr) : LinExpr :=
  mkLin (map (fun cv => (- fst cv, snd cv)) (terms e)) (- const e).
Definition lin_sub (e1 e2 : LinExpr) : LinExpr := lin_add e1 (lin_neg e2).
Definition quicksum (vs : list var) : LinExpr :=
  mkLin (map (fun v => (1, v)) vs) 0.

Inductive Cmp := LE | GE | EQ.
Record Constr := mkConstr { lhs : LinExpr; cmp : Cmp; rhs : LinExpr }.

(** [GRB.MINIMIZE = 1], [GRB.MAXIMIZE = -1]. *)
Inductive Sense := MINIMIZE | MAXIMIZE.

(** A variable as [addVars] declares it.  With no [lb]/[ub] argument the
    bounds are Gurobi's defaults, [lb = 0] and [ub = +infinity]. *)
Record VarDecl := mkVar { vkey : var; vlb : Q; vub : option Q }.

Record Model := mkModel {
  mvars : list VarDecl;
  mobj : LinExpr;
  msense : Sense;
  mconstrs : list Constr
}.

(** [gp.Model(name)]: empty, minimising. *)
Definition newModel : Model := mkModel [] (lin_const 0) MINIMIZE [].

(** A tupledict: the keys in creation order, each with its variable. *)
Definition tupledict (K : Type) := list (K * var).

(** No key occurs twice. *)
Fixpoint nodupb {A} (eqb : A -> A -> bool) (l : list A) : bool :=
  match l with
  | [] => true
  | a :: l' => (negb (existsb (fun b => eqb b a) l') && nodupb eqb l')%bool
  end.

(** One continuous variable per key with default bounds; [objs] gives
    each key's objective coefficient. *)
Definition new_columns {K} (m : Model) (mk : K -> var) (keys : list K)
    (objs : list Q) : Model * tupledict K :=
  let td := map (fun k => (k, mk k)) keys in
  (mkModel (mvars m ++ map (fun k => mkVar (mk k) 0 None) keys)
           (lin_add (mobj m) (mkLin (combine objs (map mk keys)) 0))
           (msense m) (mconstrs m),
   td).

(** [m.addVars(keys, obj=..., name=...)]: the new columns, or
    [KeyError('Duplicate keys in Model.addVars()')] when a key is given
    twice. *)
Definition addVars {K} (eqb : K -> K -> bool) (m : Model) (mk : K -> var)
    (keys : list K) (objs : list Q) : result (Model * tupledict K) :=
  if nodupb eqb keys then Ok (new_columns m mk keys objs)
  else Raise KeyError.

Definition setObjective (m : Model) (e : LinExpr) (s : Sense) : Model :=
  mkModel (mvars m) e s (mconstrs m).

Definition setModelSense (m : Model) (s : Sense) : Model :=
  mkModel (mvars m) (mobj m) s (mconstrs m).

Definition addConstrs (m : Model) (cs : list Constr) : Model :=
  mkModel (mvars m) (mobj m) (msense m) (mconstrs m ++ cs).

(** [tupledict.sum(p1, p2)]: the sum of the variables whose key matches
    the pattern; the string ["*"] in a pattern matches every value. *)
Definition pmatch (p k : string) : bool :=
  ((p =? "*")%string || (p =? k)%string)%bool.

Definition td_sum (td : tupledict arc) (p1 p2 : string) : LinExpr :=
  let matches (kv : arc * var) : bool :=
    (pmatch p1 (fst (fst kv)) && pmatch p2 (snd (fst kv)))%bool in
  quicksum (map snd (filter matches td)).

(** ** Meaning of a model *)

Definition assignment := var -> Q.

Definition sum_terms (x : assignment) (ts : list (Q * var)) : Q :=
  fold_right (fun cv acc => fst cv * x (snd cv) + acc) 0 ts.

Definition evalLin (x : assignment) (e : LinExpr) : Q :=
  sum_terms x (terms e) + const e.

Definition holds (x : assignment) (c : Constr) : Prop :=
  match cmp c with
  | LE => evalLin x (lhs c) <= evalLin x (rhs c)
  | GE => evalLin x (rhs c) <= evalLin x (lhs c)
  | EQ => evalLin x (lhs c) == evalLin x (rhs c)
  end.

Definition in_bounds (x : assignment) (d : VarDecl) : Prop :=
  vlb d <= x (vkey d) /\
  match vub d with Some u => x (vkey d) <= u | None => True end.

Definition feasible (m : Model) (x : assignment) : Prop :=
  Forall (in_bounds x) (mvars m) /\ Forall (holds x) (mconstrs m).

Definition objval (m : Model) (x : assignment) : Q := evalLin x (mobj m).

(** [no_worse s a b]: under sense [s], objective value [a] is at least as
    good as [b]. *)
Definition no_worse (s : Sense) (a b : Q) : Prop :=
  match s with
  | MINIMIZE => a <= b
  | MAXIMIZE => b <= a
  end.

Definition optimal (m : Model) (x : assignment) : Prop :=
  feasible m x /\
  forall y, feasible m y -> no_worse (msense m) (objval m x) (objval m y).

Definition optimal_value (m : Model) (v : Q) : Prop :=
  exists x, optimal m x /\ objval m x == v.

(** Executable feasibility test, used on concrete solutions. *)
Definition holdsb (x : assignment) (c : Constr) : bool :=
  match cmp c with
  | LE => Qle_bool (evalLin x (lhs c)) (evalLin x (rhs c))
  | GE => Qle_bool (evalLin x (rhs c)) (evalLin x (lhs c))
  | EQ => Qeq_bool (evalLin x (lhs c)) (evalLin x (rhs c))
  end.

Definition in_boundsb (x : assignment) (d : VarDecl) : bool :=
  (Qle_bool (vlb d) (x (vkey d)) &&
   match vub d with Some u => Qle_bool (x (vkey d)) u | None => true end)%bool.

Definition feasibleb (m : Model) (x : assignment) : bool :=
  (forallb (in_boundsb x) (mvars m) && forallb (holdsb x) (mconstrs m))%bool.

(** ** [max_flow] *)

Definition is_s (i : node) : bool := (i =? "s")%string.
Definition is_t (i : node) : bool := (i =? "t")%string.

(** [j not in ('s', 't')] *)
Definition interior (j : node) : bool := negb (is_s j || is_t j).

(** The model [max_flow] has built when it calls [m.optimize()]. *)
Definition max_flow_model (nodes : list node) (arcs : list arc)
    (capacity : list (arc * Q)) : result Model :=
  let m := newModel in
  (* flow = m.addVars(arcs, obj=1, name="flow") *)
  '(m, flow) <- addVars arc_eqb m Vflow arcs (map (fun _ => 1) arcs) ;;
  (* m.setObjective(
       quicksum(var for (i, j), var in flow.items() if i == "s"),
       sense=-1) *)
  let m :=
    setObjective m
      (quicksum (map snd (filter (fun kv => is_s (fst (fst kv))) flow)))
      MAXIMIZE in
  (* flow.sum(i, j) <= capacity[i, j] for i, j in arcs *)
  caps <- mapM (fun a : arc =>
                  c <- dict_get arc_eqb capacity a ;;
                  Ok (mkConstr (td_sum flow (fst a) (snd a)) LE (lin_const c)))
               arcs ;;
  let m := addConstrs m caps in
  (* flow.sum(j, '*') == flow.sum('*', j)
       for j in nodes if j not in ('s', 't') *)
  let m :=
    addConstrs m
      (map (fun j => mkConstr (td_sum flow j "*") EQ (td_sum flow "*" j))
           (filter interior nodes)) in
  Ok m.

(** ** [min_cut] *)

(** The constraint the loop body adds for arc [(i, j)]. *)
Definition cut_constr (remove : tupledict arc) (connect : tupledict node)
    (a : arc) : result Constr :=
  let '(i, j) := a in
  if is_s i then
    (* remove["s", j] + connect[j] >= 1 *)
    r <- dict_get arc_eqb remove ("s", j) ;;
    z <- dict_get String.eqb connect j ;;
    Ok (mkConstr (lin_add (lin_var r) (lin_var z)) GE (lin_const 1))
  else if is_t j then
    (* remove[i, "t"] - connect[i] >= 0 *)
    r <- dict_get arc_eqb remove (i, "t") ;;
    z <- dict_get String.eqb connect i ;;
    Ok (mkConstr (lin_sub (lin_var r) (lin_var z)) GE (lin_const 0))
  else
    (* remove[i, j] + connect[j] - connect[i] >= 0 *)
    r <- dict_get arc_eqb remove (i, j) ;;
    zj <- dict_get String.eqb connect j ;;
    zi <- dict_get String.eqb connect i ;;
    Ok (mkConstr (lin_sub (lin_add (lin_var r) (lin_var zj)) (lin_var zi))
                 GE (lin_const 0)).

(** [capacity.get(a, 0)]: the entry of [a] in the dict, and 0 where the
    dict has none.  This is the objective coefficient that
    [addVars(..., obj=capacity)] gives the variable of key [a]: no
    lookup is made while the model is built, and a key without entry
    gets coefficient 0.  Where the lookup [capacity[a]] succeeds it is
    the value looked up. *)
Definition cap (capacity : list (arc * Q)) (a : arc) : Q :=
  match dict_get arc_eqb capacity a with
  | Ok c => c
  | Raise _ => 0
  end.

(** The model [min_cut] has built when it calls [m.optimize()]. *)
Definition min_cut_model (nodes : list node) (arcs : list arc)
    (capacity : list (arc * Q)) : result Model :=
  let m := newModel in
  (* m.ModelSense = 1 *)
  let m := setModelSense m MINIMIZE in
  (* remove = m.addVars(arcs, vtype=GRB.CONTINUOUS, obj=capacity,
                        name="r_") *)
  '(m, remove) <- addVars arc_eqb m Vremove arcs (map (cap capacity) arcs) ;;
  (* connect = m.addVars((i for i in nodes if i not in ("s", "t")),
                         name="z_", vtype=GRB.CONTINUOUS) *)
  let inner := filter interior nodes in
  '(m, connect) <-
    addVars String.eqb m Vconnect inner (map (fun _ => 0) inner) ;;
  (* for (i, j) in arcs: m.addConstr(...) *)
  cs <- mapM (cut_constr remove connect) arcs ;;
  Ok (addConstrs m cs).

(** ** The solver and the two functions as run *)

(** Values of [m.status] ([GRB.OPTIMAL] is the one the code tests). *)
Inductive Status :=
| LOADED | OPTIMAL | INFEASIBLE | INF_OR_UNBD | UNBOUNDED | OTHER.

Record Solved := mkSolved { status : Status; X : assignment }.

(** [m.optimize()]: the external solver. *)
Definition solver := Model -> Solved.

(** The calls of [print]: [Title s] is [print(s)], and [ArcLine i j v] is
    [print('%s -> %s: %g' % (i, j, v))].  [ArcLine] carries the number
    handed to the format, not the text: ['%g'] renders it with six
    significant digits, and that rendering is not modelled. *)
Inductive line :=
| Title (s : string)
| ArcLine (i j : node) (v : Q).

(** What a call leaves behind: the lines printed, and the exception if
    it ended by raising one. *)
Inductive outcome :=
| Returned (out : list line)
| Raised (out : list line) (e : exn).

Definition newline : string := String (Ascii.ascii_of_nat 10) "".

Definition max_flow (optimize : solver) (nodes : list node)
    (arcs : list arc) (capacity : list (arc * Q)) : result (list line) :=
  m <- max_flow_model nodes arcs capacity ;;
  let r := optimize m in
  match status r with
  | OPTIMAL =>
      (* solution = m.getAttr('x', flow) *)
      let solution := fun a => X r (Vflow a) in
      Ok (Title (newline ++ "Optimal flows")
          :: map (fun a => ArcLine (fst a) (snd a) (solution a))
                 (filter (fun a => Qlt_bool 0 (solution a)) arcs))
  | _ => Ok []
  end.

(** The print loop of [min_cut] over the arcs it selects, after the lines
    [printed]: each line needs [capacity[i, j]], and the first arc
    without entry ends the call with [KeyError], the lines before it
    already printed. *)
Fixpoint print_cuts (capacity : list (arc * Q)) (printed : list line)
    (l : list arc) : outcome :=
  match l with
  | [] => Returned printed
  | a :: l' =>
      match dict_get arc_eqb capacity a with
      | Ok c => print_cuts capacity (printed ++ [ArcLine (fst a) (snd a) c]) l'
      | Raise e => Raised printed e
      end
  end.

Definition min_cut (optimize : solver) (nodes : list node)
    (arcs : list arc) (capacity : list (arc * Q)) : outcome :=
  match min_cut_model nodes arcs capacity with
  | Raise e => Raised [] e
  | Ok m =>
      let r := optimize m in
      match status r with
      | OPTIMAL =>
          (* solution = m.getAttr('x', remove) *)
          let solution := fun a => X r (Vremove a) in
          print_cuts capacity [Title (newline ++ "Optimal cuts")]
            (filter (fun a => Qlt_bool 0.5 (solution a)) arcs)
      | _ => Returned []
      end
  end.

(** [arcs = capacity.keys()] *)
Definition keys {K V} (d : list (K * V)) : list K := map fst d.

(** ** Reading a model on an assignment *)

Definition sumQ {A} (f : A -> Q) (l : list A) : Q :=
  fold_right (fun a acc => f a + acc) 0 l.

Definition has_key (capacity : list (arc * Q)) (a : arc) : Prop :=
  exists c, dict_get arc_eqb capacity a = Ok c.

(** The values of [flow], [remove] and [connect] in an assignment. *)
Definition fl (x : assignment) (a : arc) : Q := x (Vflow a).
Definition rm (x : assignment) (a : arc) : Q := x (Vremove a).
Definition cn (x : assignment) (i : node) : Q := x (Vconnect i).

Definition pattern (p1 p2 : string) (a : arc) : bool :=
  (pmatch p1 (fst a) && pmatch p2 (snd a))%bool.

(** The value of [flow.sum(p1, p2)] under [x]. *)
Definition psum (x : assignment) (arcs : list arc) (p1 p2 : string) : Q :=
  sumQ (fl x) (filter (pattern p1 p2) arcs).

(** [connect] has a key for [j]: [j] is listed in [nodes] and is neither
    ['s'] nor ['t']. *)
Definition has_connect (nodes : list node) (j : node) : bool :=
  existsb (fun k => (k =? j)%string) (filter interior nodes).

(** The arcs for which the loop body of [min_cut] finds its [connect]
    variables. *)
Definition cut_shape (nodes : list node) (a : arc) : bool :=
  if is_s (fst a) then has_connect nodes (snd a)
  else if is_t (snd a) then has_connect nodes (fst a)
  else (has_connect nodes (snd a) && has_connect nodes (fst a))%bool.

(** The inequality of the loop body, read on an assignment. *)
Definition cut_holds (x : assignment) (a : arc) : Prop :=
  if is_s (fst a) then 1 <= rm x a + cn x (snd a)
  else if is_t (snd a) then 0 <= rm x a - cn x (fst a)
  else 0 <= rm x a + cn x (snd a) - cn x (fst a).

(** [solution[i, j] > 0.5] in [min_cut]. *)
Definition selected (x : assignment) (a : arc) : bool :=
  Qlt_bool 0.5 (rm x a).

(** ** Flows, potentials and paths on a list of arcs *)

Definition outflow (f : arc -> Q) (arcs : list arc) (v : node) : Q :=
  sumQ f (filter (fun a : arc => (v =? fst a)%string) arcs).

Definition inflow (f : arc -> Q) (arcs : list arc) (v : node) : Q :=
  sumQ f (filter (fun a : arc => (v =? snd a)%string) arcs).

(** No arc end is the wildcard of [tupledict.sum]. *)
Definition no_star (arcs : list arc) : Prop :=
  forall a, In a arcs -> fst a <> "*" /\ snd a <> "*".

Definition endpoints (arcs : list arc) : list node :=
  map fst arcs ++ map snd arcs.

(** The nodes at which conservation and potentials are summed. *)
Definition support (arcs : list arc) : list node :=
  nodup string_dec ("s" :: endpoints arcs).

(** The potential a solution of [min_cut]'s model gives the nodes: [1]
    at ['s'], [0] at ['t'], [z] elsewhere. *)
Definition pot (z : node -> Q) (v : node) : Q :=
  if is_s v then 1 else if is_t v then 0 else z v.

Definition memb (v : node) (L : list node) : bool :=
  existsb (fun u => (u =? v)%string) L.

(** [a] leaves the node set [L]. *)
Definition crossing (L : list node) (a : arc) : bool :=
  (memb (fst a) L && negb (memb (snd a) L))%bool.

Definition indicator (L : list node) (v : node) : Q :=
  if memb v L then 1 else 0.

(** The solution read off a flow [f] and a node set [L]: the flow itself,
    [r = 1] on the arcs leaving [L], [z = 1] on the nodes of [L]. *)
Definition primal_dual (f : arc -> Q) (L : list node) : assignment :=
  fun v =>
    match v with
    | Vflow a => f a
    | Vremove a => if crossing L a then 1 else 0
    | Vconnect i => indicator L i
    end.

(** [path E u w]: the arcs that satisfy [E] lead from [u] to [w]. *)
Inductive path (E : arc -> Prop) : node -> node -> Prop :=
| path_here (u : node) : path E u u
| path_step (u v w : node) : path E u v -> E (v, w) -> path E u w.

Definition unreachable (arcs : list arc) (source sink : node) : Prop :=
  ~ path (fun a => In a arcs) source sink.

(** The arcs of [arcs] that [K] selects disconnect [sink] from
    [source]. *)
Definition separates (arcs : list arc) (K : arc -> bool)
    (source sink : node) : Prop :=
  ~ path (fun a => In a arcs /\ K a = false) source sink.

(** ** Closing a set of nodes under a step

    [usable L a = Some v] says that arc [a] lets the set [L] grow by the
    new node [v].  The number of arcs not yet inside the set decreases
    at each step. *)

Definition outside (L : list node) (a : arc) : bool :=
  negb (memb (fst a) L && memb (snd a) L).

Definition is_usable (usable : list node -> arc -> option node)
    (L : list node) (a : arc) : bool :=
  match usable L a with Some _ => true | None => false end.

(** The step of plain reachability: follow an arc out of [L]. *)
Definition reach_step (L : list node) (a : arc) : option node :=
  if (memb (fst a) L && negb (memb (snd a) L))%bool
  then Some (snd a) else None.

Definition all_reachable (arcs : list arc) (L : list node) : Prop :=
  In "s" L /\ forall v, In v L -> path (fun a => In a arcs) "s" v.

(** A set of nodes that holds ['s'], not ['t'], and that no arc
    leaves. *)
Definition closed_side (arcs : list arc) (L : list node) : bool :=
  (memb "s" L && negb (memb "t" L)
   && forallb (fun a : arc => implb (memb (fst a) L) (memb (snd a) L))
              arcs)%bool.

(** ** Integral flows

    The existence half of max-flow/min-cut is proved for integer
    capacities [C]: from a flow [F], grow the set of nodes to which one
    more unit can be brought; either it contains ['t'] and the flow
    gains a unit, or it is closed and the arcs leaving it are full. *)

Definition sumZ {A} (f : A -> Z) (l : list A) : Z :=
  fold_right (fun a acc => (f a + acc)%Z) 0%Z l.

Local Open Scope Z_scope.

Definition outZ (arcs : list arc) (F : arc -> Z) (v : node) : Z :=
  sumZ F (filter (fun a : arc => (v =? fst a)%string) arcs).

Definition inZ (arcs : list arc) (F : arc -> Z) (v : node) : Z :=
  sumZ F (filter (fun a : arc => (v =? snd a)%string) arcs).

Definition excess (arcs : list arc) (F : arc -> Z) (v : node) : Z :=
  inZ arcs F v - outZ arcs F v.

Definition bounded (arcs : list arc) (C : arc -> Z) (F : arc -> Z) : Prop :=
  forall a, In a arcs -> 0 <= F a <= C a.

Definition is_flow (arcs : list arc) (C : arc -> Z) (F : arc -> Z) : Prop :=
  bounded arcs C F /\
  forall v, v <> "s"%string -> v <> "t"%string -> excess arcs F v = 0.

(** Net flow out of ['s']. *)
Definition netval (arcs : list arc) (F : arc -> Z) : Z :=
  - excess arcs F "s".

(** Change the flow on one arc. *)
Definition upd (F : arc -> Z) (a : arc) (d : Z) : arc -> Z :=
  fun b => if arc_eqb b a then F b + d else F b.

Definition delta (w v : node) : Z := if (w =? v)%string then 1 else 0.

(** [reached arcs C F L]: to every node [v] of [L] one unit more than
    [F] carries can be brought from ['s'], changing [F] only on arcs
    inside [L]. *)
Definition reached (arcs : list arc) (C : arc -> Z) (F : arc -> Z)
    (L : list node) : Prop :=
  In "s"%string L /\
  forall v, In v L ->
    exists G, bounded arcs C G /\
      (forall a, In a arcs -> G a <> F a -> In (fst a) L /\ In (snd a) L) /\
      (forall w, excess arcs G w
                 = excess arcs F w + delta w v - delta w "s"%string).

(** An arc leaving [L] with spare capacity, or entering [L] with flow
    that can be cancelled. *)
Definition fwd (C : arc -> Z) (F : arc -> Z) (L : list node) (a : arc)
  : bool :=
  (memb (fst a) L && negb (memb (snd a) L) && (F a <? C a))%bool.

Definition bwd (C : arc -> Z) (F : arc -> Z) (L : list node) (a : arc)
  : bool :=
  (memb (snd a) L && negb (memb (fst a) L) && (0 <? F a))%bool.

Definition closed (arcs : list arc) (C : arc -> Z) (F : arc -> Z)
    (L : list node) : Prop :=
  forall a, In a arcs -> fwd C F L a = false /\ bwd C F L a = false.

(** The node by which arc [a] extends [L], if it does. *)
Definition usable (C : arc -> Z) (F : arc -> Z) (L : list node) (a : arc)
  : option node :=
  if fwd C F L a then Some (snd a)
  else if bwd C F L a then Some (fst a)
  else None.

(** The capacity leaving ['s'] bounds every flow. *)
Definition source_cap (arcs : list arc) (C : arc -> Z) : Z :=
  sumZ C (filter (fun a : arc => ("s" =? fst a)%string) arcs).

Local Close Scope Z_scope.

(** Rational capacities are made integers by their common
    denominator. *)
Definition common_den (c : arc -> Q) (arcs : list arc) : positive :=
  fold_right (fun a acc => (Qden (c a) * acc)%positive) 1%positive arcs.

(** [c a] times the common denominator, an integer. *)
Definition scaled (c : arc -> Q) (arcs : list arc) (a : arc) : Z :=
  (Qnum (c a) * Zpos (common_den c arcs) / Zpos (Qden (c a)))%Z.

(** ** Networks *)

(** The network of the data model: a node set, a set of arcs between its
    nodes, none a loop, a non-negative capacity for each, and two
    distinct nodes of the set as source and sink.  The two functions
    take no source or sink argument; they use the names ['s'] and
    ['t']. *)
Record valid_network (nodes : list node) (arcs : list arc)
    (capacity : list (arc * Q)) (source sink : node) : Prop := {
  vn_nodes : NoDup nodes;
  vn_arcs : NoDup arcs;
  vn_ends : forall a, In a arcs -> In (fst a) nodes /\ In (snd a) nodes;
  vn_loops : forall a, In a arcs -> fst a <> snd a;
  vn_capacity : forall a, In a arcs ->
                  has_key capacity a /\ 0 <= cap capacity a;
  vn_source : In source nodes;
  vn_sink : In sink nodes;
  vn_distinct : source <> sink
}.

(** The same, as a test. *)
Definition arc_ok (nodes : list node) (capacity : list (arc * Q)) (a : arc)
  : bool :=
  (memb (fst a) nodes && memb (snd a) nodes
   && negb (fst a =? snd a)%string
   && match dict_get arc_eqb capacity a with
      | Ok c => Qle_bool 0 c
      | Raise _ => false
      end)%bool.

Definition valid_networkb (nodes : list node) (arcs : list arc)
    (capacity : list (arc * Q)) (source sink : node) : bool :=
  (nodupb String.eqb nodes && nodupb arc_eqb arcs
   && forallb (arc_ok nodes capacity) arcs
   && memb source nodes && memb sink nodes
   && negb (source =? sink)%string)%bool.

(** No node is named like the wildcard of [tupledict.sum]. *)
Definition no_wildcard (nodes : list node) : Prop := memb "*" nodes = false.

(** No arc enters ['s']; no arc leaves ['t']; no arc joins them directly. *)
Definition source_pure (arcs : list arc) : Prop :=
  forallb (fun a : arc => negb (is_s (snd a))) arcs = true.
Definition sink_pure (arcs : list arc) : Prop :=
  forallb (fun a : arc => negb (is_t (fst a))) arcs = true.
Definition no_direct_arc (arcs : list arc) : Prop :=
  existsb (fun a : arc => arc_eqb a ("s", "t")) arcs = false.

(** A solver whose [OPTIMAL] comes with a feasible point. *)
Definition honest (optimize : solver) (m : Model) : Prop :=
  status (optimize m) = OPTIMAL -> feasible m (X (optimize m)).

(** ** The properties stated of the two functions *)


(** The model of [min_cut] is built and has an optimal solution that is
    0 or 1 everywhere and whose selected arcs are a cut of capacity equal
    to the optimum. *)
Definition integral_optimum (nodes : list node) (arcs : list arc)
    (capacity : list (arc * Q)) (source sink : node) : Prop :=
  exists mc x,
    min_cut_model nodes arcs capacity = Ok mc /\
    optimal mc x /\
    (forall a, rm x a == 0 \/ rm x a == 1) /\
    (forall j, cn x j == 0 \/ cn x j == 1) /\
    separates arcs (selected x) source sink /\
    sumQ (cap capacity) (filter (selected x) arcs) == objval mc x.

(** Both models are built and both have optimal value 0. *)
Definition both_zero (nodes : list node) (arcs : list arc)
    (capacity : list (arc * Q)) : Prop :=
  exists mf mc,
    max_flow_model nodes arcs capacity = Ok mf /\
    min_cut_model nodes arcs capacity = Ok mc /\
    optimal_value mf 0 /\ optimal_value mc 0.

(** Every solution of the model of [max_flow] respects conservation at
    each listed node other than ['s'] and ['t']. *)
Definition conserved_at_every_node (nodes : list node) (arcs : list arc)
    (capacity : list (arc * Q)) : Prop :=
  forall m x,
    max_flow_model nodes arcs capacity = Ok m -> feasible m x ->
    forall j, In j nodes -> j <> "s" -> j <> "t" ->
              inflow (fl x) arcs j == outflow (fl x) arcs j.

(** A function that builds from [(nodes, arcs, capacity)] rejects
    negative capacities. *)
Definition rejects_negative
    (build : list node -> list arc -> list (arc * Q) -> result Model)
  : Prop :=
  forall nodes arcs capacity,
    (exists a, In a arcs /\ cap capacity a < 0) ->
    exists e, build nodes arcs capacity = Raise e.

Definition signals_error {A} (r : result A) : Prop := exists e, r = Raise e.

Definition raises (o : outcome) : Prop := exists out e, o = Raised out e.

(** A status other than [OPTIMAL] reaches the caller of [run] as an
    error. *)
Definition failure_surfaced {R}
    (build : list node -> list arc -> list (arc * Q) -> result Model)
    (run : solver -> list node -> list arc -> list (arc * Q) -> R)
    (failed : R -> Prop) : Prop :=
  forall optimize nodes arcs capacity m,
    build nodes arcs capacity = Ok m ->
    status (optimize m) <> OPTIMAL ->
    failed (run optimize nodes arcs capacity).

(** Every solution of the flow model is worth at most every solution of
    the cut model. *)
Definition weak_duality_holds (nodes : list node) (arcs : list arc)
    (capacity : list (arc * Q)) : Prop :=
  forall mf mc x y,
    max_flow_model nodes arcs capacity = Ok mf ->
    min_cut_model nodes arcs capacity = Ok mc ->
    feasible mf x -> feasible mc y ->
    objval mf x <= objval mc y.

(** The objective of [max_flow] has no term and the optimum is 0. *)
Definition objective_empty (nodes : list node) (arcs : list arc)
    (capacity : list (arc * Q)) : Prop :=
  exists mf,
    max_flow_model nodes arcs capacity = Ok mf /\
    terms (mobj mf) = [] /\
    optimal_value mf 0.

(** A source not named ['s'] makes the objective of [max_flow] empty and
    its optimum 0. *)
Definition misnamed_source_gives_zero : Prop :=
  forall nodes arcs capacity source sink,
    valid_network nodes arcs capacity source sink ->
    source <> "s" ->
    objective_empty nodes arcs capacity.

(** ** Concrete inputs and solutions *)

(** The model a builder returned ([newModel] stands for a raised
    error). *)
Definition built (r : result Model) : Model :=
  match r with
  | Ok m => m
  | Raise _ => newModel
  end.

Definition var_eqb (v w : var) : bool :=
  match v, w with
  | Vflow a, Vflow b => arc_eqb a b
  | Vremove a, Vremove b => arc_eqb a b
  | Vconnect i, Vconnect j => (i =? j)%string
  | _, _ => false
  end.

(** An assignment given by the list of its non-zero values. *)
Fixpoint table (t : list (var * Q)) (v : var) : Q :=
  match t with
  | [] => 0
  | (w, q) :: t' => if var_eqb w v then q else table t' v
  end.

(** The notebook's data (cell 3). *)
Module Notebook.

Definition nodes : list node := ["s"; "A"; "B"; "C"; "D"; "t"].

Definition capacity : list (arc * Q) :=
  [ (("s", "A"), 100);
    (("s", "B"), 150);
    (("A", "B"), 120);
    (("A", "C"), 90);
    (("B", "D"), 110);
    (("C", "D"), 120);
    (("C", "t"), 140);
    (("D", "t"), 90) ].

Definition arcs : list arc := keys capacity.

End Notebook.

Module Scenario1.

(** The flow the notebook prints (cell 6). *)
Definition flow180 : assignment :=
  table [ (Vflow ("s", "A"), 90); (Vflow ("s", "B"), 90);
          (Vflow ("A", "C"), 90); (Vflow ("B", "D"), 90);
          (Vflow ("C", "t"), 90); (Vflow ("D", "t"), 90) ].

(** The cut the notebook prints (cell 9), with the nodes on the source
    side marked by [z = 1]. *)
Definition cut180 : assignment :=
  table [ (Vremove ("A", "C"), 1); (Vremove ("D", "t"), 1);
          (Vconnect "A", 1); (Vconnect "B", 1); (Vconnect "D", 1) ].

(** A solver that answers with that flow. *)
Definition answers180 : solver := fun _ => mkSolved OPTIMAL flow180.

End Scenario1.

(** A single arc from ['s'] to ['t']. *)
Module Scenario2.

Definition nodes : list node := ["s"; "t"].
Definition capacity : list (arc * Q) := [ (("s", "t"), 50) ].
Definition arcs : list arc := keys capacity.

End Scenario2.

(** A two-arc circulation through ['s'], with ['t'] apart. *)
Module Circulation.

Definition nodes : list node := ["s"; "A"; "t"].
Definition capacity : list (arc * Q) := [ (("s", "A"), 5); (("A", "s"), 5) ].
Definition arcs : list arc := keys capacity.

End Circulation.

(** A three-arc circulation through ['s'], with ['t'] apart. *)
Module Circulation3.

Definition nodes : list node := ["s"; "A"; "B"; "t"].
Definition capacity : list (arc * Q) :=
  [ (("s", "A"), 4); (("A", "B"), 4); (("B", "s"), 4) ].
Definition arcs : list arc := keys capacity.
Definition round4 : assignment :=
  table [ (Vflow ("s", "A"), 4); (Vflow ("A", "B"), 4);
          (Vflow ("B", "s"), 4) ].

End Circulation3.

(** A node named like the wildcard. *)
Module Wildcard.

Definition nodes : list node := ["s"; "*"; "t"].
Definition capacity : list (arc * Q) := [ (("s", "*"), 5) ].
Definition arcs : list arc := keys capacity.
Definition into_star : assignment := table [ (Vflow ("s", "*"), 5) ].

End Wildcard.

(** A negative capacity. *)
Module Negative.

Definition nodes : list node := ["s"; "A"; "t"].
Definition capacity : list (arc * Q) := [ (("s", "A"), -1); (("A", "t"), 2) ].
Definition arcs : list arc := keys capacity.

Definition infeasible : solver := fun _ => mkSolved INFEASIBLE (fun _ => 0).
Definition unbounded : solver := fun _ => mkSolved UNBOUNDED (fun _ => 0).

(** One more unit of [r] on the arc of negative capacity. *)
Definition more (x : assignment) : assignment :=
  fun v => if var_eqb v (Vremove ("s", "A")) then x v + 1 else x v.

End Negative.

(** A node named like the wildcard, between ['s'] and ['t']. *)
Module WildcardPath.

Definition nodes : list node := ["s"; "*"; "t"].
Definition capacity : list (arc * Q) := [ (("s", "*"), 5); (("*", "t"), 0) ].
Definition arcs : list arc := keys capacity.
Definition stuck : assignment := table [ (Vflow ("s", "*"), 5) ].
Definition free_cut : assignment :=
  table [ (Vremove ("*", "t"), 1); (Vconnect "*", 1) ].

End WildcardPath.

(** A source named ['a'] beside a node named ['s']. *)
Module Misnamed.

Definition nodes : list node := ["a"; "s"; "t"].
Definition capacity : list (arc * Q) := [ (("s", "t"), 5) ].
Definition arcs : list arc := keys capacity.

End Misnamed.

(** A path s -> A -> t. *)
Module Chain.

Definition nodes : list node := ["s"; "A"; "t"].
Definition capacity : list (arc * Q) := [ (("s", "A"), 3); (("A", "t"), 2) ].
Definition arcs : list arc := keys capacity.

End Chain.

(** An arc out of ['s'] that leads nowhere. *)
Module DeadEnd.

Definition nodes : list node := ["s"; "A"; "t"].
Definition capacity : list (arc * Q) := [ (("s", "A"), 7) ].
Definition arcs : list arc := keys capacity.

End DeadEnd.

(** The single arc of scenario 2 between nodes named ['a'] and ['b']. *)
Module Renamed.

Definition nodes : list node := ["a"; "b"].
Definition capacity : list (arc * Q) := [ (("a", "b"), 50) ].
Definition arcs : list arc := keys capacity.

End Renamed.

(** Two arcs of capacity 1 in a row. *)
Module UnitChain.

Definition nodes : list node := ["s"; "A"; "t"].
Definition capacity : list (arc * Q) := [ (("s", "A"), 1); (("A", "t"), 1) ].
Definition arcs : list arc := keys capacity.

(** Half of each arc removed, ['A'] half connected. *)
Definition half : assignment :=
  table [ (Vremove ("s", "A"), 1 # 2); (Vremove ("A", "t"), 1 # 2);
          (Vconnect "A", 1 # 2) ].

Definition answers_half : solver := fun _ => mkSolved OPTIMAL half.

End UnitChain.

(** ** The size of a model *)

(** Rows, columns and non-zero coefficients of a model.  The solver
    stores one coefficient per variable and row: the occurrences of a
    variable in a row are added up, those on the right-hand side with
    the opposite sign, and the variable counts if the sum is not
    zero. *)
Definition rows (m : Model) : nat := List.length (mconstrs m).
Definition columns (m : Model) : nat := List.length (mvars m).

Definition coefficient (ts : list (Q * var)) (v : var) : Q :=
  sumQ fst (filter (fun cv => var_eqb (snd cv) v) ts).

Fixpoint distinct_vars (vs : list var) : list var :=
  match vs with
  | [] => []
  | v :: vs' =>
      if existsb (var_eqb v) vs' then distinct_vars vs'
      else v :: distinct_vars vs'
  end.

Definition row_nonzeros (c : Constr) : nat :=
  let vs := distinct_vars (map snd (terms (lhs c) ++ terms (rhs c))) in
  List.length
    (filter (fun v => negb (Qeq_bool (coefficient (terms (lhs c)) v)
                                     (coefficient (terms (rhs c)) v)))
            vs).

Definition nonzeros (m : Model) : nat :=
  fold_right (fun c n => (row_nonzeros c + n)%nat) 0%nat (mconstrs m).

(** ** Vocabulary of the further properties *)

(** A solver whose [OPTIMAL] comes with an optimal solution. *)
Definition truthful (optimize : solver) (m : Model) : Prop :=
  status (optimize m) = OPTIMAL -> optimal m (X (optimize m)).

(** The lines of [min_cut] for the arcs [l]. *)
Definition cut_lines (capacity : list (arc * Q)) (l : list arc)
  : list line :=
  map (fun a => ArcLine (fst a) (snd a) (cap capacity a)) l.

(** The arc has no entry in the capacity dict. *)
Definition missing_key (capacity : list (arc * Q)) (a : arc) : bool :=
  match dict_get arc_eqb capacity a with
  | Ok _ => false
  | Raise _ => true
  end.

(** Every arc removed, no node connected. *)
Definition all_removed : assignment :=
  fun v => match v with Vremove _ => 1 | _ => 0 end.

(** Every arc filled to its capacity. *)
Definition filled (capacity : list (arc * Q)) : assignment :=
  fun v => match v with Vflow a => cap capacity a | _ => 0 end.

(** One more unit of [r] on arc [a]. *)
Definition remove_more (a : arc) (x : assignment) : assignment :=
  fun v => if var_eqb v (Vremove a) then x v + 1 else x v.

(** The capacity of the arcs that leave ['s']. *)
Definition source_capacity (capacity : list (arc * Q)) (arcs : list arc)
  : Q :=
  sumQ (cap capacity) (filter (fun a => is_s (fst a)) arcs).

(** The value read off what [max_flow] printed: the numbers on the lines
    whose tail is ['s']. *)
Definition printed_value (out : list line) : Q :=
  sumQ (fun l => match l with
                 | ArcLine i _ v => if is_s i then v else 0
                 | Title _ => 0
                 end) out.

(** The two models have the same solutions, with the same objective
    values. *)
Definition same_program (m m' : Model) : Prop :=
  msense m = msense m' /\
  (forall x, feasible m x <-> feasible m' x) /\
  (forall x, objval m x == objval m' x).

(** The notebook's arcs with only ['s'] and ['t'] listed as nodes. *)
Module EndsOnly.

Definition nodes : list node := ["s"; "t"].

End EndsOnly.

(** ** The building block of
       [week2/MIP Model Building Blocks-TO COMPLETE.ipynb]

    The notebook creates a model with three continuous and three binary
    variables and defines one function, [greater_or_equal_max], which
    adds two rows to a model it is given.  The model object is mutated
    in place; here the function returns the model it leaves behind. *)

Module Blocks.

Inductive VType := CONTINUOUS | BINARY.

(** A [Var] is the index of its column in the model. *)
Definition Var := nat.

Record Column := mkColumn { cname : string; vtype : VType }.

Record Expr := mkExpr { eterms : list (Q * Var); econst : Q }.

Definition of_var (v : Var) : Expr := mkExpr [(1, v)] 0.

Record Row := mkRow { rlhs : Expr; rcmp : Cmp; rrhs : Expr }.

Record Model := mkModel { mcols : list Column; mrows : list Row }.

(** [Model()] *)
Definition newModel : Model := mkModel [] [].

(** [m.addVar(vtype=t, name=n)]: a new last column; the bounds are the
    defaults of the type. *)
Definition addVar (m : Model) (t : VType) (n : string) : Model * Var :=
  (mkModel (mcols m ++ [mkColumn n t]) (mrows m), List.length (mcols m)).

(** [a >= b] between two variables. *)
Definition ge (a b : Var) : Row := mkRow (of_var a) GE (of_var b).

(** [m.addConstr(row)] *)
Definition addConstr (m : Model) (r : Row) : Model :=
  mkModel (mcols m) (mrows m ++ [r]).

Definition greater_or_equal_max (m : Model) (a b c : Var) : Model :=
  (* m.addConstr(a >= b) *)
  let m := addConstr m (ge a b) in
  (* m.addConstr(a >= c) *)
  let m := addConstr m (ge a c) in
  m.

(** The cell that creates the model and its six variables. *)
Definition setup : Model * (Var * Var * Var) * (Var * Var * Var) :=
  (* m = Model() *)
  let m := newModel in
  (* a, b, c = (m.addVar(vtype=GRB.CONTINUOUS, name=i) for i in "abc") *)
  let '(m, a) := addVar m CONTINUOUS "a" in
  let '(m, b) := addVar m CONTINUOUS "b" in
  let '(m, c) := addVar m CONTINUOUS "c" in
  (* x, y, z = (m.addVar(vtype=GRB.BINARY, name=i) for i in "xyz") *)
  let '(m, x) := addVar m BINARY "x" in
  let '(m, y) := addVar m BINARY "y" in
  let '(m, z) := addVar m BINARY "z" in
  (m, (a, b, c), (x, y, z)).

(** *** Meaning *)

Definition point := Var -> Q.

Definition eval (p : point) (e : Expr) : Q :=
  fold_right (fun cv acc => fst cv * p (snd cv) + acc) 0 (eterms e)
  + econst e.

Definition holds (p : point) (r : Row) : Prop :=
  match rcmp r with
  | LE => eval p (rlhs r) <= eval p (rrhs r)
  | GE => eval p (rrhs r) <= eval p (rlhs r)
  | EQ => eval p (rlhs r) == eval p (rrhs r)
  end.

(** A continuous variable is non-negative (the default bounds); a binary
    one is 0 or 1. *)
Definition in_domain (t : VType) (q : Q) : Prop :=
  match t with
  | CONTINUOUS => 0 <= q
  | BINARY => q == 0 \/ q == 1
  end.

Definition feasible (m : Model) (p : point) : Prop :=
  (forall v col, nth_error (mcols m) v = Some col ->
                 in_domain (vtype col) (p v)) /\
  Forall (holds p) (mrows m).

(** [v] is a variable of [m]. *)
Definition owns (m : Model) (v : Var) : Prop :=
  (v < List.length (mcols m))%nat.

Definition is_binary (m : Model) (v : Var) : Prop :=
  exists n, nth_error (mcols m) v = Some (mkColumn n BINARY).

(** The point given by the list of its values, column by column. *)
Definition point_of (l : list Q) : point := fun v => nth v l 0.

(** The model and the variables that the cell leaves behind. *)
Definition m0 : Model := fst (fst setup).
Definition a : Var := fst (fst (snd (fst setup))).
Definition b : Var := snd (fst (snd (fst setup))).
Definition c : Var := snd (snd (fst setup)).
Definition x : Var := fst (fst (snd setup)).
Definition y : Var := snd (fst (snd setup)).
Definition z : Var := snd (snd setup).

(** Values for [a, b, c, x, y, z]. *)
Definition values : point := point_of [2; 1; 2; 1; 0; 1].

End Blocks.

(** An arc without a capacity entry. *)
Module MissingEntry.

Definition nodes : list node := ["s"; "A"; "t"].
Definition arcs : list arc := [("s", "A"); ("A", "t")].
Definition capacity : list (arc * Q) := [ (("s", "A"), 1) ].


End MissingEntry.

(** The notebook's data with ['s'] and ['t'] left out of the node list
    and one more entry in the capacity dict. *)
Module InnerOnly.

Definition nodes : list node := ["A"; "B"; "C"; "D"].
Definition capacity : list (arc * Q) :=
  Notebook.capacity ++ [ (("t", "s"), 7) ].

End InnerOnly.

(** * Part II: lemmas and theorems *)

(** ** Sums over lists *)

Lemma sumQ_app {A} (f : A -> Q) (l1 l2 : list A) :
  sumQ f (l1 ++ l2) == sumQ f l1 + sumQ f l2.
Proof.
  induction l1 as [|a l1 IH]; simpl; [lra|]. rewrite IH. lra.
Qed.

Lemma sumQ_ext {A} (f g : A -> Q) (l : list A) :
  (forall a, In a l -> f a == g a) -> sumQ f l == sumQ g l.
Proof.
  induction l as [|a l IH]; intros H; simpl; [lra|].
  rewrite (H a (or_introl eq_refl)), IH; [lra|].
  intros b Hb. apply H. now right.
Qed.

Lemma sumQ_le {A} (f g : A -> Q) (l : list A) :
  (forall a, In a l -> f a <= g a) -> sumQ f l <= sumQ g l.
Proof.
  induction l as [|a l IH]; intros H; simpl; [lra|].
  assert (f a <= g a) by (apply H; now left).
  assert (sumQ f l <= sumQ g l) by (apply IH; intros b Hb; apply H; now right).
  lra.
Qed.

Lemma sumQ_nonneg {A} (f : A -> Q) (l : list A) :
  (forall a, In a l -> 0 <= f a) -> 0 <= sumQ f l.
Proof.
  induction l as [|a l IH]; intros H; simpl; [lra|].
  assert (0 <= f a) by (apply H; now left).
  assert (0 <= sumQ f l) by (apply IH; intros b Hb; apply H; now right).
  lra.
Qed.

Lemma sumQ_zero {A} (f : A -> Q) (l : list A) :
  (forall a, In a l -> f a == 0) -> sumQ f l == 0.
Proof.
  induction l as [|a l IH]; intros H; simpl; [lra|].
  rewrite (H a (or_introl eq_refl)), IH; [lra|].
  intros b Hb. apply H. now right.
Qed.

Lemma sumQ_plus {A} (f g : A -> Q) (l : list A) :
  sumQ (fun a => f a + g a) l == sumQ f l + sumQ g l.
Proof.
  induction l as [|a l IH]; simpl; [lra|]. rewrite IH. lra.
Qed.

Lemma sumQ_scal {A} (k : Q) (f : A -> Q) (l : list A) :
  sumQ (fun a => k * f a) l == k * sumQ f l.
Proof.
  induction l as [|a l IH]; simpl; [lra|]. rewrite IH. lra.
Qed.

(** A sum over the members that pass a test is the sum of the tested
    summand over the whole list. *)
Lemma sumQ_filter {A} (p : A -> bool) (f : A -> Q) (l : list A) :
  sumQ f (filter p l) == sumQ (fun a => if p a then f a else 0) l.
Proof.
  induction l as [|a l IH]; simpl; [lra|].
  destruct (p a); simpl; rewrite IH; lra.
Qed.

(** In a duplicate-free list, the summand that is [h] at [u] and zero
    elsewhere sums to [h]. *)
Lemma sumQ_single {A} (eqb : A -> A -> bool)
    (eqb_spec : forall a b, eqb a b = true <-> a = b)
    (h : Q) (u : A) (l : list A) :
  NoDup l ->
  sumQ (fun a => if eqb a u then h else 0) l
  == (if existsb (fun a => eqb a u) l then h else 0).
Proof.
  induction 1 as [|a l Hni Hnd IH]; simpl; [lra|].
  destruct (eqb a u) eqn:E; simpl.
  - apply eqb_spec in E. subst a.
    rewrite sumQ_zero; [lra|].
    intros b Hb. destruct (eqb b u) eqn:E'; [|lra].
    apply eqb_spec in E'. subst. contradiction.
  - rewrite IH. lra.
Qed.

Lemma arc_eqb_spec (a b : arc) : arc_eqb a b = true <-> a = b.
Proof.
  destruct a as [i j], b as [i' j']. unfold arc_eqb. simpl.
  rewrite andb_true_iff, !String.eqb_eq. split.
  - intros [-> ->]. reflexivity.
  - intros H. inversion H. auto.
Qed.

Lemma existsb_eqb_In {A} (eqb : A -> A -> bool)
    (eqb_spec : forall a b, eqb a b = true <-> a = b) (u : A) (l : list A) :
  existsb (fun a => eqb a u) l = true <-> In u l.
Proof.
  rewrite existsb_exists. split.
  - intros [a [Ha E]]. apply eqb_spec in E. now subst.
  - intros H. exists u. split; [assumption|]. now apply eqb_spec.
Qed.

(** ** The error monad *)

Lemma mapM_Ok {A B} (f : A -> result B) (l : list A) (bs : list B) :
  mapM f l = Ok bs -> Forall2 (fun a b => f a = Ok b) l bs.
Proof.
  revert bs. induction l as [|a l IH]; simpl; intros bs H.
  - inversion H. constructor.
  - destruct (f a) as [b|e] eqn:Ea; simpl in H; [|discriminate].
    destruct (mapM f l) as [bs'|e] eqn:El; simpl in H; [|discriminate].
    inversion H. subst. constructor; auto.
Qed.

Lemma mapM_total {A B} (f : A -> result B) (g : A -> B) (l : list A) :
  (forall a, In a l -> f a = Ok (g a)) -> mapM f l = Ok (map g l).
Proof.
  induction l as [|a l IH]; intros H; simpl; [reflexivity|].
  rewrite (H a (or_introl eq_refl)). simpl.
  rewrite IH; [reflexivity|]. intros b Hb. apply H. now right.
Qed.

Lemma mapM_Raise {A B} (f : A -> result B) (l : list A) (a : A) e :
  In a l -> f a = Raise e -> exists e', mapM f l = Raise e'.
Proof.
  induction l as [|b l IH]; simpl; [contradiction|].
  intros [->|Hin] Ha.
  - rewrite Ha. simpl. eauto.
  - destruct (f b); simpl; [|eauto].
    destruct (IH Hin Ha) as [e' ->]. simpl. eauto.
Qed.

Lemma mapM_Ok_all {A B} (f : A -> result B) (l : list A) (bs : list B) :
  mapM f l = Ok bs -> forall a, In a l -> exists b, f a = Ok b.
Proof.
  intros H a Ha. destruct (f a) as [b|e] eqn:E; [eauto|].
  destruct (mapM_Raise f l a e Ha E) as [e' He']. congruence.
Qed.

Lemma mapM_all_Ok {A B} (f : A -> result B) (l : list A) :
  (forall a, In a l -> exists b, f a = Ok b) -> exists bs, mapM f l = Ok bs.
Proof.
  induction l as [|a l IH]; intros H; simpl; [eauto|].
  destruct (H a (or_introl eq_refl)) as [b ->]. simpl.
  destruct IH as [bs ->]; [intros c Hc; apply H; now right|].
  simpl. eauto.
Qed.

Lemma has_key_cap capacity a :
  has_key capacity a -> dict_get arc_eqb capacity a = Ok (cap capacity a).
Proof. intros [c H]. unfold cap. now rewrite H. Qed.

Lemma Forall2_mapM_Forall {A B} (f : A -> result B) (P : B -> Prop)
    (l : list A) (bs : list B) :
  Forall2 (fun a b => f a = Ok b) l bs ->
  (Forall P bs <-> forall a b, In a l -> f a = Ok b -> P b).
Proof.
  induction 1 as [|a b l bs Hab _ IH].
  - split; [intros _ a b []|constructor].
  - rewrite Forall_cons_iff, IH. split.
    + intros [Hb Hl] a' b' [<-|Hin] E; [congruence|eauto].
    + intros H. split.
      * apply (H a b); [now left|assumption].
      * intros a' b' Hin E. apply (H a' b'); [now right|assumption].
Qed.

(** ** What the two builders build *)

Lemma eval_quicksum (x : assignment) (vs : list var) :
  evalLin x (quicksum vs) == sumQ x vs.
Proof.
  unfold evalLin, quicksum. simpl.
  induction vs as [|v vs IH]; simpl; [lra|].
  simpl in IH. lra.
Qed.

Lemma filter_map_key {K} (mk : K -> var) (p : K -> bool) (l : list K) :
  map snd (filter (fun kv => p (fst kv)) (map (fun k => (k, mk k)) l))
  = map mk (filter p l).
Proof.
  induction l as [|k l IH]; simpl; [reflexivity|].
  destruct (p k); simpl; now rewrite IH.
Qed.

Lemma sumQ_map {A B} (g : A -> B) (f : B -> Q) (l : list A) :
  sumQ f (map g l) = sumQ (fun a => f (g a)) l.
Proof. induction l as [|a l IH]; simpl; [reflexivity|]. now rewrite IH. Qed.

Lemma eval_td_sum (x : assignment) (arcs : list arc) (p1 p2 : string) :
  evalLin x (td_sum (map (fun a => (a, Vflow a)) arcs) p1 p2)
  == psum x arcs p1 p2.
Proof.
  unfold td_sum, psum. rewrite eval_quicksum.
  rewrite (filter_map_key Vflow (pattern p1 p2)).
  rewrite sumQ_map. reflexivity.
Qed.

(** *** Duplicate keys *)

Lemma nodupb_sound {A} (eqb : A -> A -> bool)
    (eqb_spec : forall a b, eqb a b = true <-> a = b) (l : list A) :
  nodupb eqb l = true -> NoDup l.
Proof.
  induction l as [|a l IH]; simpl; intros H; constructor.
  - apply andb_true_iff in H. destruct H as [H _].
    apply negb_true_iff in H. intros Hin.
    apply (existsb_eqb_In eqb eqb_spec) in Hin. congruence.
  - apply IH. apply andb_true_iff in H. tauto.
Qed.

Lemma nodupb_complete {A} (eqb : A -> A -> bool)
    (eqb_spec : forall a b, eqb a b = true <-> a = b) (l : list A) :
  NoDup l -> nodupb eqb l = true.
Proof.
  induction 1 as [|a l Hni Hnd IH]; simpl; [reflexivity|].
  rewrite IH, andb_true_r. apply negb_true_iff.
  destruct (existsb (fun b => eqb b a) l) eqn:E; [|reflexivity].
  exfalso. apply Hni. now apply (existsb_eqb_In eqb eqb_spec).
Qed.

Lemma nodupb_false {A} (eqb : A -> A -> bool)
    (eqb_spec : forall a b, eqb a b = true <-> a = b) (l : list A) :
  ~ NoDup l -> nodupb eqb l = false.
Proof.
  intros H. destruct (nodupb eqb l) eqn:E; [|reflexivity].
  exfalso. apply H. now apply (nodupb_sound eqb eqb_spec).
Qed.

Lemma string_eqb_spec (a b : string) : (a =? b)%string = true <-> a = b.
Proof. apply String.eqb_eq. Qed.

Lemma addVars_distinct {K} (eqb : K -> K -> bool)
    (eqb_spec : forall a b, eqb a b = true <-> a = b)
    (m : Model) (mk : K -> var) (keys : list K) (objs : list Q) :
  NoDup keys -> addVars eqb m mk keys objs = Ok (new_columns m mk keys objs).
Proof.
  intros H. unfold addVars. now rewrite (nodupb_complete eqb eqb_spec).
Qed.

Lemma addVars_duplicate {K} (eqb : K -> K -> bool)
    (eqb_spec : forall a b, eqb a b = true <-> a = b)
    (m : Model) (mk : K -> var) (keys : list K) (objs : list Q) :
  ~ NoDup keys -> addVars eqb m mk keys objs = Raise KeyError.
Proof.
  intros H. unfold addVars. now rewrite (nodupb_false eqb eqb_spec).
Qed.

Lemma addVars_Ok {K} (eqb : K -> K -> bool)
    (eqb_spec : forall a b, eqb a b = true <-> a = b)
    (m : Model) (mk : K -> var) (keys : list K) (objs : list Q) r :
  addVars eqb m mk keys objs = Ok r ->
  NoDup keys /\ r = new_columns m mk keys objs.
Proof.
  unfold addVars. destruct (nodupb eqb keys) eqn:E; [|discriminate].
  intros H. split; [now apply (nodupb_sound eqb eqb_spec)|congruence].
Qed.

(** *** The model of [max_flow] *)

(** With distinct arcs, [max_flow] builds this model, or raises at the
    first arc without capacity entry. *)
Lemma max_flow_model_distinct nodes arcs capacity :
  NoDup arcs ->
  max_flow_model nodes arcs capacity
  = (let flow := map (fun a => (a, Vflow a)) arcs in
     caps <- mapM (fun a : arc =>
                     c <- dict_get arc_eqb capacity a ;;
                     Ok (mkConstr (td_sum flow (fst a) (snd a)) LE
                                  (lin_const c)))
                  arcs ;;
     Ok (addConstrs
           (addConstrs
              (setObjective
                 (fst (new_columns newModel Vflow arcs
                         (map (fun _ => 1) arcs)))
                 (quicksum
                    (map snd (filter (fun kv => is_s (fst (fst kv))) flow)))
                 MAXIMIZE)
              caps)
           (map (fun j => mkConstr (td_sum flow j "*") EQ (td_sum flow "*" j))
                (filter interior nodes)))).
Proof.
  intros Hd. unfold max_flow_model.
  rewrite (addVars_distinct arc_eqb arc_eqb_spec _ _ _ _ Hd). reflexivity.
Qed.

Lemma max_flow_model_duplicate nodes arcs capacity :
  ~ NoDup arcs -> max_flow_model nodes arcs capacity = Raise KeyError.
Proof.
  intros Hd. unfold max_flow_model.
  now rewrite (addVars_duplicate arc_eqb arc_eqb_spec _ _ _ _ Hd).
Qed.

Lemma max_flow_model_arcs_distinct nodes arcs capacity m :
  max_flow_model nodes arcs capacity = Ok m -> NoDup arcs.
Proof.
  intros H. unfold max_flow_model in H.
  destruct (addVars arc_eqb newModel Vflow arcs (map (fun _ => 1) arcs))
    as [r|e] eqn:E; [|discriminate].
  now apply (addVars_Ok arc_eqb arc_eqb_spec) in E.
Qed.

Lemma max_flow_model_built nodes arcs capacity :
  (NoDup arcs /\ forall a, In a arcs -> has_key capacity a) <->
  exists m, max_flow_model nodes arcs capacity = Ok m.
Proof.
  split.
  - intros [Hd H]. rewrite (max_flow_model_distinct _ _ _ Hd). cbv zeta.
    rewrite (mapM_total _
      (fun a =>
         mkConstr (td_sum (map (fun a => (a, Vflow a)) arcs) (fst a) (snd a))
                  LE (lin_const (cap capacity a)))).
    + simpl. eauto.
    + intros a Ha. rewrite (has_key_cap _ _ (H a Ha)). reflexivity.
  - intros [m H].
    pose proof (max_flow_model_arcs_distinct _ _ _ _ H) as Hd.
    split; [exact Hd|]. intros a Ha.
    rewrite (max_flow_model_distinct _ _ _ Hd) in H. cbv zeta in H.
    destruct (mapM _ arcs) as [cs|e] eqn:E; simpl in H; [|discriminate].
    destruct (mapM_Ok_all _ _ _ E a Ha) as [b Hb].
    destruct (dict_get arc_eqb capacity a) as [c|] eqn:Ec; simpl in Hb;
      [exists c; assumption|discriminate].
Qed.

Lemma max_flow_sense nodes arcs capacity m :
  max_flow_model nodes arcs capacity = Ok m -> msense m = MAXIMIZE.
Proof.
  intros H. pose proof (max_flow_model_arcs_distinct _ _ _ _ H) as Hd.
  rewrite (max_flow_model_distinct _ _ _ Hd) in H. cbv zeta in H.
  destruct (mapM _ arcs); simpl in H; inversion H. reflexivity.
Qed.

(** The objective is the total flow on the arcs whose tail is ['s']. *)
Lemma max_flow_objval nodes arcs capacity m x :
  max_flow_model nodes arcs capacity = Ok m ->
  objval m x == sumQ (fl x) (filter (fun a => is_s (fst a)) arcs).
Proof.
  intros H. pose proof (max_flow_model_arcs_distinct _ _ _ _ H) as Hd.
  rewrite (max_flow_model_distinct _ _ _ Hd) in H. cbv zeta in H.
  destruct (mapM _ arcs); simpl in H; inversion H. subst m.
  unfold objval. simpl. rewrite eval_quicksum.
  rewrite (filter_map_key Vflow (fun a => is_s (fst a))).
  rewrite sumQ_map. reflexivity.
Qed.

(** Feasibility for the model of [max_flow], constraint family by
    constraint family. *)
Lemma max_flow_feasible nodes arcs capacity m x :
  max_flow_model nodes arcs capacity = Ok m ->
  (feasible m x <->
   (forall a, In a arcs -> 0 <= fl x a) /\
   (forall a, In a arcs -> psum x arcs (fst a) (snd a) <= cap capacity a) /\
   (forall j, In j nodes -> interior j = true ->
              psum x arcs j "*" == psum x arcs "*" j)).
Proof.
  intros Hm.
  assert (Hk : forall a, In a arcs -> has_key capacity a)
    by (apply (max_flow_model_built nodes); eauto).
  pose proof (max_flow_model_arcs_distinct _ _ _ _ Hm) as Hd.
  rewrite (max_flow_model_distinct _ _ _ Hd) in Hm. cbv zeta in Hm.
  destruct (mapM _ arcs) as [cs|e] eqn:E; simpl in Hm; [|discriminate].
  inversion Hm. subst m. clear Hm.
  apply mapM_Ok in E.
  unfold feasible. simpl.
  rewrite Forall_app, (Forall2_mapM_Forall _ (holds x) _ _ E).
  rewrite !Forall_map, !Forall_forall.
  split.
  - intros [Hb [Hc Hn]]. repeat split.
    + intros a Ha. destruct (Hb a Ha) as [H0 _]. exact H0.
    + intros a Ha.
      specialize (Hc a _ Ha
                    ltac:(rewrite (has_key_cap _ _ (Hk a Ha)); reflexivity)).
      unfold holds in Hc. simpl in Hc. rewrite eval_td_sum in Hc.
      unfold evalLin in Hc. simpl in Hc. lra.
    + intros j Hj Hi.
      assert (Hin : In j (filter interior nodes)) by (apply filter_In; auto).
      specialize (Hn j Hin). unfold holds in Hn. simpl in Hn.
      now rewrite !eval_td_sum in Hn.
  - intros [H0 [Hc Hn]]. repeat split.
    + apply H0. assumption.
    + intros a b Ha Hb.
      rewrite (has_key_cap _ _ (Hk a Ha)) in Hb. simpl in Hb.
      inversion Hb. subst b. unfold holds. simpl. rewrite eval_td_sum.
      unfold evalLin. simpl. specialize (Hc a Ha). lra.
    + intros j Hj. apply filter_In in Hj. destruct Hj as [Hj Hi].
      unfold holds. simpl. rewrite !eval_td_sum. auto.
Qed.

Lemma dict_get_td {K} (eqb : K -> K -> bool)
    (eqb_spec : forall a b, eqb a b = true <-> a = b)
    (mk : K -> var) (ks : list K) (k : K) :
  dict_get eqb (map (fun k => (k, mk k)) ks) k
  = if existsb (fun k' => eqb k' k) ks then Ok (mk k) else Raise KeyError.
Proof.
  induction ks as [|k' ks IH]; simpl; [reflexivity|].
  destruct (eqb k' k) eqn:E; simpl; [|exact IH].
  apply eqb_spec in E. now subst.
Qed.

Lemma has_connect_iff nodes j :
  has_connect nodes j = true <-> In j nodes /\ interior j = true.
Proof.
  unfold has_connect.
  rewrite (existsb_eqb_In String.eqb string_eqb_spec), filter_In. tauto.
Qed.

Lemma cut_constr_spec nodes arcs a :
  In a arcs ->
  let remove := map (fun k => (k, Vremove k)) arcs in
  let connect := map (fun k => (k, Vconnect k)) (filter interior nodes) in
  if cut_shape nodes a
  then exists c, cut_constr remove connect a = Ok c /\
                 forall x, holds x c <-> cut_holds x a
  else cut_constr remove connect a = Raise KeyError.
Proof.
  intros Ha remove connect. destruct a as [i j].
  assert (Hr : dict_get arc_eqb remove (i, j) = Ok (Vremove (i, j))).
  { unfold remove. rewrite (dict_get_td arc_eqb arc_eqb_spec).
    replace (existsb _ arcs) with true; [reflexivity|].
    symmetry. now apply (existsb_eqb_In arc_eqb arc_eqb_spec). }
  assert (Hc : forall k, dict_get String.eqb connect k
                         = if has_connect nodes k then Ok (Vconnect k)
                           else Raise KeyError).
  { intros k. unfold connect.
    now rewrite (dict_get_td String.eqb string_eqb_spec). }
  unfold cut_shape, cut_constr, cut_holds. cbn [fst snd].
  destruct (is_s i) eqn:Ei.
  - apply String.eqb_eq in Ei. subst i. fold remove connect.
    destruct (has_connect nodes j) eqn:Hj.
    + eexists. rewrite Hr, Hc, Hj. simpl. split; [reflexivity|]. intros x.
      unfold holds, evalLin, rm, cn. simpl. split; intros; lra.
    + rewrite Hr, Hc, Hj. reflexivity.
  - destruct (is_t j) eqn:Ej.
    + apply String.eqb_eq in Ej. subst j.
      destruct (has_connect nodes i) eqn:Hi.
      * eexists. rewrite Hr, Hc, Hi. simpl. split; [reflexivity|]. intros x.
        unfold holds, evalLin, rm, cn. simpl. split; intros; lra.
      * rewrite Hr, Hc, Hi. reflexivity.
    + destruct (has_connect nodes j) eqn:Hj; simpl.
      * destruct (has_connect nodes i) eqn:Hi; simpl.
        -- eexists. rewrite Hr, !Hc, Hi, Hj. simpl. split; [reflexivity|].
           intros x. unfold holds, evalLin, rm, cn. simpl. split; intros; lra.
        -- rewrite Hr, !Hc, Hi, Hj. reflexivity.
      * rewrite Hr, !Hc, Hj. reflexivity.
Qed.

(** *** The model of [min_cut] *)

(** With distinct arcs and distinct nodes other than ['s'] and ['t'],
    [min_cut] builds this model, or raises at the first arc for which
    [connect] has no key. *)
Lemma min_cut_model_distinct nodes arcs capacity :
  NoDup arcs -> NoDup (filter interior nodes) ->
  min_cut_model nodes arcs capacity
  = (let remove := map (fun k => (k, Vremove k)) arcs in
     let inner := filter interior nodes in
     let connect := map (fun k => (k, Vconnect k)) inner in
     cs <- mapM (cut_constr remove connect) arcs ;;
     Ok (addConstrs
           (fst (new_columns
                   (fst (new_columns (setModelSense newModel MINIMIZE)
                           Vremove arcs (map (cap capacity) arcs)))
                   Vconnect inner (map (fun _ => 0) inner)))
           cs)).
Proof.
  intros Ha Hn. unfold min_cut_model.
  rewrite (addVars_distinct arc_eqb arc_eqb_spec _ _ _ _ Ha). cbn [bind].
  unfold new_columns at 1. cbv beta iota zeta.
  rewrite (addVars_distinct String.eqb string_eqb_spec _ _ _ _ Hn).
  reflexivity.
Qed.

Lemma min_cut_model_duplicate nodes arcs capacity :
  ~ NoDup arcs \/ ~ NoDup (filter interior nodes) ->
  min_cut_model nodes arcs capacity = Raise KeyError.
Proof.
  intros H. unfold min_cut_model.
  destruct (nodupb arc_eqb arcs) eqn:Ea.
  - apply (nodupb_sound arc_eqb arc_eqb_spec) in Ea.
    destruct H as [H|H]; [contradiction|].
    rewrite (addVars_distinct arc_eqb arc_eqb_spec _ _ _ _ Ea). cbn [bind].
    unfold new_columns at 1. cbv beta iota zeta.
    now rewrite (addVars_duplicate String.eqb string_eqb_spec _ _ _ _ H).
  - unfold addVars at 1. now rewrite Ea.
Qed.

Lemma min_cut_model_keys_distinct nodes arcs capacity m :
  min_cut_model nodes arcs capacity = Ok m ->
  NoDup arcs /\ NoDup (filter interior nodes).
Proof.
  intros H.
  destruct (nodupb arc_eqb arcs) eqn:Ea.
  - apply (nodupb_sound arc_eqb arc_eqb_spec) in Ea. split; [exact Ea|].
    destruct (nodupb String.eqb (filter interior nodes)) eqn:En.
    + now apply (nodupb_sound String.eqb string_eqb_spec).
    + rewrite min_cut_model_duplicate in H; [discriminate|].
      right. intros Hn.
      apply (nodupb_complete String.eqb string_eqb_spec) in Hn. congruence.
  - rewrite min_cut_model_duplicate in H; [discriminate|].
    left. intros Hn.
    apply (nodupb_complete arc_eqb arc_eqb_spec) in Hn. congruence.
Qed.

Lemma min_cut_model_built nodes arcs capacity :
  (NoDup arcs /\ NoDup (filter interior nodes) /\
   forall a, In a arcs -> cut_shape nodes a = true) <->
  exists m, min_cut_model nodes arcs capacity = Ok m.
Proof.
  split.
  - intros [Ha [Hn Hs]]. rewrite (min_cut_model_distinct _ _ _ Ha Hn).
    cbv zeta.
    destruct (mapM_all_Ok
                (cut_constr (map (fun k => (k, Vremove k)) arcs)
                   (map (fun k => (k, Vconnect k)) (filter interior nodes)))
                arcs) as [cs ->]; [|simpl; eauto].
    intros a Hin. pose proof (cut_constr_spec nodes arcs a Hin) as H.
    simpl in H. rewrite (Hs a Hin) in H. destruct H as [c [H _]]. eauto.
  - intros [m H].
    destruct (min_cut_model_keys_distinct _ _ _ _ H) as [Ha Hn].
    split; [exact Ha|]. split; [exact Hn|].
    rewrite (min_cut_model_distinct _ _ _ Ha Hn) in H. cbv zeta in H.
    destruct (mapM _ arcs) as [cs|] eqn:Ec in H; simpl in H; [|discriminate].
    intros a Hin.
    destruct (mapM_Ok_all _ _ _ Ec a Hin) as [c Hc].
    pose proof (cut_constr_spec nodes arcs a Hin) as H'. simpl in H'.
    destruct (cut_shape nodes a); [reflexivity|congruence].
Qed.

Lemma sum_terms_app x ts1 ts2 :
  sum_terms x (ts1 ++ ts2) == sum_terms x ts1 + sum_terms x ts2.
Proof.
  induction ts1 as [|t ts1 IH]; simpl; [lra|]. rewrite IH. lra.
Qed.

Lemma sum_terms_combine {K} x (g : K -> Q) (mk : K -> var) (l : list K) :
  sum_terms x (combine (map g l) (map mk l))
  == sumQ (fun k => g k * x (mk k)) l.
Proof.
  induction l as [|k l IH]; simpl; [lra|]. rewrite IH. lra.
Qed.

Lemma min_cut_sense nodes arcs capacity m :
  min_cut_model nodes arcs capacity = Ok m -> msense m = MINIMIZE.
Proof.
  intros H. destruct (min_cut_model_keys_distinct _ _ _ _ H) as [Ha Hn].
  rewrite (min_cut_model_distinct _ _ _ Ha Hn) in H. cbv zeta in H.
  destruct (mapM (cut_constr _ _) arcs); simpl in H; inversion H.
  reflexivity.
Qed.

(** The objective is the capacity-weighted sum of the [remove]
    variables. *)
Lemma min_cut_objval nodes arcs capacity m x :
  min_cut_model nodes arcs capacity = Ok m ->
  objval m x == sumQ (fun a => cap capacity a * rm x a) arcs.
Proof.
  intros H. destruct (min_cut_model_keys_distinct _ _ _ _ H) as [Ha Hn].
  rewrite (min_cut_model_distinct _ _ _ Ha Hn) in H. cbv zeta in H.
  destruct (mapM (cut_constr _ _) arcs); simpl in H; inversion H. clear H.
  unfold objval, evalLin. simpl.
  rewrite sum_terms_app, !sum_terms_combine.
  rewrite (sumQ_zero (fun k => 0 * x (Vconnect k))) by (intros; lra).
  unfold rm. lra.
Qed.

(** Feasibility for the model of [min_cut]. *)
Lemma min_cut_feasible nodes arcs capacity m x :
  min_cut_model nodes arcs capacity = Ok m ->
  (feasible m x <->
   (forall a, In a arcs -> 0 <= rm x a) /\
   (forall j, In j nodes -> interior j = true -> 0 <= cn x j) /\
   (forall a, In a arcs -> cut_holds x a)).
Proof.
  intros Hm.
  assert (Hs : forall a, In a arcs -> cut_shape nodes a = true)
    by (apply (min_cut_model_built nodes arcs capacity); eauto).
  destruct (min_cut_model_keys_distinct _ _ _ _ Hm) as [Hda Hdn].
  rewrite (min_cut_model_distinct _ _ _ Hda Hdn) in Hm. cbv zeta in Hm.
  destruct (mapM _ arcs) as [cs|] eqn:Ec in Hm; simpl in Hm; [|discriminate].
  inversion Hm. subst m. clear Hm.
  apply mapM_Ok in Ec.
  unfold feasible. simpl.
  rewrite Forall_app, (Forall2_mapM_Forall _ (holds x) _ _ Ec).
  rewrite !Forall_map, !Forall_forall.
  assert (Hrow : forall a c, In a arcs ->
            cut_constr (map (fun k => (k, Vremove k)) arcs)
              (map (fun k => (k, Vconnect k)) (filter interior nodes)) a
            = Ok c ->
            (holds x c <-> cut_holds x a)).
  { intros a c Ha E. pose proof (cut_constr_spec nodes arcs a Ha) as H.
    simpl in H. rewrite (Hs a Ha) in H. destruct H as [c' [E' H]].
    rewrite E in E'. inversion E'. subst c'. apply H. }
  split.
  - intros [[Hr Hz] Hc]. repeat split.
    + intros a Ha. destruct (Hr a Ha) as [H0 _]. exact H0.
    + intros j Hj Hi.
      assert (Hin : In j (filter interior nodes)) by (apply filter_In; auto).
      destruct (Hz j Hin) as [H0 _]. exact H0.
    + intros a Ha.
      pose proof (cut_constr_spec nodes arcs a Ha) as H.
      simpl in H. rewrite (Hs a Ha) in H. destruct H as [c [E H]].
      apply H. apply (Hc a c Ha E).
  - intros [Hr [Hz Hc]]. repeat split.
    + apply Hr. assumption.
    + apply filter_In in H. destruct H. apply Hz; assumption.
    + intros a c Ha E. apply (Hrow a c Ha E). auto.
Qed.

(** ** The patterns of [tupledict.sum] *)

Lemma filter_ext_in' {A} (p q : A -> bool) (l : list A) :
  (forall a, In a l -> p a = q a) -> filter p l = filter q l.
Proof.
  induction l as [|a l IH]; intros H; simpl; [reflexivity|].
  rewrite (H a (or_introl eq_refl)), IH; [reflexivity|].
  intros b Hb. apply H. now right.
Qed.

Lemma pmatch_lit (p k : string) : p <> "*" -> pmatch p k = (p =? k)%string.
Proof.
  intros H. unfold pmatch.
  destruct (String.eqb_spec p "*"); [contradiction|reflexivity].
Qed.

Lemma pmatch_star (k : string) : pmatch "*" k = true.
Proof. reflexivity. Qed.

Lemma psum_out x arcs j :
  j <> "*" -> psum x arcs j "*" = outflow (fl x) arcs j.
Proof.
  intros H. unfold psum, outflow. f_equal. apply filter_ext_in'.
  intros a _. unfold pattern. rewrite (pmatch_lit j), pmatch_star by assumption.
  apply andb_true_r.
Qed.

Lemma psum_in x arcs j :
  j <> "*" -> psum x arcs "*" j = inflow (fl x) arcs j.
Proof.
  intros H. unfold psum, inflow. f_equal. apply filter_ext_in'.
  intros a _. unfold pattern. rewrite (pmatch_lit j), pmatch_star by assumption.
  reflexivity.
Qed.

Lemma sumQ_filter_arc (f : arc -> Q) (arcs : list arc) (a : arc) :
  NoDup arcs -> In a arcs -> sumQ f (filter (arc_eqb a) arcs) == f a.
Proof.
  intros Hnd Ha. rewrite sumQ_filter.
  rewrite (sumQ_ext _ (fun b => if arc_eqb b a then f a else 0)).
  - rewrite (sumQ_single arc_eqb arc_eqb_spec) by assumption.
    replace (existsb _ arcs) with true; [reflexivity|].
    symmetry. now apply (existsb_eqb_In arc_eqb arc_eqb_spec).
  - intros b _. destruct (arc_eqb a b) eqn:E.
    + apply arc_eqb_spec in E. subst b.
      replace (arc_eqb a a) with true; [reflexivity|].
      symmetry. now apply arc_eqb_spec.
    + destruct (arc_eqb b a) eqn:E'; [|reflexivity].
      apply arc_eqb_spec in E'. subst b.
      assert (arc_eqb a a = true) by now apply arc_eqb_spec. congruence.
Qed.

Lemma psum_arc x arcs a :
  NoDup arcs -> In a arcs -> fst a <> "*" -> snd a <> "*" ->
  psum x arcs (fst a) (snd a) == fl x a.
Proof.
  intros Hnd Ha H1 H2. unfold psum.
  rewrite (filter_ext_in' _ (arc_eqb a)).
  - now apply sumQ_filter_arc.
  - intros b _. unfold pattern, arc_eqb. now rewrite !pmatch_lit.
Qed.

(** Feasibility for [max_flow]'s model when no arc end is ["*"]: the
    bounds [0 <= f <= capacity] and conservation at every listed node
    other than ['s'] and ['t']. *)
Lemma max_flow_feasible_plain nodes arcs capacity m x :
  max_flow_model nodes arcs capacity = Ok m ->
  NoDup arcs -> no_star arcs -> ~ In "*" nodes ->
  (feasible m x <->
   (forall a, In a arcs -> 0 <= fl x a <= cap capacity a) /\
   (forall j, In j nodes -> interior j = true ->
              outflow (fl x) arcs j == inflow (fl x) arcs j)).
Proof.
  intros Hm Hnd Hns Hn.
  rewrite (max_flow_feasible _ _ _ _ x Hm). split.
  - intros [H0 [Hc Hj]]. split.
    + intros a Ha. destruct (Hns a Ha) as [H1 H2].
      specialize (Hc a Ha). rewrite psum_arc in Hc by assumption.
      split; auto.
    + intros j Hj1 Hj2.
      assert (j <> "*") by (intros ->; contradiction).
      specialize (Hj j Hj1 Hj2). now rewrite psum_out, psum_in in Hj.
  - intros [Hb Hj]. repeat split.
    + intros a Ha. now apply Hb.
    + intros a Ha. destruct (Hns a Ha) as [H1 H2].
      rewrite psum_arc by assumption. now apply Hb.
    + intros j Hj1 Hj2.
      assert (j <> "*") by (intros ->; contradiction).
      rewrite psum_out, psum_in by assumption. auto.
Qed.

Lemma max_flow_objval_out nodes arcs capacity m x :
  max_flow_model nodes arcs capacity = Ok m ->
  objval m x == outflow (fl x) arcs "s".
Proof.
  intros Hm. rewrite (max_flow_objval _ _ _ _ x Hm).
  unfold outflow. rewrite (filter_ext_in' _ (fun a => ("s" =? fst a)%string)).
  - reflexivity.
  - intros a _. unfold is_s. apply String.eqb_sym.
Qed.

(** ** Weak duality *)

Lemma sumQ_pick (N : list node) (u : node) (h : node -> Q) :
  NoDup N -> In u N ->
  sumQ (fun v => if (v =? u)%string then h v else 0) N == h u.
Proof.
  intros Hnd Hu.
  rewrite (sumQ_ext _ (fun v => if (v =? u)%string then h u else 0)).
  - rewrite (sumQ_single String.eqb string_eqb_spec) by assumption.
    replace (existsb _ N) with true; [reflexivity|].
    symmetry. now apply (existsb_eqb_In String.eqb string_eqb_spec).
  - intros v _. destruct (String.eqb_spec v u); [subst|]; reflexivity.
Qed.

Lemma outflow_cons f a l v :
  outflow f (a :: l) v
  == (if (v =? fst a)%string then f a else 0) + outflow f l v.
Proof.
  unfold outflow, sumQ. cbn [filter].
  destruct (v =? fst a)%string; cbn [fold_right]; ring.
Qed.

Lemma inflow_cons f a l v :
  inflow f (a :: l) v
  == (if (v =? snd a)%string then f a else 0) + inflow f l v.
Proof.
  unfold inflow, sumQ. cbn [filter].
  destruct (v =? snd a)%string; cbn [fold_right]; ring.
Qed.

(** Summation by parts on a graph: weighting each arc's flow by the drop
    of a potential [g] along it is the same as weighting each node's net
    outflow by its potential. *)
Lemma potential_identity (N : list node) (arcs : list arc)
    (f : arc -> Q) (g : node -> Q) :
  NoDup N ->
  (forall a, In a arcs -> In (fst a) N /\ In (snd a) N) ->
  sumQ (fun a => f a * (g (fst a) - g (snd a))) arcs
  == sumQ (fun v => g v * (outflow f arcs v - inflow f arcs v)) N.
Proof.
  intros Hnd. induction arcs as [|a l IH]; intros Hin.
  - rewrite (sumQ_zero _ N); [reflexivity|].
    intros v _. unfold outflow, inflow, sumQ. cbn [filter fold_right]. ring.
  - change (sumQ (fun a => f a * (g (fst a) - g (snd a))) (a :: l))
      with (f a * (g (fst a) - g (snd a))
            + sumQ (fun a => f a * (g (fst a) - g (snd a))) l).
    destruct (Hin a (or_introl eq_refl)) as [H1 H2].
    rewrite (sumQ_ext _
      (fun v => ((if (v =? fst a)%string then f a * g v else 0)
                 + (if (v =? snd a)%string then - (f a * g v) else 0))
                + g v * (outflow f l v - inflow f l v))).
    + rewrite !sumQ_plus.
      rewrite (sumQ_pick N (fst a) (fun v => f a * g v)) by assumption.
      rewrite (sumQ_pick N (snd a) (fun v => - (f a * g v))) by assumption.
      rewrite <- IH by (intros b Hb; apply Hin; now right).
      ring.
    + intros v _. rewrite outflow_cons, inflow_cons.
      destruct (v =? fst a)%string; destruct (v =? snd a)%string; ring.
Qed.

Lemma interior_pot z v : interior v = true -> pot z v = z v.
Proof.
  unfold interior, pot. destruct (is_s v); destruct (is_t v); simpl;
    intros H; (discriminate || reflexivity).
Qed.

(** On an arc for which [min_cut] builds its row, the row says that the
    potential drops along the arc by at most [r]. *)
Lemma cut_holds_pot nodes x a :
  cut_shape nodes a = true ->
  (cut_holds x a <-> pot (cn x) (fst a) - pot (cn x) (snd a) <= rm x a).
Proof.
  unfold cut_shape, cut_holds. intros H.
  destruct (is_s (fst a)) eqn:E1.
  - apply has_connect_iff in H. destruct H as [_ H].
    rewrite (interior_pot _ _ H). unfold pot at 1. rewrite E1.
    split; intros; lra.
  - destruct (is_t (snd a)) eqn:E2.
    + apply has_connect_iff in H. destruct H as [_ H].
      rewrite (interior_pot _ _ H).
      apply String.eqb_eq in E2. rewrite E2.
      change (pot (cn x) "t") with 0. split; intros; lra.
    + apply andb_true_iff in H. destruct H as [Hj Hi].
      apply has_connect_iff in Hj, Hi.
      rewrite (interior_pot _ _ (proj2 Hj)), (interior_pot _ _ (proj2 Hi)).
      split; intros; lra.
Qed.

Lemma support_spec arcs v :
  In v (support arcs)
  <-> v = "s" \/ exists a, In a arcs /\ (fst a = v \/ snd a = v).
Proof.
  unfold support, endpoints. rewrite nodup_In. simpl.
  rewrite in_app_iff, !in_map_iff. split.
  - intros [H|[[a [E Ha]]|[a [E Ha]]]]; [now left| |]; right; exists a; tauto.
  - intros [H|[a [Ha [E|E]]]]; [now left| |]; right; [left|right];
      exists a; tauto.
Qed.

(** A flow that is conserved away from ['s'] and ['t'], weighted by a
    potential that is [1] at ['s'] and [0] at ['t'], sums to its net
    outflow at ['s']. *)
Lemma potential_value (arcs : list arc) (f : arc -> Q) (g : node -> Q) :
  g "s" == 1 -> g "t" == 0 ->
  (forall v, In v (support arcs) -> interior v = true ->
             outflow f arcs v == inflow f arcs v) ->
  sumQ (fun a => f a * (g (fst a) - g (snd a))) arcs
  == outflow f arcs "s" - inflow f arcs "s".
Proof.
  intros Hs Ht Hc.
  rewrite (potential_identity (support arcs)).
  - rewrite (sumQ_ext _
      (fun v => if (v =? "s")%string
                then outflow f arcs v - inflow f arcs v else 0)).
    + rewrite (sumQ_pick _ "s" (fun v => outflow f arcs v - inflow f arcs v)).
      * reflexivity.
      * apply NoDup_nodup.
      * apply support_spec. now left.
    + intros v Hv. destruct (String.eqb_spec v "s") as [->|Hn].
      * rewrite Hs. ring.
      * destruct (String.eqb_spec v "t") as [->|Hn'].
        -- rewrite Ht. ring.
        -- rewrite (Hc v Hv); [ring|].
           unfold interior, is_s, is_t.
           apply String.eqb_neq in Hn, Hn'. now rewrite Hn, Hn'.
  - apply NoDup_nodup.
  - intros a Ha. split; apply support_spec; right; exists a; tauto.
Qed.

Lemma cut_shape_inv nodes a :
  cut_shape nodes a = true ->
  (is_s (fst a) = true \/ has_connect nodes (fst a) = true) /\
  (is_t (snd a) = true \/ has_connect nodes (snd a) = true) /\
  is_s (snd a) = false /\ is_t (fst a) = false.
Proof.
  unfold cut_shape.
  assert (Hi : forall v, has_connect nodes v = true ->
                         is_s v = false /\ is_t v = false).
  { intros v H. apply has_connect_iff in H. destruct H as [_ H].
    unfold interior in H. destruct (is_s v); destruct (is_t v);
      simpl in H; auto; discriminate. }
  destruct (is_s (fst a)) eqn:E1.
  - intros H. destruct (Hi _ H) as [H1 H2]. repeat split; auto.
    apply String.eqb_eq in E1. unfold is_t. rewrite E1. reflexivity.
  - destruct (is_t (snd a)) eqn:E2.
    + intros H. destruct (Hi _ H) as [H1 H2]. repeat split; auto.
      apply String.eqb_eq in E2. unfold is_s. rewrite E2. reflexivity.
    + intros H. apply andb_true_iff in H. destruct H as [Hj Hk].
      destruct (Hi _ Hj) as [H1 H2]. destruct (Hi _ Hk) as [H3 H4].
      repeat split; auto.
Qed.

Lemma inflow_none f arcs v :
  (forall a, In a arcs -> (v =? snd a)%string = false) ->
  inflow f arcs v == 0.
Proof.
  intros H. unfold inflow. rewrite sumQ_filter. apply sumQ_zero.
  intros a Ha. now rewrite (H a Ha).
Qed.

Lemma cut_shape_no_star nodes arcs :
  ~ In "*" nodes ->
  (forall a, In a arcs -> cut_shape nodes a = true) ->
  no_star arcs.
Proof.
  intros Hn Hs a Ha.
  destruct (cut_shape_inv nodes a (Hs a Ha)) as [H1 [H2 _]].
  split; intros E; rewrite E in *;
    [destruct H1 as [H|H]|destruct H2 as [H|H]];
    try discriminate; apply has_connect_iff in H; tauto.
Qed.

(** Where [min_cut] builds its model, the nodes that carry a [connect]
    variable are exactly the interior ends of arcs, so conservation is
    imposed at each of them. *)
Lemma conservation_on_support nodes arcs f :
  (forall a, In a arcs -> cut_shape nodes a = true) ->
  (forall j, In j nodes -> interior j = true ->
             outflow f arcs j == inflow f arcs j) ->
  forall v, In v (support arcs) -> interior v = true ->
            outflow f arcs v == inflow f arcs v.
Proof.
  intros Hs Hc v Hv Hi. apply Hc; [|assumption].
  apply support_spec in Hv. destruct Hv as [->|[a [Ha E]]]; [discriminate|].
  destruct (cut_shape_inv nodes a (Hs a Ha)) as [H1 [H2 _]].
  unfold interior in Hi. apply negb_true_iff, orb_false_iff in Hi.
  destruct Hi as [Hi1 Hi2].
  destruct E as [E|E]; subst v.
  - destruct H1 as [H|H]; [congruence|]. apply has_connect_iff in H. tauto.
  - destruct H2 as [H|H]; [congruence|]. apply has_connect_iff in H. tauto.
Qed.

(** The flow value of a feasible flow, as a potential-weighted sum. *)
Lemma flow_value_pot nodes arcs (f : arc -> Q) (g : node -> Q) :
  (forall a, In a arcs -> cut_shape nodes a = true) ->
  (forall j, In j nodes -> interior j = true ->
             outflow f arcs j == inflow f arcs j) ->
  g "s" == 1 -> g "t" == 0 ->
  outflow f arcs "s"
  == sumQ (fun a => f a * (g (fst a) - g (snd a))) arcs.
Proof.
  intros Hs Hc Hgs Hgt.
  rewrite (potential_value arcs f g Hgs Hgt
             (conservation_on_support nodes arcs f Hs Hc)).
  rewrite (inflow_none f arcs "s"); [ring|].
  intros a Ha. destruct (cut_shape_inv nodes a (Hs a Ha)) as [_ [_ [H _]]].
  unfold is_s in H. now rewrite String.eqb_sym.
Qed.

Section WeakDuality.

Variables (nodes : list node) (arcs : list arc) (capacity : list (arc * Q)).
Variables (mf mc : Model).
Hypothesis arcs_unique : NoDup arcs.
Hypothesis nodes_plain : ~ In "*" nodes.
Hypothesis flow_built : max_flow_model nodes arcs capacity = Ok mf.
Hypothesis cut_built : min_cut_model nodes arcs capacity = Ok mc.

Lemma built_shape : forall a, In a arcs -> cut_shape nodes a = true.
Proof. apply (min_cut_model_built nodes arcs capacity). eauto. Qed.

Lemma built_no_star : no_star arcs.
Proof. exact (cut_shape_no_star nodes arcs nodes_plain built_shape). Qed.

(** Every feasible flow is worth at most every feasible cut. *)
Lemma weak_duality_models x y :
  feasible mf x -> feasible mc y -> objval mf x <= objval mc y.
Proof.
  intros Hx Hy.
  apply (max_flow_feasible_plain _ _ _ _ x flow_built arcs_unique
           built_no_star nodes_plain) in Hx.
  destruct Hx as [Hb Hc].
  apply (min_cut_feasible _ _ _ _ y cut_built) in Hy.
  destruct Hy as [Hr [Hz Hrow]].
  rewrite (max_flow_objval_out _ _ _ _ x flow_built).
  rewrite (min_cut_objval _ _ _ _ y cut_built).
  rewrite (flow_value_pot nodes arcs (fl x) (pot (cn y)) built_shape Hc)
    by reflexivity.
  apply sumQ_le. intros a Ha.
  pose proof (Hb a Ha) as [H0 H1]. pose proof (Hr a Ha) as H2.
  pose proof (proj1 (cut_holds_pot nodes y a (built_shape a Ha)) (Hrow a Ha))
    as H3.
  nra.
Qed.

End WeakDuality.

(** ** Closing a set of nodes *)

Lemma memb_In v L : memb v L = true <-> In v L.
Proof. apply (existsb_eqb_In String.eqb string_eqb_spec). Qed.

Lemma memb_not_In v L : memb v L = false <-> ~ In v L.
Proof.
  rewrite <- memb_In. destruct (memb v L); split; intros; congruence.
Qed.

Lemma filter_length_le {A} (p q : A -> bool) (l : list A) :
  (forall x, q x = true -> p x = true) ->
  (List.length (filter q l) <= List.length (filter p l))%nat.
Proof.
  intros H. induction l as [|b l IH]; simpl; [lia|].
  destruct (q b) eqn:Eq.
  - rewrite (H b Eq). simpl. lia.
  - destruct (p b); simpl; lia.
Qed.

Lemma filter_length_lt {A} (p q : A -> bool) (l : list A) (a : A) :
  (forall x, q x = true -> p x = true) ->
  In a l -> p a = true -> q a = false ->
  (List.length (filter q l) < List.length (filter p l))%nat.
Proof.
  intros H. induction l as [|b l IH]; simpl; [contradiction|].
  intros [->|Ha] Hp Hq.
  - rewrite Hp, Hq. simpl.
    pose proof (filter_length_le p q l H). lia.
  - specialize (IH Ha Hp Hq). destruct (q b) eqn:Eq.
    + rewrite (H b Eq). simpl. lia.
    + destruct (p b); simpl; lia.
Qed.

Lemma memb_cons_same v L : memb v (v :: L) = true.
Proof. unfold memb. simpl. now rewrite String.eqb_refl. Qed.

Lemma memb_cons_old u v L : memb u L = true -> memb u (v :: L) = true.
Proof. unfold memb. simpl. intros ->. apply orb_true_r. Qed.

Lemma outside_mono v L a :
  outside (v :: L) a = true -> outside L a = true.
Proof.
  unfold outside.
  destruct (memb (fst a) L) eqn:E1; [|reflexivity].
  destruct (memb (snd a) L) eqn:E2; [|reflexivity].
  now rewrite (memb_cons_old _ _ _ E1), (memb_cons_old _ _ _ E2).
Qed.

Section Closure.

Variable arcs : list arc.
Variable usable : list node -> arc -> option node.
Variable Inv : list node -> Prop.

Hypothesis usable_crosses : forall L a v,
  usable L a = Some v -> outside L a = true /\ outside (v :: L) a = false.
Hypothesis usable_keeps : forall L a v,
  In a arcs -> Inv L -> usable L a = Some v -> Inv (v :: L).

Lemma closure_fuel (n : nat) :
  forall L,
    (List.length (filter (outside L) arcs) <= n)%nat ->
    Inv L ->
    exists L', incl L L' /\ Inv L' /\
               forall a, In a arcs -> usable L' a = None.
Proof.
  induction n as [|n IH]; intros L Hn HL.
  all: destruct (find (is_usable usable L) arcs) as [a|] eqn:Efind.
  all: try (exists L; split; [apply incl_refl|split; [exact HL|]];
            intros a Ha; pose proof (find_none _ _ Efind a Ha) as Hu;
            unfold is_usable in Hu;
            destruct (usable L a); [discriminate|reflexivity]).
  all: apply find_some in Efind; destruct Efind as [Ha Hu];
       unfold is_usable in Hu;
       destruct (usable L a) as [v|] eqn:Ev; [|discriminate];
       destruct (usable_crosses L a v Ev) as [H1 H2];
       assert (Hlt : (List.length (filter (outside (v :: L)) arcs)
                      < List.length (filter (outside L) arcs))%nat)
         by (apply (filter_length_lt _ _ arcs a); auto;
             intros x; apply outside_mono).
  - lia.
  - destruct (IH (v :: L)) as [L' [Hi HL']];
      [lia|exact (usable_keeps L a v Ha HL Ev)|].
    exists L'. split; [|exact HL'].
    intros u Hu'. apply Hi. now right.
Qed.

Lemma closure L :
  Inv L ->
  exists L', incl L L' /\ Inv L' /\
             forall a, In a arcs -> usable L' a = None.
Proof. intros HL. exact (closure_fuel _ L (Nat.le_refl _) HL). Qed.

End Closure.

(** ** Integral max-flow and min-cut *)

Lemma sumZ_le {A} (f g : A -> Z) (l : list A) :
  (forall a, In a l -> (f a <= g a)%Z) -> (sumZ f l <= sumZ g l)%Z.
Proof.
  induction l as [|a l IH]; intros H; simpl; [lia|].
  assert (f a <= g a)%Z by (apply H; now left).
  assert (sumZ f l <= sumZ g l)%Z
    by (apply IH; intros b Hb; apply H; now right).
  lia.
Qed.

Lemma sumZ_const0 {A} (l : list A) : sumZ (fun _ => 0%Z) l = 0%Z.
Proof. induction l as [|a l IH]; simpl; [reflexivity|]. now rewrite IH. Qed.

Section FordFulkerson.

Local Open Scope Z_scope.

Variable arcs : list arc.
Variable C : arc -> Z.
Hypothesis arcs_unique : NoDup arcs.
Hypothesis C_nonneg : forall a, In a arcs -> 0 <= C a.

Lemma sumZ_upd_notin F a d (p : arc -> bool) (l : list arc) :
  ~ In a l -> sumZ (upd F a d) (filter p l) = sumZ F (filter p l).
Proof.
  induction l as [|b l IH]; intros Hn; simpl; [reflexivity|].
  assert (Hb : arc_eqb b a = false).
  { destruct (arc_eqb b a) eqn:E; [|reflexivity].
    apply arc_eqb_spec in E. subst. exfalso. apply Hn. now left. }
  destruct (p b); simpl.
  - unfold upd at 1. rewrite Hb, IH; [reflexivity|].
    intros H. apply Hn. now right.
  - apply IH. intros H. apply Hn. now right.
Qed.

Lemma sumZ_upd_in F a d (p : arc -> bool) (l : list arc) :
  NoDup l -> In a l ->
  sumZ (upd F a d) (filter p l)
  = sumZ F (filter p l) + (if p a then d else 0).
Proof.
  induction 1 as [|b l Hni Hnd IH]; intros Ha; [contradiction|].
  destruct Ha as [->|Ha].
  - simpl. destruct (p a) eqn:Ep; simpl.
    + rewrite (sumZ_upd_notin F a d p l Hni). unfold upd.
      replace (arc_eqb a a) with true
        by (symmetry; now apply arc_eqb_spec).
      lia.
    + rewrite (sumZ_upd_notin F a d p l Hni). lia.
  - assert (Hb : arc_eqb b a = false).
    { destruct (arc_eqb b a) eqn:E; [|reflexivity].
      apply arc_eqb_spec in E. subst. contradiction. }
    simpl. destruct (p b); simpl.
    + unfold upd at 1. rewrite Hb, (IH Ha). lia.
    + apply (IH Ha).
Qed.

Lemma excess_upd F a d w :
  In a arcs ->
  excess arcs (upd F a d) w
  = excess arcs F w + (if (w =? snd a)%string then d else 0)
               - (if (w =? fst a)%string then d else 0).
Proof.
  intros Ha. unfold excess, inZ, outZ.
  rewrite !(sumZ_upd_in F a d _ arcs arcs_unique Ha). lia.
Qed.

Lemma reached_start F : bounded arcs C F -> reached arcs C F ["s"%string].
Proof.
  intros HF. split; [now left|].
  intros v [<-|[]]. exists F. split; [exact HF|split].
  - intros a _ Hne. congruence.
  - intros w. lia.
Qed.

Lemma reached_push F L a d v u :
  reached arcs C F L -> In a arcs ->
  In u L -> ~ In v L ->
  (fst a = u /\ snd a = v /\ d = 1 /\ F a < C a) \/
  (fst a = v /\ snd a = u /\ d = -1 /\ 0 < F a) ->
  bounded arcs C F ->
  reached arcs C F (v :: L).
Proof.
  intros [Hs HL] Ha Hu Hv Hcase HF. split; [now right|].
  intros w [<-|Hw].
  - destruct (HL u Hu) as [G [HG [Hsame Hex]]].
    assert (HGa : G a = F a).
    { destruct (Z.eq_dec (G a) (F a)) as [E|E]; [exact E|].
      destruct (Hsame a Ha E) as [H1 H2].
      destruct Hcase as [[E1 [E2 _]]|[E1 [E2 _]]]; congruence. }
    exists (upd G a d). split; [|split].
    + intros b Hb. unfold upd. destruct (arc_eqb b a) eqn:E.
      * apply arc_eqb_spec in E. subst b. specialize (HF a Ha).
        destruct Hcase as [[_ [_ [-> H]]]|[_ [_ [-> H]]]]; lia.
      * apply HG. assumption.
    + intros b Hb Hne. unfold upd in Hne. destruct (arc_eqb b a) eqn:E.
      * apply arc_eqb_spec in E. subst b.
        destruct Hcase as [[E1 [E2 _]]|[E1 [E2 _]]]; rewrite E1, E2;
          split; ((now left) || (now right)).
      * destruct (Hsame b Hb Hne). split; now right.
    + intros w. rewrite (excess_upd G a d w Ha), Hex. unfold delta.
      destruct Hcase as [[E1 [E2 [-> _]]]|[E1 [E2 [-> _]]]];
        rewrite E1, E2;
        destruct (w =? u)%string; destruct (w =? v)%string; lia.
  - destruct (HL w Hw) as [G [HG [Hsame Hex]]].
    exists G. split; [exact HG|split; [|exact Hex]].
    intros b Hb Hne. destruct (Hsame b Hb Hne). split; now right.
Qed.

Lemma usable_crosses F L a v :
  usable C F L a = Some v ->
  outside L a = true /\ outside (v :: L) a = false.
Proof.
  unfold usable. destruct (fwd C F L a) eqn:Hf.
  - intros H. inversion H. subst v.
    unfold fwd in Hf. apply andb_true_iff in Hf. destruct Hf as [Hf _].
    apply andb_true_iff in Hf. destruct Hf as [Hi Ho].
    apply negb_true_iff in Ho. unfold outside.
    rewrite (memb_cons_old _ _ _ Hi), memb_cons_same, Hi, Ho. auto.
  - destruct (bwd C F L a) eqn:Hb; [|discriminate].
    intros H. inversion H. subst v.
    unfold bwd in Hb. apply andb_true_iff in Hb. destruct Hb as [Hb _].
    apply andb_true_iff in Hb. destruct Hb as [Hi Ho].
    apply negb_true_iff in Ho. unfold outside.
    rewrite (memb_cons_old _ _ _ Hi), memb_cons_same, Hi, Ho. auto.
Qed.

Lemma usable_reached F L a v :
  bounded arcs C F -> In a arcs -> reached arcs C F L ->
  usable C F L a = Some v ->
  reached arcs C F (v :: L).
Proof.
  intros HF Ha HL. unfold usable.
  destruct (fwd C F L a) eqn:Hf.
  - intros H. inversion H. subst v.
    unfold fwd in Hf. apply andb_true_iff in Hf. destruct Hf as [Hf Hlt].
    apply andb_true_iff in Hf. destruct Hf as [Hi Ho].
    apply negb_true_iff in Ho. apply Z.ltb_lt in Hlt.
    apply (reached_push F L a 1 (snd a) (fst a)); auto;
      try (now apply memb_In); try (now apply memb_not_In).
  - destruct (bwd C F L a) eqn:Hb; [|discriminate].
    intros H. inversion H. subst v.
    unfold bwd in Hb. apply andb_true_iff in Hb. destruct Hb as [Hb Hlt].
    apply andb_true_iff in Hb. destruct Hb as [Hi Ho].
    apply negb_true_iff in Ho. apply Z.ltb_lt in Hlt.
    apply (reached_push F L a (-1) (fst a) (snd a)); auto;
      try (now apply memb_In); try (now apply memb_not_In).
Qed.

(** Growing the reached set until no arc leads out of it. *)
Lemma grow F L :
  bounded arcs C F -> reached arcs C F L ->
  exists L', reached arcs C F L' /\ closed arcs C F L'.
Proof.
  intros HF HL.
  destruct (closure arcs (usable C F) (reached arcs C F) (usable_crosses F)
              (fun L a v Ha => usable_reached F L a v HF Ha) L HL)
    as [L' [_ [HL' Hcl]]].
  exists L'. split; [exact HL'|].
  intros a Ha. specialize (Hcl a Ha). unfold usable in Hcl.
  destruct (fwd C F L' a); [discriminate|].
  destruct (bwd C F L' a); [discriminate|]. auto.
Qed.

Lemma netval_bound F : bounded arcs C F -> netval arcs F <= source_cap arcs C.
Proof.
  intros HF. unfold netval, excess, source_cap, inZ, outZ.
  assert (H1 : sumZ F (filter (fun a : arc => ("s" =? fst a)%string) arcs)
               <= sumZ C (filter (fun a : arc => ("s" =? fst a)%string) arcs)).
  { apply sumZ_le. intros a Ha. apply filter_In in Ha. now apply HF. }
  assert (H2 : sumZ (fun _ => 0)
                 (filter (fun a : arc => ("s" =? snd a)%string) arcs)
               <= sumZ F (filter (fun a : arc => ("s" =? snd a)%string) arcs)).
  { apply sumZ_le. intros a Ha. apply filter_In in Ha. now apply HF. }
  rewrite sumZ_const0 in H2. lia.
Qed.

(** From a flow: one more unit, or a closed set that misses ['t']. *)
Lemma augment_or_cut F :
  is_flow arcs C F ->
  (exists G, is_flow arcs C G /\ netval arcs G = netval arcs F + 1) \/
  (exists L, In "s"%string L /\ ~ In "t"%string L /\ closed arcs C F L).
Proof.
  intros [HF Hcons].
  destruct (grow F ["s"%string] HF (reached_start F HF))
    as [L [[Hs HL] Hcl]].
  destruct (memb "t" L) eqn:Et.
  - left. apply memb_In in Et.
    destruct (HL _ Et) as [G [HG [_ Hex]]].
    exists G. split; [split; [exact HG|]|].
    + intros v Hvs Hvt. rewrite Hex, (Hcons v Hvs Hvt). unfold delta.
      apply String.eqb_neq in Hvs, Hvt. now rewrite Hvs, Hvt.
    + unfold netval. rewrite Hex. unfold delta. simpl. lia.
  - right. exists L.
    split; [exact Hs|split; [now apply memb_not_In|exact Hcl]].
Qed.

Lemma ford_fulkerson_from (n : nat) :
  forall F, is_flow arcs C F ->
    source_cap arcs C - netval arcs F <= Z.of_nat n ->
  exists F' L, is_flow arcs C F' /\ In "s"%string L /\ ~ In "t"%string L /\
               closed arcs C F' L.
Proof.
  induction n as [|n IH]; intros F HF Hn.
  - destruct (augment_or_cut F HF) as [[G [HG Hv]]|[L HL]].
    + pose proof (netval_bound G (proj1 HG)). lia.
    + exists F, L. tauto.
  - destruct (augment_or_cut F HF) as [[G [HG Hv]]|[L HL]].
    + apply (IH G HG). lia.
    + exists F, L. tauto.
Qed.

Lemma zero_flow : is_flow arcs C (fun _ => 0).
Proof.
  split.
  - intros a Ha. specialize (C_nonneg a Ha). lia.
  - intros v _ _. unfold excess, inZ, outZ. now rewrite !sumZ_const0.
Qed.

(** Max-flow/min-cut for integer capacities: a flow and a set of nodes
    holding ['s'] but not ['t'] such that every arc leaving the set is
    full and every arc entering it is empty. *)
Theorem integral_flow_and_cut :
  exists F L,
    is_flow arcs C F /\ In "s"%string L /\ ~ In "t"%string L /\
    forall a, In a arcs ->
      (In (fst a) L -> ~ In (snd a) L -> F a = C a) /\
      (In (snd a) L -> ~ In (fst a) L -> F a = 0).
Proof.
  pose proof (netval_bound _ (proj1 zero_flow)) as Hb.
  destruct (ford_fulkerson_from
              (Z.to_nat (source_cap arcs C - netval arcs (fun _ => 0)))
              (fun _ => 0) zero_flow ltac:(lia))
    as [F [L [HF [Hs [Ht Hcl]]]]].
  exists F, L. split; [exact HF|split; [exact Hs|split; [exact Ht|]]].
  intros a Ha. destruct (Hcl a Ha) as [Hf Hb'].
  pose proof (proj1 HF a Ha) as Hbd. split; intros H1 H2.
  - unfold fwd in Hf. apply memb_In in H1. apply memb_not_In in H2.
    rewrite H1, H2 in Hf. simpl in Hf. apply Z.ltb_ge in Hf. lia.
  - unfold bwd in Hb'. apply memb_In in H1. apply memb_not_In in H2.
    rewrite H1, H2 in Hb'. simpl in Hb'. apply Z.ltb_ge in Hb'. lia.
Qed.

End FordFulkerson.

(** ** Rational capacities *)

Lemma common_den_divides c arcs a :
  In a arcs ->
  exists k, (Zpos (common_den c arcs) = k * Zpos (Qden (c a)))%Z.
Proof.
  induction arcs as [|b l IH]; simpl; [contradiction|].
  intros [->|Ha].
  - exists (Zpos (common_den c l)). rewrite Pos2Z.inj_mul. ring.
  - destruct (IH Ha) as [k Hk].
    exists (Zpos (Qden (c b)) * k)%Z. rewrite Pos2Z.inj_mul, Hk. ring.
Qed.

Lemma scaled_spec c arcs a :
  In a arcs -> (scaled c arcs a # common_den c arcs) == c a.
Proof.
  intros Ha. destruct (common_den_divides c arcs a Ha) as [k Hk].
  unfold scaled. rewrite Hk.
  replace (Qnum (c a) * (k * Zpos (Qden (c a))))%Z
    with (Qnum (c a) * k * Zpos (Qden (c a)))%Z by ring.
  rewrite Z.div_mul by discriminate.
  unfold Qeq. simpl. rewrite Hk. ring.
Qed.

Lemma Qmake_le (x y : Z) (d : positive) :
  (x <= y)%Z -> (x # d) <= (y # d).
Proof.
  intros H. unfold Qle. simpl. apply Z.mul_le_mono_nonneg_r; [lia|exact H].
Qed.

Lemma sumQ_Qmake {A} (F : A -> Z) (d : positive) (l : list A) :
  sumQ (fun a => F a # d) l == (sumZ F l # d).
Proof.
  induction l as [|a l IH].
  - unfold Qeq. simpl. reflexivity.
  - change (sumQ (fun a => F a # d) (a :: l))
      with ((F a # d) + sumQ (fun a => F a # d) l).
    rewrite IH. simpl sumZ. unfold Qeq, Qplus. simpl.
    rewrite Pos2Z.inj_mul. ring.
Qed.

(** Max-flow/min-cut for rational capacities, in combinatorial form. *)
Theorem rational_flow_and_cut (arcs : list arc) (c : arc -> Q) :
  NoDup arcs ->
  (forall a, In a arcs -> 0 <= c a) ->
  exists (f : arc -> Q) (L : list node),
    (forall a, In a arcs -> 0 <= f a <= c a) /\
    (forall v, interior v = true -> outflow f arcs v == inflow f arcs v) /\
    In "s" L /\ ~ In "t" L /\
    forall a, In a arcs ->
      (In (fst a) L -> ~ In (snd a) L -> f a == c a) /\
      (In (snd a) L -> ~ In (fst a) L -> f a == 0).
Proof.
  intros Hnd Hc.
  set (d := common_den c arcs).
  assert (Hz : forall a, In a arcs -> (0 <= scaled c arcs a)%Z).
  { intros a Ha. pose proof (scaled_spec c arcs a Ha) as E.
    specialize (Hc a Ha). rewrite <- E in Hc.
    unfold Qle in Hc. simpl in Hc. lia. }
  destruct (integral_flow_and_cut arcs (scaled c arcs) Hnd Hz)
    as [F [L [[HF Hcons] [Hs [Ht Hsat]]]]].
  exists (fun a => F a # d), L.
  split; [|split; [|split; [exact Hs|split; [exact Ht|]]]].
  - intros a Ha. specialize (HF a Ha). split.
    + unfold Qle. simpl. lia.
    + rewrite <- (scaled_spec c arcs a Ha). apply Qmake_le. lia.
  - intros v Hv. unfold outflow, inflow. rewrite !sumQ_Qmake.
    assert (Hv' : v <> "s" /\ v <> "t").
    { unfold interior, is_s, is_t in Hv.
      apply negb_true_iff, orb_false_iff in Hv.
      destruct Hv as [H1 H2]. apply String.eqb_neq in H1, H2. auto. }
    specialize (Hcons v (proj1 Hv') (proj2 Hv')).
    unfold excess, inZ, outZ in Hcons.
    replace (sumZ F (filter (fun a : arc => (v =? fst a)%string) arcs))
      with (sumZ F (filter (fun a : arc => (v =? snd a)%string) arcs)) by lia.
    reflexivity.
  - intros a Ha. destruct (Hsat a Ha) as [H1 H2]. split; intros Hi Ho.
    + rewrite (H1 Hi Ho). apply scaled_spec. exact Ha.
    + rewrite (H2 Hi Ho). reflexivity.
Qed.

(** ** Reachability *)

(** A set that holds ['s'] and that no arc of [E] leaves holds every node
    reachable from ['s']. *)
Lemma path_stays (E : arc -> Prop) (L : list node) :
  (forall a, E a -> In (fst a) L -> In (snd a) L) ->
  forall u w, path E u w -> In u L -> In w L.
Proof.
  intros Hcl u w Hp. induction Hp as [u|u v w _ IH Hvw]; intros Hu.
  - exact Hu.
  - apply (Hcl (v, w) Hvw). simpl. now apply IH.
Qed.

Section Reachability.

Variable arcs : list arc.

(** The nodes reachable from ['s']. *)
Lemma reachable_set :
  exists L, all_reachable arcs L /\
            forall a, In a arcs -> In (fst a) L -> In (snd a) L.
Proof.
  destruct (closure arcs reach_step (all_reachable arcs)) with (L := ["s"])
    as [L [_ [HL Hcl]]].
  - intros L a v. unfold reach_step.
    destruct (memb (fst a) L) eqn:E1; [|discriminate].
    destruct (memb (snd a) L) eqn:E2; [discriminate|]. simpl.
    intros H. inversion H. subst v. unfold outside.
    now rewrite (memb_cons_old _ _ _ E1), memb_cons_same, E1, E2.
  - intros L a v Ha [Hs HL]. unfold reach_step.
    destruct (memb (fst a) L) eqn:E1; [|discriminate].
    destruct (memb (snd a) L) eqn:E2; [discriminate|]. simpl.
    intros H. inversion H. subst v. split; [now right|].
    intros w [<-|Hw]; [|now apply HL].
    apply (path_step _ "s" (fst a) (snd a)).
    + apply HL. now apply memb_In.
    + now destruct a.
  - split; [now left|]. intros v [<-|[]]. constructor.
  - exists L. split; [exact HL|].
    intros a Ha Hi. specialize (Hcl a Ha). unfold reach_step in Hcl.
    apply memb_In in Hi. rewrite Hi in Hcl.
    destruct (memb (snd a) L) eqn:E; [now apply memb_In|discriminate].
Qed.

End Reachability.

(** ** Strong duality of the two models *)

Lemma pot_indicator L v :
  In "s" L -> ~ In "t" L -> pot (indicator L) v = indicator L v.
Proof.
  intros Hs Ht. unfold pot, indicator, is_s, is_t.
  destruct (String.eqb_spec v "s") as [->|_].
  - apply memb_In in Hs. now rewrite Hs.
  - destruct (String.eqb_spec v "t") as [->|_]; [|reflexivity].
    apply memb_not_In in Ht. now rewrite Ht.
Qed.

Section StrongDuality.

Variables (nodes : list node) (arcs : list arc) (capacity : list (arc * Q)).
Variables (mf mc : Model).
Hypothesis arcs_unique : NoDup arcs.
Hypothesis nodes_plain : ~ In "*" nodes.
Hypothesis capacity_nonneg : forall a, In a arcs -> 0 <= cap capacity a.
Hypothesis flow_built : max_flow_model nodes arcs capacity = Ok mf.
Hypothesis cut_built : min_cut_model nodes arcs capacity = Ok mc.

Variables (f : arc -> Q) (L : list node).
Hypothesis f_bounds : forall a, In a arcs -> 0 <= f a <= cap capacity a.
Hypothesis f_conserved :
  forall v, interior v = true -> outflow f arcs v == inflow f arcs v.
Hypothesis s_in : In "s" L.
Hypothesis t_out : ~ In "t" L.
Hypothesis saturated : forall a, In a arcs ->
  (In (fst a) L -> ~ In (snd a) L -> f a == cap capacity a) /\
  (In (snd a) L -> ~ In (fst a) L -> f a == 0).

Lemma primal_dual_flow_feasible : feasible mf (primal_dual f L).
Proof.
  apply (max_flow_feasible_plain _ _ _ _ _ flow_built arcs_unique
           (built_no_star nodes arcs capacity mc nodes_plain cut_built)
           nodes_plain).
  split.
  - intros a Ha. apply (f_bounds a Ha).
  - intros j _ Hj. apply (f_conserved j Hj).
Qed.

Lemma primal_dual_cut_feasible : feasible mc (primal_dual f L).
Proof.
  apply (min_cut_feasible _ _ _ _ _ cut_built).
  split; [|split].
  - intros a _. unfold rm, primal_dual. destruct (crossing L a); lra.
  - intros j _ _. unfold cn, primal_dual, indicator.
    destruct (memb j L); lra.
  - intros a Ha.
    apply (cut_holds_pot nodes _ a
             (built_shape nodes arcs capacity mc cut_built a Ha)).
    change (cn (primal_dual f L)) with (indicator L).
    rewrite !(pot_indicator L _ s_in t_out).
    unfold rm, primal_dual, crossing, indicator.
    destruct (memb (fst a) L); destruct (memb (snd a) L); simpl; lra.
Qed.

Lemma primal_dual_same_value :
  objval mf (primal_dual f L) == objval mc (primal_dual f L).
Proof.
  rewrite (max_flow_objval_out _ _ _ _ _ flow_built).
  rewrite (min_cut_objval _ _ _ _ _ cut_built).
  change (fl (primal_dual f L)) with f.
  rewrite (flow_value_pot nodes arcs f (indicator L)
             (built_shape nodes arcs capacity mc cut_built)).
  - apply sumQ_ext. intros a Ha.
    destruct (saturated a Ha) as [H1 H2].
    unfold rm, primal_dual, crossing, indicator.
    destruct (memb (fst a) L) eqn:E1; destruct (memb (snd a) L) eqn:E2;
      simpl.
    + ring.
    + rewrite H1; [ring|now apply memb_In|now apply memb_not_In].
    + rewrite H2; [ring|now apply memb_In|now apply memb_not_In].
    + ring.
  - intros j _ Hj. apply (f_conserved j Hj).
  - unfold indicator. apply memb_In in s_in. now rewrite s_in.
  - unfold indicator. apply memb_not_In in t_out. now rewrite t_out.
Qed.

Lemma primal_dual_flow_optimal : optimal mf (primal_dual f L).
Proof.
  split; [exact primal_dual_flow_feasible|].
  intros y Hy. rewrite (max_flow_sense _ _ _ _ flow_built). simpl.
  rewrite primal_dual_same_value.
  apply (weak_duality_models nodes arcs capacity mf mc arcs_unique
           nodes_plain flow_built cut_built y _ Hy primal_dual_cut_feasible).
Qed.

Lemma primal_dual_cut_optimal : optimal mc (primal_dual f L).
Proof.
  split; [exact primal_dual_cut_feasible|].
  intros y Hy. rewrite (min_cut_sense _ _ _ _ cut_built). simpl.
  rewrite <- primal_dual_same_value.
  apply (weak_duality_models nodes arcs capacity mf mc arcs_unique
           nodes_plain flow_built cut_built _ y primal_dual_flow_feasible Hy).
Qed.

End StrongDuality.

(** Where both models are built, one assignment is optimal for both, has
    the same objective value in both, and is 0/1 on [remove] and
    [connect]: the indicator of a node set [L] that holds ['s'] and not
    ['t'], and of the arcs leaving it. *)
Theorem strong_duality_models nodes arcs capacity mf mc :
  NoDup arcs -> ~ In "*" nodes ->
  (forall a, In a arcs -> 0 <= cap capacity a) ->
  max_flow_model nodes arcs capacity = Ok mf ->
  min_cut_model nodes arcs capacity = Ok mc ->
  exists (f : arc -> Q) (L : list node),
    In "s" L /\ ~ In "t" L /\
    optimal mf (primal_dual f L) /\
    optimal mc (primal_dual f L) /\
    objval mf (primal_dual f L) == objval mc (primal_dual f L).
Proof.
  intros Hnd Hw Hc Hmf Hmc.
  destruct (rational_flow_and_cut arcs (cap capacity) Hnd Hc)
    as [f [L [Hb [Hcons [Hs [Ht Hsat]]]]]].
  exists f, L. split; [exact Hs|split; [exact Ht|]].
  split; [|split].
  - now apply (primal_dual_flow_optimal nodes arcs capacity mf mc).
  - now apply (primal_dual_cut_optimal nodes arcs capacity mf mc).
  - now apply (primal_dual_same_value nodes arcs capacity mf mc).
Qed.

(** The cut model alone: whenever [min_cut] builds its model and no
    coefficient is negative, the indicator of a node set [L] that holds
    ['s'] and not ['t'], and of the arcs leaving it, is an optimal
    solution.  The flow that certifies it is not a solution of any
    model here, only a flow on the arcs. *)
Theorem cut_model_integral_optimum nodes arcs capacity mc :
  (forall a, In a arcs -> 0 <= cap capacity a) ->
  min_cut_model nodes arcs capacity = Ok mc ->
  exists (f : arc -> Q) (L : list node),
    In "s" L /\ ~ In "t" L /\ optimal mc (primal_dual f L).
Proof.
  intros Hc Hmc.
  destruct (min_cut_model_keys_distinct _ _ _ _ Hmc) as [Hnd _].
  pose proof (built_shape nodes arcs capacity mc Hmc) as Hs.
  destruct (rational_flow_and_cut arcs (cap capacity) Hnd Hc)
    as [f [L [Hb [Hcons [HsL [HtL Hsat]]]]]].
  exists f, L. split; [exact HsL|split; [exact HtL|]].
  assert (Cs : forall v, In v (support arcs) -> interior v = true ->
                         outflow f arcs v == inflow f arcs v)
    by (intros v _ Hv; now apply Hcons).
  assert (V : objval mc (primal_dual f L)
              == outflow f arcs "s" - inflow f arcs "s").
  { rewrite (min_cut_objval _ _ _ _ _ Hmc).
    rewrite <- (potential_value arcs f (indicator L)); [|  | |exact Cs].
    - apply sumQ_ext. intros a Ha.
      destruct (Hsat a Ha) as [H1 H2].
      unfold rm, primal_dual, crossing, indicator.
      destruct (memb (fst a) L) eqn:E1; destruct (memb (snd a) L) eqn:E2;
        simpl.
      + ring.
      + rewrite H1; [ring|now apply memb_In|now apply memb_not_In].
      + rewrite H2; [ring|now apply memb_In|now apply memb_not_In].
      + ring.
    - unfold indicator. apply memb_In in HsL. now rewrite HsL.
    - unfold indicator. apply memb_not_In in HtL. now rewrite HtL. }
  split; [exact (primal_dual_cut_feasible nodes arcs capacity mc Hmc f L
                   HsL HtL)|].
  intros y Hy. rewrite (min_cut_sense _ _ _ _ Hmc). simpl. rewrite V.
  apply (min_cut_feasible _ _ _ _ y Hmc) in Hy.
  destruct Hy as [Hr [_ Hrow]].
  rewrite (min_cut_objval _ _ _ _ y Hmc).
  rewrite <- (potential_value arcs f (pot (cn y)));
    [|reflexivity|reflexivity|exact Cs].
  apply sumQ_le. intros a Ha.
  pose proof (Hb a Ha) as [H0 H1]. pose proof (Hr a Ha) as H2.
  pose proof (proj1 (cut_holds_pot nodes y a (Hs a Ha)) (Hrow a Ha)) as H3.
  nra.
Qed.

(** ** Valid networks *)

Lemma valid_networkb_sound nodes arcs capacity source sink :
  valid_networkb nodes arcs capacity source sink = true ->
  valid_network nodes arcs capacity source sink.
Proof.
  unfold valid_networkb. rewrite !andb_true_iff.
  intros [[[[[H1 H2] H3] H4] H5] H6].
  rewrite forallb_forall in H3.
  assert (Ha : forall a, In a arcs ->
            (In (fst a) nodes /\ In (snd a) nodes) /\ fst a <> snd a /\
            has_key capacity a /\ 0 <= cap capacity a).
  { intros a Hin. specialize (H3 a Hin). unfold arc_ok in H3.
    rewrite !andb_true_iff in H3. destruct H3 as [[[E1 E2] E3] E4].
    apply memb_In in E1, E2. apply negb_true_iff, String.eqb_neq in E3.
    unfold has_key, cap.
    destruct (dict_get arc_eqb capacity a) as [c|]; [|discriminate].
    apply Qle_bool_iff in E4. repeat split; eauto. }
  constructor.
  - now apply (nodupb_sound String.eqb string_eqb_spec).
  - now apply (nodupb_sound arc_eqb arc_eqb_spec).
  - intros a Hin. apply (Ha a Hin).
  - intros a Hin. apply (Ha a Hin).
  - intros a Hin. apply (Ha a Hin).
  - now apply memb_In.
  - now apply memb_In.
  - now apply negb_true_iff, String.eqb_neq in H6.
Qed.

(** On a network whose source has no entering arc, whose sink has no
    leaving arc, and without a direct arc, [min_cut] finds every
    [connect] variable it looks up. *)
Lemma pure_shape nodes arcs :
  (forall a, In a arcs -> In (fst a) nodes /\ In (snd a) nodes) ->
  source_pure arcs -> sink_pure arcs -> no_direct_arc arcs ->
  forall a, In a arcs -> cut_shape nodes a = true.
Proof.
  unfold source_pure, sink_pure, no_direct_arc.
  intros Hends Hs Ht Hd a Ha.
  rewrite forallb_forall in Hs, Ht.
  specialize (Hs a Ha). specialize (Ht a Ha).
  apply negb_true_iff in Hs, Ht.
  destruct (Hends a Ha) as [Hi Hj].
  assert (Hconn : forall v, In v nodes -> is_s v = false -> is_t v = false ->
                            has_connect nodes v = true).
  { intros v Hv E1 E2. apply has_connect_iff. split; [exact Hv|].
    unfold interior. now rewrite E1, E2. }
  unfold cut_shape.
  destruct (is_s (fst a)) eqn:E1.
  - apply Hconn; auto.
    destruct (is_t (snd a)) eqn:E2; [|reflexivity].
    exfalso. apply String.eqb_eq in E1, E2.
    assert (In ("s", "t") arcs) by (destruct a; simpl in *; now subst).
    apply (existsb_eqb_In arc_eqb arc_eqb_spec) in H. congruence.
  - destruct (is_t (snd a)) eqn:E2.
    + apply Hconn; auto.
    + apply andb_true_iff. split; apply Hconn; auto.
Qed.

Lemma both_built nodes arcs capacity :
  valid_network nodes arcs capacity "s" "t" ->
  source_pure arcs -> sink_pure arcs -> no_direct_arc arcs ->
  exists mf mc,
    max_flow_model nodes arcs capacity = Ok mf /\
    min_cut_model nodes arcs capacity = Ok mc.
Proof.
  intros Hv Hs Ht Hd.
  assert (Hk : forall a, In a arcs -> has_key capacity a)
    by (intros a Ha; apply (vn_capacity _ _ _ _ _ Hv a Ha)).
  pose proof (vn_arcs _ _ _ _ _ Hv) as Hda.
  pose proof (NoDup_filter interior (vn_nodes _ _ _ _ _ Hv)) as Hdn.
  destruct (proj1 (max_flow_model_built nodes arcs capacity) (conj Hda Hk))
    as [mf Hmf].
  destruct (proj1 (min_cut_model_built nodes arcs capacity)
              (conj Hda (conj Hdn
                 (pure_shape nodes arcs (vn_ends _ _ _ _ _ Hv) Hs Ht Hd))))
    as [mc Hmc].
  eauto.
Qed.

(** ** The two optima *)

Lemma no_wildcard_In nodes : no_wildcard nodes -> ~ In "*" nodes.
Proof. apply memb_not_In. Qed.

Lemma selected_primal_dual f L a :
  selected (primal_dual f L) a = crossing L a.
Proof.
  unfold selected, rm, primal_dual. destruct (crossing L a); reflexivity.
Qed.

Lemma crossing_separates arcs f L :
  In "s" L -> ~ In "t" L ->
  separates arcs (selected (primal_dual f L)) "s" "t".
Proof.
  intros Hs Ht Hp. apply Ht.
  apply (path_stays _ L) with (3 := Hs) in Hp; [exact Hp|].
  intros a [_ Hsel] Hi. rewrite selected_primal_dual in Hsel.
  unfold crossing in Hsel. apply memb_In in Hi. rewrite Hi in Hsel.
  simpl in Hsel. apply negb_false_iff in Hsel. now apply memb_In.
Qed.

Lemma crossing_capacity nodes arcs capacity mc f L :
  min_cut_model nodes arcs capacity = Ok mc ->
  sumQ (cap capacity) (filter (selected (primal_dual f L)) arcs)
  == objval mc (primal_dual f L).
Proof.
  intros Hmc. rewrite (min_cut_objval _ _ _ _ _ Hmc), sumQ_filter.
  apply sumQ_ext. intros a _. rewrite selected_primal_dual.
  unfold rm, primal_dual. destruct (crossing L a); ring.
Qed.


(** C2, as amended: on every valid network whose source is named ['s']
    and whose sink is named ['t'], in which no arc enters ['s'], no arc
    leaves ['t'] and no arc joins ['s'] to ['t'] directly, the model of
    [min_cut], whose variables are all continuous, has an optimal
    solution with every [r] and [z] equal to 0 or 1; the arcs with
    [r > 0.5] in that solution disconnect ['t'] from ['s'], and their
    capacities add up to the optimal value. *)
Theorem min_cut_integral_optimum nodes arcs capacity :
  valid_network nodes arcs capacity "s" "t" ->
  source_pure arcs -> sink_pure arcs -> no_direct_arc arcs ->
  integral_optimum nodes arcs capacity "s" "t".
Proof.
  intros Hv Hs Ht Hd.
  destruct (both_built nodes arcs capacity Hv Hs Ht Hd) as [_ [mc [_ Hmc]]].
  destruct (cut_model_integral_optimum nodes arcs capacity mc
              (fun a Ha => proj2 (vn_capacity _ _ _ _ _ Hv a Ha)) Hmc)
    as [f [L [HsL [HtL Oc]]]].
  exists mc, (primal_dual f L).
  split; [exact Hmc|split; [exact Oc|split; [|split; [|split]]]].
  - intros a. unfold rm, primal_dual.
    destruct (crossing L a); [right|left]; reflexivity.
  - intros j. unfold cn, primal_dual, indicator.
    destruct (memb j L); [right|left]; reflexivity.
  - now apply crossing_separates.
  - now apply (crossing_capacity nodes).
Qed.

(** ** Concrete solutions *)

Lemma forallb_Forall {A} (p : A -> bool) (P : A -> Prop) (l : list A) :
  (forall a, p a = true -> P a) -> forallb p l = true -> Forall P l.
Proof.
  intros H. induction l as [|a l IH]; simpl; intros E; constructor.
  - apply H. apply andb_true_iff in E. tauto.
  - apply IH. apply andb_true_iff in E. tauto.
Qed.

Lemma feasibleb_sound m x : feasibleb m x = true -> feasible m x.
Proof.
  unfold feasibleb, feasible. intros H. apply andb_true_iff in H.
  destruct H as [Hb Hc]. split.
  - apply (forallb_Forall (in_boundsb x)); [|exact Hb].
    intros d E. unfold in_boundsb in E. apply andb_true_iff in E.
    destruct E as [E1 E2]. split; [now apply Qle_bool_iff|].
    destruct (vub d); [now apply Qle_bool_iff|exact I].
  - apply (forallb_Forall (holdsb x)); [|exact Hc].
    intros c E. unfold holdsb, holds in *.
    destruct (cmp c); [now apply Qle_bool_iff|now apply Qle_bool_iff|
                       now apply Qeq_bool_iff].
Qed.

Lemma selected_true x a : 0.5 < rm x a -> selected x a = true.
Proof.
  intros H. unfold selected, Qlt_bool. apply negb_true_iff.
  destruct (Qle_bool (rm x a) 0.5) eqn:E; [|reflexivity].
  apply Qle_bool_iff in E. lra.
Qed.

Lemma selected_false x a : rm x a <= 0.5 -> selected x a = false.
Proof.
  intros H. unfold selected, Qlt_bool. apply negb_false_iff.
  now apply Qle_bool_iff.
Qed.

Lemma notebook_flow180_feasible :
  exists mf,
    max_flow_model Notebook.nodes Notebook.arcs Notebook.capacity = Ok mf /\
    feasible mf Scenario1.flow180 /\ objval mf Scenario1.flow180 == 180.
Proof.
  eexists. split; [vm_compute; reflexivity|]. split.
  - apply feasibleb_sound. vm_compute. reflexivity.
  - vm_compute. reflexivity.
Qed.

Lemma notebook_cut180_feasible :
  exists mc,
    min_cut_model Notebook.nodes Notebook.arcs Notebook.capacity = Ok mc /\
    feasible mc Scenario1.cut180 /\ objval mc Scenario1.cut180 == 180.
Proof.
  eexists. split; [vm_compute; reflexivity|]. split.
  - apply feasibleb_sound. vm_compute. reflexivity.
  - vm_compute. reflexivity.
Qed.

Lemma notebook_arcs_unique : NoDup Notebook.arcs.
Proof. apply (nodupb_sound arc_eqb arc_eqb_spec). reflexivity. Qed.

Lemma notebook_nodes_unique : NoDup Notebook.nodes.
Proof. apply (nodupb_sound String.eqb string_eqb_spec). reflexivity. Qed.

Lemma notebook_nodes_plain : ~ In "*" Notebook.nodes.
Proof. apply memb_not_In. reflexivity. Qed.

(** Every solution of the cut model that costs at most 180 removes
    exactly the arcs (A,C) and (D,t). *)
Lemma notebook_cheap_cut_is_unique mc x :
  min_cut_model Notebook.nodes Notebook.arcs Notebook.capacity = Ok mc ->
  feasible mc x -> objval mc x <= 180 ->
  filter (selected x) Notebook.arcs = [("A", "C"); ("D", "t")].
Proof.
  intros Hm Hx Hv.
  rewrite (min_cut_objval _ _ _ _ x Hm) in Hv.
  apply (min_cut_feasible _ _ _ _ x Hm) in Hx. destruct Hx as [Hr [_ Hrow]].
  assert (R := fun a H => conj (Hr a H) (Hrow a H)).
  pose proof (R ("s", "A") ltac:(simpl; tauto)) as [p1 q1].
  pose proof (R ("s", "B") ltac:(simpl; tauto)) as [p2 q2].
  pose proof (R ("A", "B") ltac:(simpl; tauto)) as [p3 q3].
  pose proof (R ("A", "C") ltac:(simpl; tauto)) as [p4 q4].
  pose proof (R ("B", "D") ltac:(simpl; tauto)) as [p5 q5].
  pose proof (R ("C", "D") ltac:(simpl; tauto)) as [p6 q6].
  pose proof (R ("C", "t") ltac:(simpl; tauto)) as [p7 q7].
  pose proof (R ("D", "t") ltac:(simpl; tauto)) as [p8 q8].
  clear R Hr Hrow.
  unfold cut_holds in *. cbn [fst snd] in *.
  change (is_s "s") with true in *. change (is_s "A") with false in *.
  change (is_s "B") with false in *. change (is_s "C") with false in *.
  change (is_s "D") with false in *. change (is_t "t") with true in *.
  change (is_t "B") with false in *. change (is_t "C") with false in *.
  change (is_t "D") with false in *. cbv iota in *.
  unfold Notebook.arcs, keys, Notebook.capacity in Hv.
  cbn [map fst sumQ fold_right] in Hv.
  change (cap _ ("s", "A")) with 100 in Hv.
  change (cap _ ("s", "B")) with 150 in Hv.
  change (cap _ ("A", "B")) with 120 in Hv.
  change (cap _ ("A", "C")) with 90 in Hv.
  change (cap _ ("B", "D")) with 110 in Hv.
  change (cap _ ("C", "D")) with 120 in Hv.
  change (cap _ ("C", "t")) with 140 in Hv.
  change (cap _ ("D", "t")) with 90 in Hv.
  unfold Notebook.arcs, keys, Notebook.capacity. cbn [map fst filter].
  rewrite (selected_false x ("s", "A")) by lra.
  rewrite (selected_false x ("s", "B")) by lra.
  rewrite (selected_false x ("A", "B")) by lra.
  rewrite (selected_true x ("A", "C")) by lra.
  rewrite (selected_false x ("B", "D")) by lra.
  rewrite (selected_false x ("C", "D")) by lra.
  rewrite (selected_false x ("C", "t")) by lra.
  rewrite (selected_true x ("D", "t")) by lra.
  reflexivity.
Qed.

(** C3: on the notebook's network both models are built; the max-flow
    model has optimal value 180; the min-cut model has optimal value 180;
    in every optimal solution of the min-cut model the arcs with
    [r > 0.5] are exactly (A,C) and (D,t), so with a solver that returns
    an optimal solution [min_cut] prints exactly these two arcs with
    their capacities. *)
Theorem notebook_scenario :
  exists mf mc,
    max_flow_model Notebook.nodes Notebook.arcs Notebook.capacity = Ok mf /\
    min_cut_model Notebook.nodes Notebook.arcs Notebook.capacity = Ok mc /\
    optimal_value mf 180 /\
    optimal_value mc 180 /\
    (forall x, optimal mc x ->
       filter (selected x) Notebook.arcs = [("A", "C"); ("D", "t")]) /\
    (forall optimize : solver,
       status (optimize mc) = OPTIMAL ->
       optimal mc (X (optimize mc)) ->
       min_cut optimize Notebook.nodes Notebook.arcs Notebook.capacity
       = Returned [ Title (newline ++ "Optimal cuts");
                    ArcLine "A" "C" 90; ArcLine "D" "t" 90 ]).
Proof.
  destruct notebook_flow180_feasible as [mf [Hmf [Ff Vf]]].
  destruct notebook_cut180_feasible as [mc [Hmc [Fc Vc]]].
  pose proof (weak_duality_models _ _ _ mf mc notebook_arcs_unique
                notebook_nodes_plain Hmf Hmc) as WD.
  assert (Oc : optimal mc Scenario1.cut180).
  { split; [exact Fc|]. intros y Hy.
    rewrite (min_cut_sense _ _ _ _ Hmc). simpl.
    rewrite Vc, <- Vf. now apply WD. }
  assert (Uniq : forall x, optimal mc x ->
            filter (selected x) Notebook.arcs = [("A", "C"); ("D", "t")]).
  { intros x [Fx Ox]. apply (notebook_cheap_cut_is_unique mc x Hmc Fx).
    specialize (Ox _ Fc). rewrite (min_cut_sense _ _ _ _ Hmc) in Ox.
    simpl in Ox. now rewrite <- Vc. }
  exists mf, mc. split; [exact Hmf|split; [exact Hmc|]].
  split; [|split; [|split]].
  - exists Scenario1.flow180. split; [|exact Vf].
    split; [exact Ff|]. intros y Hy.
    rewrite (max_flow_sense _ _ _ _ Hmf). simpl.
    rewrite Vf, <- Vc. now apply WD.
  - exists Scenario1.cut180. split; [exact Oc|exact Vc].
  - exact Uniq.
  - intros optimize Hst Hopt. unfold min_cut. rewrite Hmc. cbv zeta.
    rewrite Hst.
    change (filter (fun a => Qlt_bool 0.5 (X (optimize mc) (Vremove a)))
                   Notebook.arcs)
      with (filter (selected (X (optimize mc))) Notebook.arcs).
    rewrite (Uniq _ Hopt). reflexivity.
Qed.

(** ** An unreachable sink *)

Lemma unreachable_no_direct arcs :
  unreachable arcs "s" "t" -> no_direct_arc arcs.
Proof.
  intros Hu. unfold no_direct_arc.
  destruct (existsb _ arcs) eqn:E; [|reflexivity].
  exfalso. apply Hu.
  apply (existsb_eqb_In arc_eqb arc_eqb_spec) in E.
  apply (path_step _ "s" "s" "t"); [constructor|exact E].
Qed.

Lemma outflow_zero arcs v : outflow (fun _ => 0) arcs v == 0.
Proof. unfold outflow. apply sumQ_zero. reflexivity. Qed.

Lemma inflow_zero arcs v : inflow (fun _ => 0) arcs v == 0.
Proof. unfold inflow. apply sumQ_zero. reflexivity. Qed.

(** C5, as amended: on every valid network with source ['s'] and sink
    ['t'] in which no node is named ["*"], no arc enters ['s'], no arc
    leaves ['t'] and no path of arcs leads from ['s'] to ['t'], both
    models are built, the max-flow model has optimal value 0 and the
    min-cut model has optimal value 0. *)
Theorem unreachable_sink_zero nodes arcs capacity :
  valid_network nodes arcs capacity "s" "t" ->
  no_wildcard nodes ->
  source_pure arcs -> sink_pure arcs ->
  unreachable arcs "s" "t" ->
  both_zero nodes arcs capacity.
Proof.
  intros Hv Hw Hs Ht Hu.
  pose proof (unreachable_no_direct arcs Hu) as Hd.
  destruct (both_built nodes arcs capacity Hv Hs Ht Hd) as [mf [mc [Hmf Hmc]]].
  destruct (reachable_set arcs) as [L [[HsL Hreach] Hclosed]].
  assert (HtL : ~ In "t" L) by (intros H; apply Hu; now apply Hreach).
  set (f := fun _ : arc => 0).
  assert (Hb : forall a, In a arcs -> 0 <= f a <= cap capacity a).
  { intros a Ha. pose proof (proj2 (vn_capacity _ _ _ _ _ Hv a Ha)).
    unfold f. lra. }
  assert (Hc : forall v, interior v = true ->
                         outflow f arcs v == inflow f arcs v).
  { intros v _. unfold f. now rewrite outflow_zero, inflow_zero. }
  assert (Hsat : forall a, In a arcs ->
            (In (fst a) L -> ~ In (snd a) L -> f a == cap capacity a) /\
            (In (snd a) L -> ~ In (fst a) L -> f a == 0)).
  { intros a Ha. split; intros H1 H2.
    - exfalso. apply H2. now apply Hclosed.
    - reflexivity. }
  pose proof (vn_arcs _ _ _ _ _ Hv) as Hnd.
  pose proof (no_wildcard_In _ Hw) as Hw'.
  pose proof (primal_dual_flow_optimal nodes arcs capacity mf mc Hnd Hw'
                Hmf Hmc f L Hb Hc HsL HtL Hsat) as Of.
  pose proof (primal_dual_cut_optimal nodes arcs capacity mf mc Hnd Hw'
                Hmf Hmc f L Hb Hc HsL HtL Hsat) as Oc.
  pose proof (primal_dual_same_value nodes arcs capacity mf mc Hmf Hmc f L
                Hc HsL HtL Hsat) as E.
  assert (V : objval mf (primal_dual f L) == 0).
  { rewrite (max_flow_objval_out _ _ _ _ _ Hmf).
    change (fl (primal_dual f L)) with f. apply outflow_zero. }
  exists mf, mc. split; [exact Hmf|split; [exact Hmc|split]].
  - exists (primal_dual f L). split; [exact Of|exact V].
  - exists (primal_dual f L). split; [exact Oc|]. now rewrite <- E.
Qed.

(** ** The flow that [max_flow] reads back *)

Lemma sumQ_member_le {A} (f : A -> Q) (l : list A) (a : A) :
  (forall b, In b l -> 0 <= f b) -> In a l -> f a <= sumQ f l.
Proof.
  induction l as [|b l IH]; intros H0 Ha; [contradiction|].
  change (sumQ f (b :: l)) with (f b + sumQ f l).
  assert (0 <= sumQ f l)
    by (apply sumQ_nonneg; intros c Hc; apply H0; now right).
  destruct Ha as [->|Ha].
  - lra.
  - assert (f a <= sumQ f l)
      by (apply IH; [intros c Hc; apply H0; now right|exact Ha]).
    assert (0 <= f b) by (apply H0; now left). lra.
Qed.

Lemma pattern_self a : pattern (fst a) (snd a) a = true.
Proof.
  unfold pattern, pmatch. rewrite !String.eqb_refl, !orb_true_r. reflexivity.
Qed.

Lemma flow_bounds_and_conservation nodes arcs capacity m x :
  max_flow_model nodes arcs capacity = Ok m ->
  feasible m x ->
  (forall a, In a arcs -> 0 <= fl x a <= cap capacity a) /\
  (forall j, In j nodes -> j <> "s" -> j <> "t" -> j <> "*" ->
             inflow (fl x) arcs j == outflow (fl x) arcs j).
Proof.
  intros Hm Hx. apply (max_flow_feasible _ _ _ _ x Hm) in Hx.
  destruct Hx as [H0 [Hc Hj]]. split.
  - intros a Ha. split; [now apply H0|].
    apply Qle_trans with (psum x arcs (fst a) (snd a)); [|now apply Hc].
    unfold psum. apply sumQ_member_le.
    + intros b Hb. apply filter_In in Hb. now apply H0.
    + apply filter_In. split; [exact Ha|apply pattern_self].
  - intros j Hin Hs Ht Hw.
    assert (Hi : interior j = true).
    { unfold interior, is_s, is_t.
      apply String.eqb_neq in Hs, Ht. now rewrite Hs, Ht. }
    specialize (Hj j Hin Hi). rewrite psum_out, psum_in in Hj by assumption.
    now symmetry.
Qed.

Lemma Qlt_bool_lt (x y : Q) : Qlt_bool x y = true -> x < y.
Proof.
  unfold Qlt_bool. intros H. apply negb_true_iff in H.
  destruct (Qlt_le_dec x y) as [L|L]; [exact L|].
  apply Qle_bool_iff in L. congruence.
Qed.

Lemma Qlt_bool_ge (x y : Q) : Qlt_bool x y = false -> y <= x.
Proof.
  unfold Qlt_bool. intros H. apply negb_false_iff in H.
  now apply Qle_bool_iff.
Qed.

Lemma Qlt_bool_true (x y : Q) : x < y -> Qlt_bool x y = true.
Proof.
  intros H. destruct (Qlt_bool x y) eqn:E; [reflexivity|].
  apply Qlt_bool_ge in E. lra.
Qed.

(** With a solver whose [OPTIMAL] comes with a solution of the model,
    the flow that [max_flow] reads back has
    [0 <= flow[arc] <= capacity[arc]] on every arc, and at every listed
    node other than ['s'], ['t'] and a node named ["*"] the flow on the
    entering arcs equals the flow on the leaving arcs. *)
Theorem flow_read_back_is_feasible (optimize : solver)
    nodes arcs capacity m :
  max_flow_model nodes arcs capacity = Ok m ->
  honest optimize m ->
  status (optimize m) = OPTIMAL ->
  (forall a, In a arcs ->
     0 <= fl (X (optimize m)) a <= cap capacity a) /\
  (forall j, In j nodes -> j <> "s" -> j <> "t" -> j <> "*" ->
     inflow (fl (X (optimize m))) arcs j
     == outflow (fl (X (optimize m))) arcs j).
Proof.
  intros Hm Hh St.
  exact (flow_bounds_and_conservation _ _ _ _ _ Hm (Hh St)).
Qed.

(** ** The checks that the two functions make *)

Lemma negative_capacity_infeasible nodes arcs capacity m :
  max_flow_model nodes arcs capacity = Ok m ->
  (exists a, In a arcs /\ cap capacity a < 0) ->
  forall x, ~ feasible m x.
Proof.
  intros Hm [a [Ha Hneg]] x Hx.
  destruct (flow_bounds_and_conservation _ _ _ _ _ Hm Hx) as [Hb _].
  specialize (Hb a Ha). lra.
Qed.

Lemma remove_more_feasible nodes arcs capacity m a0 x :
  min_cut_model nodes arcs capacity = Ok m ->
  feasible m x -> feasible m (remove_more a0 x).
Proof.
  intros Hm Fx. apply (min_cut_feasible _ _ _ _ _ Hm) in Fx.
  destruct Fx as [R [Z C]].
  assert (Rm : forall a, rm x a <= rm (remove_more a0 x) a).
  { intros a. unfold rm, remove_more. simpl.
    destruct (arc_eqb a a0); lra. }
  assert (Cn : forall j, cn (remove_more a0 x) j = cn x j) by reflexivity.
  apply (min_cut_feasible _ _ _ _ _ Hm). split; [|split].
  - intros a Ha. specialize (R a Ha). specialize (Rm a). lra.
  - intros j Hj Ij. rewrite Cn. now apply Z.
  - intros a Ha. specialize (C a Ha). specialize (Rm a).
    unfold cut_holds in *. rewrite !Cn.
    destruct (is_s (fst a)); [lra|]. destruct (is_t (snd a)); lra.
Qed.

Lemma remove_more_objval nodes arcs capacity m a0 x :
  In a0 arcs ->
  min_cut_model nodes arcs capacity = Ok m ->
  objval m (remove_more a0 x) == objval m x + cap capacity a0.
Proof.
  intros Ha Hm.
  destruct (min_cut_model_keys_distinct _ _ _ _ Hm) as [Hd _].
  rewrite !(min_cut_objval _ _ _ _ _ Hm).
  rewrite (sumQ_ext (fun a => cap capacity a * rm (remove_more a0 x) a)
             (fun a => cap capacity a * rm x a
                       + (if arc_eqb a a0 then cap capacity a0 else 0))).
  - rewrite sumQ_plus, (sumQ_single arc_eqb arc_eqb_spec _ _ _ Hd).
    replace (existsb (fun a => arc_eqb a a0) arcs) with true; [lra|].
    symmetry. apply existsb_exists. exists a0. split; [exact Ha|].
    now apply arc_eqb_spec.
  - intros a _. unfold rm, remove_more. simpl.
    destruct (arc_eqb a a0) eqn:E; [|lra].
    apply arc_eqb_spec in E. subst a. lra.
Qed.

Lemma cut_optimum_needs_nonneg nodes arcs capacity m x :
  min_cut_model nodes arcs capacity = Ok m ->
  optimal m x ->
  forall a, In a arcs -> 0 <= cap capacity a.
Proof.
  intros Hm [Fx Ox] a Ha.
  destruct (Qlt_le_dec (cap capacity a) 0) as [N|N]; [|exact N].
  exfalso.
  specialize (Ox _ (remove_more_feasible _ _ _ _ a x Hm Fx)).
  rewrite (min_cut_sense _ _ _ _ Hm) in Ox. simpl in Ox.
  rewrite (remove_more_objval _ _ _ _ a x Ha Hm) in Ox. lra.
Qed.

(** C7, as amended: the notebook has no [build] and no
    [InvalidNetworkError]; the network reaches the code as the arguments
    of [max_flow] and [min_cut], with the source and the sink fixed to
    the names ['s'] and ['t'].  The two functions build their models
    exactly on these inputs: [max_flow] when the arcs are distinct and
    each has a capacity entry; [min_cut] when the arcs are distinct, the
    listed nodes other than ['s'] and ['t'] are distinct and every
    lookup of [connect] in the loop finds its key.  So a duplicate arc is
    rejected by both, with [KeyError].  A negative capacity is rejected
    by neither: the model of [max_flow] then has no solution, the model
    of [min_cut] no optimal one, and with a solver that reports
    [OPTIMAL] only with a solution, resp. an optimal solution, each
    function prints nothing and returns normally. *)
Theorem input_checks nodes arcs capacity :
  ((exists m, max_flow_model nodes arcs capacity = Ok m)
   <-> NoDup arcs /\ (forall a, In a arcs -> has_key capacity a)) /\
  ((exists m, min_cut_model nodes arcs capacity = Ok m)
   <-> NoDup arcs /\ NoDup (filter interior nodes) /\
       (forall a, In a arcs -> cut_shape nodes a = true)) /\
  (~ NoDup arcs ->
   max_flow_model nodes arcs capacity = Raise KeyError /\
   min_cut_model nodes arcs capacity = Raise KeyError) /\
  (forall m, max_flow_model nodes arcs capacity = Ok m ->
     (exists a, In a arcs /\ cap capacity a < 0) ->
     (forall x, ~ feasible m x) /\
     (forall optimize, honest optimize m ->
        max_flow optimize nodes arcs capacity = Ok [])) /\
  (forall m, min_cut_model nodes arcs capacity = Ok m ->
     (exists a, In a arcs /\ cap capacity a < 0) ->
     (forall x, ~ optimal m x) /\
     (forall optimize, truthful optimize m ->
        min_cut optimize nodes arcs capacity = Returned [])).
Proof.
  split; [symmetry; apply max_flow_model_built|].
  split; [symmetry; apply min_cut_model_built|].
  split; [|split].
  - intros Hd. split; [now apply max_flow_model_duplicate|].
    apply min_cut_model_duplicate. now left.
  - intros m Hm Hneg.
    pose proof (negative_capacity_infeasible _ _ _ _ Hm Hneg) as Hinf.
    split; [exact Hinf|].
    intros optimize Hh. unfold max_flow. rewrite Hm. cbn [bind].
    destruct (status (optimize m)) eqn:E; try reflexivity.
    exfalso. apply (Hinf (X (optimize m))). now apply Hh.
  - intros m Hm [a [Ha Hneg]].
    assert (Hno : forall x, ~ optimal m x).
    { intros x Ox.
      pose proof (cut_optimum_needs_nonneg _ _ _ _ x Hm Ox a Ha). lra. }
    split; [exact Hno|].
    intros optimize Hh. unfold min_cut. rewrite Hm. cbv zeta.
    destruct (status (optimize m)) eqn:E; try reflexivity.
    exfalso. apply (Hno (X (optimize m))). now apply Hh.
Qed.

(** ** The status of the solver *)

Lemma print_cuts_all capacity (printed : list line) (l : list arc) :
  (forall a, In a l -> has_key capacity a) ->
  print_cuts capacity printed l = Returned (printed ++ cut_lines capacity l).
Proof.
  revert printed. induction l as [|a l IH]; intros printed H; simpl.
  - now rewrite app_nil_r.
  - rewrite (has_key_cap _ _ (H a (or_introl eq_refl))).
    rewrite IH by (intros b Hb; apply H; now right).
    now rewrite <- app_assoc.
Qed.

Lemma print_cuts_stops capacity (printed : list line)
    (l1 : list arc) (a : arc) (l2 : list arc) :
  (forall b, In b l1 -> has_key capacity b) ->
  missing_key capacity a = true ->
  print_cuts capacity printed (l1 ++ a :: l2)
  = Raised (printed ++ cut_lines capacity l1) KeyError.
Proof.
  revert printed. induction l1 as [|b l1 IH]; intros printed H Ha; simpl.
  - unfold missing_key in Ha.
    destruct (dict_get arc_eqb capacity a) as [c|e]; [discriminate|].
    destruct e. now rewrite app_nil_r.
  - rewrite (has_key_cap _ _ (H b (or_introl eq_refl))).
    rewrite IH by (try exact Ha; intros c Hc; apply H; now right).
    now rewrite <- app_assoc.
Qed.

(** C8, as amended: for every solver and every input, an error raised
    while the model is built reaches the caller, nothing being printed;
    with a status other than [OPTIMAL] each function prints nothing and
    returns normally, so the failure is not signalled.  With status
    [OPTIMAL], [max_flow] prints its title and one line for every arc
    with positive flow; [min_cut] prints its title and one line for
    every arc with [r > 0.5] if each of these arcs has a capacity entry,
    and otherwise stops with [KeyError] at the first of them that has
    none, the title and the lines before it already printed.  While
    [min_cut] builds its model a missing capacity entry raises nothing:
    the arc has coefficient 0 in the objective. *)
Theorem solver_status_handling (optimize : solver) nodes arcs capacity :
  (forall e, max_flow_model nodes arcs capacity = Raise e ->
             max_flow optimize nodes arcs capacity = Raise e) /\
  (forall e, min_cut_model nodes arcs capacity = Raise e ->
             min_cut optimize nodes arcs capacity = Raised [] e) /\
  (forall m, max_flow_model nodes arcs capacity = Ok m ->
             status (optimize m) <> OPTIMAL ->
             max_flow optimize nodes arcs capacity = Ok []) /\
  (forall m, min_cut_model nodes arcs capacity = Ok m ->
             status (optimize m) <> OPTIMAL ->
             min_cut optimize nodes arcs capacity = Returned []) /\
  (forall m, max_flow_model nodes arcs capacity = Ok m ->
             status (optimize m) = OPTIMAL ->
             max_flow optimize nodes arcs capacity
             = Ok (Title (newline ++ "Optimal flows")
                   :: map (fun a =>
                             ArcLine (fst a) (snd a) (fl (X (optimize m)) a))
                          (filter (fun a => Qlt_bool 0 (fl (X (optimize m)) a))
                                  arcs))) /\
  (forall m, min_cut_model nodes arcs capacity = Ok m ->
             status (optimize m) = OPTIMAL ->
             ((forall a, In a (filter (selected (X (optimize m))) arcs) ->
                         has_key capacity a) ->
              min_cut optimize nodes arcs capacity
              = Returned (Title (newline ++ "Optimal cuts")
                          :: cut_lines capacity
                               (filter (selected (X (optimize m))) arcs))) /\
             (forall l1 a l2,
                filter (selected (X (optimize m))) arcs
                = (l1 ++ a :: l2)%list ->
                (forall b, In b l1 -> has_key capacity b) ->
                missing_key capacity a = true ->
                min_cut optimize nodes arcs capacity
                = Raised (Title (newline ++ "Optimal cuts")
                          :: cut_lines capacity l1) KeyError)) /\
  (forall m, min_cut_model nodes arcs capacity = Ok m ->
             forall x,
               objval m x
               == sumQ (fun a => match dict_get arc_eqb capacity a with
                                 | Ok c => c * rm x a
                                 | Raise _ => 0
                                 end) arcs).
Proof.
  split; [|split; [|split; [|split; [|split; [|split]]]]];
    [| | | | | |
     intros m H x; rewrite (min_cut_objval _ _ _ _ _ H);
     apply sumQ_ext; intros a _; unfold cap;
     destruct (dict_get arc_eqb capacity a); ring];
    repeat split.
  - intros e H. unfold max_flow. now rewrite H.
  - intros e H. unfold min_cut. now rewrite H.
  - intros m H Hst. unfold max_flow. rewrite H. cbn [bind].
    destruct (status (optimize m)); congruence.
  - intros m H Hst. unfold min_cut. rewrite H. cbv zeta.
    destruct (status (optimize m)); congruence.
  - intros m H Hst. unfold max_flow. rewrite H. cbn [bind].
    rewrite Hst. reflexivity.
  - intros Hk. unfold min_cut. rewrite H. cbv zeta. rewrite H0.
    change (filter (fun a => Qlt_bool 0.5 (X (optimize m) (Vremove a))) arcs)
      with (filter (selected (X (optimize m))) arcs).
    now rewrite (print_cuts_all _ _ _ Hk).
  - intros l1 a l2 E Hk Ha. unfold min_cut. rewrite H. cbv zeta. rewrite H0.
    change (filter (fun a => Qlt_bool 0.5 (X (optimize m) (Vremove a))) arcs)
      with (filter (selected (X (optimize m))) arcs).
    rewrite E. now rewrite (print_cuts_stops _ _ _ _ _ Hk Ha).
Qed.

(** ** Weak duality on every input without wildcard *)

(** When the nodes are distinct, the arcs are distinct and no node is
    named ["*"], every solution [x] of the model of [max_flow] and every
    solution [y] of the model of [min_cut] on the same input satisfy:
    the sum of [f] over the arcs leaving ['s'] is at most the sum of
    [capacity[arc] * r[arc]] over all arcs; these two sums are the two
    objective values. *)
Theorem weak_duality nodes arcs capacity mf mc x y :
  NoDup nodes -> NoDup arcs -> no_wildcard nodes ->
  max_flow_model nodes arcs capacity = Ok mf ->
  min_cut_model nodes arcs capacity = Ok mc ->
  feasible mf x -> feasible mc y ->
  sumQ (fl x) (filter (fun a => is_s (fst a)) arcs)
    <= sumQ (fun a => cap capacity a * rm y a) arcs /\
  objval mf x <= objval mc y.
Proof.
  intros _ Hnd Hw Hmf Hmc Hx Hy.
  pose proof (weak_duality_models nodes arcs capacity mf mc Hnd
                (no_wildcard_In _ Hw) Hmf Hmc x y Hx Hy) as H.
  split; [|exact H].
  now rewrite <- (max_flow_objval _ _ _ _ x Hmf),
              <- (min_cut_objval _ _ _ _ y Hmc).
Qed.

(** ** The names ['s'] and ['t'] *)

Lemma max_flow_objective_terms nodes arcs capacity m :
  max_flow_model nodes arcs capacity = Ok m ->
  terms (mobj m)
  = map (fun a => (1, Vflow a)) (filter (fun a => is_s (fst a)) arcs).
Proof.
  intros H. pose proof (max_flow_model_arcs_distinct _ _ _ _ H) as Hd.
  rewrite (max_flow_model_distinct _ _ _ Hd) in H. cbv zeta in H.
  destruct (mapM _ arcs); simpl in H; inversion H. simpl.
  rewrite (filter_map_key Vflow (fun a => is_s (fst a))).
  now rewrite map_map.
Qed.

Lemma filter_none {A} (p : A -> bool) (l : list A) :
  (forall a, In a l -> p a = false) -> filter p l = [].
Proof.
  induction l as [|a l IH]; intros H; simpl; [reflexivity|].
  rewrite (H a (or_introl eq_refl)). apply IH.
  intros b Hb. apply H. now right.
Qed.

Lemma psum_zero arcs p1 p2 : psum (fun _ => 0) arcs p1 p2 == 0.
Proof. unfold psum. apply sumQ_zero. reflexivity. Qed.

(** C10, as amended: on every input of distinct nodes and distinct arcs
    in which no arc has the tail ['s'] (in particular when the source has
    another name and no node is named ['s']) and every arc has a
    non-negative capacity, the objective that [max_flow] builds is the
    empty sum and its optimal value is 0, whatever the capacities; and
    if [min_cut] builds its model, the all-zero assignment is optimal
    for it with value 0 and selects no arc, so the constraints force no
    arc to be removed. *)
Theorem hardcoded_source nodes arcs capacity :
  NoDup nodes -> NoDup arcs ->
  (forall a, In a arcs -> fst a <> "s") ->
  (forall a, In a arcs -> has_key capacity a /\ 0 <= cap capacity a) ->
  objective_empty nodes arcs capacity /\
  (forall mc, min_cut_model nodes arcs capacity = Ok mc ->
     optimal mc (fun _ => 0) /\
     objval mc (fun _ => 0) == 0 /\
     filter (selected (fun _ => 0)) arcs = []).
Proof.
  intros _ Hd Hs Hcap.
  assert (Hnos : forall a, In a arcs -> is_s (fst a) = false).
  { intros a Ha. apply String.eqb_neq. now apply Hs. }
  split.
  - destruct (proj1 (max_flow_model_built nodes arcs capacity)
                (conj Hd (fun a Ha => proj1 (Hcap a Ha)))) as [mf Hmf].
    exists mf. split; [exact Hmf|].
    assert (Hval : forall y, objval mf y == 0).
    { intros y. rewrite (max_flow_objval _ _ _ _ y Hmf).
      now rewrite (filter_none _ arcs Hnos). }
    split.
    + rewrite (max_flow_objective_terms _ _ _ _ Hmf).
      now rewrite (filter_none _ arcs Hnos).
    + exists (fun _ => 0). split; [|apply Hval]. split.
      * apply (max_flow_feasible _ _ _ _ _ Hmf). split; [|split].
        -- intros a _. unfold fl. lra.
        -- intros a Ha. rewrite psum_zero. apply (Hcap a Ha).
        -- intros j _ _. now rewrite !psum_zero.
      * intros y _. rewrite (max_flow_sense _ _ _ _ Hmf). simpl.
        rewrite !Hval. lra.
  - intros mc Hmc.
    assert (Hz : objval mc (fun _ => 0) == 0).
    { rewrite (min_cut_objval _ _ _ _ _ Hmc). apply sumQ_zero.
      intros a _. unfold rm. ring. }
    split; [split|split; [exact Hz|]].
    + apply (min_cut_feasible _ _ _ _ _ Hmc). split; [|split].
      * intros a _. unfold rm. lra.
      * intros j _ _. unfold cn. lra.
      * intros a Ha. unfold cut_holds, rm, cn. rewrite (Hnos a Ha).
        destruct (is_t (snd a)); lra.
    + intros y Hy. rewrite (min_cut_sense _ _ _ _ Hmc). simpl. rewrite Hz.
      rewrite (min_cut_objval _ _ _ _ _ Hmc).
      apply (min_cut_feasible _ _ _ _ _ Hmc) in Hy. destruct Hy as [Hr _].
      apply sumQ_nonneg. intros a Ha.
      pose proof (proj2 (Hcap a Ha)). pose proof (Hr a Ha). nra.
    + apply filter_none. intros a _. reflexivity.
Qed.

(** ** The arc from ['s'] to ['t'] *)

Lemma direct_arc_pattern j :
  interior j = true ->
  pattern j "*" ("s", "t") = pattern "*" j ("s", "t").
Proof.
  unfold interior, is_s, is_t, pattern, pmatch. simpl fst. simpl snd.
  intros H. apply negb_true_iff, orb_false_iff in H. destruct H as [H1 H2].
  rewrite H1, H2. change ("*" =? "*")%string with true.
  now rewrite !orb_false_r, !andb_true_r.
Qed.

(** With the single arc (s,t) of capacity [c], whatever the node list,
    the model of [max_flow] has optimal value [c]. *)
Lemma direct_arc_flow_value (nodes : list node) (c : Q) :
  0 <= c ->
  exists mf,
    max_flow_model nodes [("s", "t")] [(("s", "t"), c)] = Ok mf /\
    optimal_value mf c.
Proof.
  intros Hc.
  destruct (proj1 (max_flow_model_built nodes [("s", "t")] [(("s", "t"), c)]))
    as [mf Hmf].
  { split; [repeat constructor; simpl; tauto|].
    intros a [<-|[]]. exists c. reflexivity. }
  exists mf. split; [exact Hmf|].
  set (x0 := table [(Vflow ("s", "t"), c)]).
  assert (Hobj : forall y, objval mf y == fl y ("s", "t") + 0).
  { intros y. rewrite (max_flow_objval _ _ _ _ y Hmf). reflexivity. }
  exists x0. split; [split|].
  - apply (max_flow_feasible _ _ _ _ _ Hmf). split; [|split].
    + intros a [<-|[]]. exact Hc.
    + intros a [<-|[]].
      change (c + 0 <= c). lra.
    + intros j _ Hj. unfold psum. cbn [filter].
      now rewrite (direct_arc_pattern j Hj).
  - intros y Hy. rewrite (max_flow_sense _ _ _ _ Hmf). simpl.
    rewrite !Hobj. change (fl x0 ("s", "t")) with c.
    apply (max_flow_feasible _ _ _ _ _ Hmf) in Hy.
    destruct Hy as [_ [Hcap _]].
    specialize (Hcap ("s", "t") (or_introl eq_refl)).
    change (fl y ("s", "t") + 0 <= c) in Hcap. lra.
  - rewrite Hobj. change (fl x0 ("s", "t")) with c. ring.
Qed.

(** C4: on the network with nodes [{s, t}] and the single arc (s,t) of
    capacity 50, the model of [max_flow] has optimal value 50, and
    [min_cut] raises [KeyError] while it builds its first constraint
    ([connect] has no key ['t']), before it prints anything, whatever
    the solver is. *)
Theorem direct_arc_scenario :
  (exists mf,
     max_flow_model Scenario2.nodes Scenario2.arcs Scenario2.capacity = Ok mf /\
     optimal_value mf 50) /\
  min_cut_model Scenario2.nodes Scenario2.arcs Scenario2.capacity
    = Raise KeyError /\
  (forall optimize : solver,
     min_cut optimize Scenario2.nodes Scenario2.arcs Scenario2.capacity
     = Raised [] KeyError).
Proof.
  split; [|split].
  - apply (direct_arc_flow_value Scenario2.nodes 50). lra.
  - reflexivity.
  - intros optimize. reflexivity.
Qed.

(** ** Inputs on which the statements of the specification fail *)

Lemma closed_side_unreachable arcs L :
  closed_side arcs L = true -> unreachable arcs "s" "t".
Proof.
  unfold closed_side. rewrite !andb_true_iff.
  intros [[Hs Ht] Hc] Hp.
  apply negb_true_iff, memb_not_In in Ht. apply Ht.
  apply (path_stays (fun a => In a arcs) L) with (2 := Hp);
    [|now apply memb_In].
  intros a Ha Hi. rewrite forallb_forall in Hc. specialize (Hc a Ha).
  apply memb_In in Hi. rewrite Hi in Hc. now apply memb_In.
Qed.



Lemma renamed_zero_optimal mc :
  min_cut_model Renamed.nodes Renamed.arcs Renamed.capacity = Ok mc ->
  optimal mc (fun _ => 0) /\ objval mc (fun _ => 0) == 0.
Proof.
  intros Hmc.
  assert (Hz : objval mc (fun _ => 0) == 0)
    by (rewrite (min_cut_objval _ _ _ _ _ Hmc); reflexivity).
  split; [split|exact Hz].
  - apply (min_cut_feasible _ _ _ _ _ Hmc). split; [|split].
    + intros a _. unfold rm. lra.
    + intros j _ _. unfold cn. lra.
    + intros a [<-|[]]. vm_compute. discriminate.
  - intros y Fy. rewrite (min_cut_sense _ _ _ _ Hmc). simpl. rewrite Hz.
    rewrite (min_cut_objval _ _ _ _ _ Hmc).
    apply (min_cut_feasible _ _ _ _ _ Hmc) in Fy. destruct Fy as [Hr _].
    specialize (Hr ("a", "b") (or_introl eq_refl)).
    change (0 <= 50 * rm y ("a", "b") + 0). lra.
Qed.

Lemma renamed_optimum_removes_nothing mc x :
  min_cut_model Renamed.nodes Renamed.arcs Renamed.capacity = Ok mc ->
  optimal mc x -> selected x ("a", "b") = false.
Proof.
  intros Hmc [Fx Ox].
  destruct (renamed_zero_optimal mc Hmc) as [[F0 _] _].
  specialize (Ox _ F0). rewrite (min_cut_sense _ _ _ _ Hmc) in Ox.
  simpl in Ox. rewrite !(min_cut_objval _ _ _ _ _ Hmc) in Ox.
  change (50 * rm x ("a", "b") + 0 <= 50 * 0 + 0) in Ox.
  unfold selected. destruct (Qlt_bool 0.5 (rm x ("a", "b"))) eqn:E;
    [|reflexivity].
  apply Qlt_bool_lt in E. assert (0.5 == 1 # 2) by reflexivity. lra.
Qed.

(** C2 fails as stated: this network is valid with source ['a'] and sink
    ['b'], joined by the arc (a,b) of capacity 50.  [min_cut] builds its
    model, in which neither name occurs: ['a'] and ['b'] are treated as
    nodes between ['s'] and ['t'].  The all-zero assignment is optimal
    with value 0, every optimal solution leaves [r(a,b)] at most 0.5,
    and the arcs it selects do not separate the source from the
    sink. *)
Lemma renamed_ends_are_not_separated :
  valid_network Renamed.nodes Renamed.arcs Renamed.capacity "a" "b" /\
  (exists mc,
     min_cut_model Renamed.nodes Renamed.arcs Renamed.capacity = Ok mc /\
     optimal mc (fun _ => 0) /\ objval mc (fun _ => 0) == 0 /\
     (forall x, optimal mc x ->
        selected x ("a", "b") = false /\
        ~ separates Renamed.arcs (selected x) "a" "b")) /\
  ~ integral_optimum Renamed.nodes Renamed.arcs Renamed.capacity "a" "b".
Proof.
  set (mc := built (min_cut_model Renamed.nodes Renamed.arcs
                      Renamed.capacity)).
  assert (Hmc : min_cut_model Renamed.nodes Renamed.arcs Renamed.capacity
                = Ok mc) by reflexivity.
  assert (Hsep : forall x, optimal mc x ->
            selected x ("a", "b") = false /\
            ~ separates Renamed.arcs (selected x) "a" "b").
  { intros x Ox.
    pose proof (renamed_optimum_removes_nothing mc x Hmc Ox) as Hs.
    split; [exact Hs|]. intros Hn. apply Hn.
    apply path_step with (v := "a"); [apply path_here|].
    split; [now left|exact Hs]. }
  split; [apply valid_networkb_sound; reflexivity|]. split.
  - exists mc. split; [exact Hmc|].
    destruct (renamed_zero_optimal mc Hmc) as [Ho Hv].
    split; [exact Ho|split; [exact Hv|exact Hsep]].
  - intros [mc' [x [Hmc' [Ox [_ [_ [Hs _]]]]]]].
    rewrite Hmc in Hmc'. injection Hmc' as <-.
    now apply (Hsep x Ox).
Qed.

Lemma circulation3_round4_feasible :
  exists mf,
    max_flow_model Circulation3.nodes Circulation3.arcs Circulation3.capacity
      = Ok mf /\
    feasible mf Circulation3.round4 /\ objval mf Circulation3.round4 == 4.
Proof.
  eexists. split; [reflexivity|]. split.
  - apply feasibleb_sound. vm_compute. reflexivity.
  - vm_compute. reflexivity.
Qed.

(** C5 fails as stated: this network is valid, no path leads from ['s']
    to ['t'], and the model of [max_flow] has a solution of value 4, so
    its optimal value is not 0. *)
Lemma circulation_breaks_zero :
  valid_network Circulation3.nodes Circulation3.arcs Circulation3.capacity
                "s" "t" /\
  no_wildcard Circulation3.nodes /\
  sink_pure Circulation3.arcs /\
  unreachable Circulation3.arcs "s" "t" /\
  ~ both_zero Circulation3.nodes Circulation3.arcs Circulation3.capacity.
Proof.
  split; [apply valid_networkb_sound; reflexivity|].
  split; [reflexivity|].
  split; [reflexivity|].
  split; [apply (closed_side_unreachable _ ["s"; "A"; "B"]); reflexivity|].
  intros [mf [mc [Hmf [_ [[x [[_ Hopt] Hval]] _]]]]].
  destruct circulation3_round4_feasible as [mf' [Hmf' [Hf Hv]]].
  rewrite Hmf in Hmf'. inversion Hmf'. subst mf'.
  specialize (Hopt _ Hf). rewrite (max_flow_sense _ _ _ _ Hmf) in Hopt.
  simpl in Hopt. rewrite Hval, Hv in Hopt. lra.
Qed.

Lemma wildcard_into_star_optimal :
  exists m,
    max_flow_model Wildcard.nodes Wildcard.arcs Wildcard.capacity = Ok m /\
            optimal m Wildcard.into_star.
Proof.
  set (m := built (max_flow_model Wildcard.nodes Wildcard.arcs
                     Wildcard.capacity)).
  assert (Hm : max_flow_model Wildcard.nodes Wildcard.arcs Wildcard.capacity
               = Ok m) by reflexivity.
  exists m. split; [exact Hm|]. split.
  - apply feasibleb_sound. vm_compute. reflexivity.
  - intros y Hy. rewrite (max_flow_sense _ _ _ _ Hm). simpl.
    rewrite !(max_flow_objval _ _ _ _ _ Hm).
    change (fl y ("s", "*") + 0 <= 5 + 0).
    destruct (flow_bounds_and_conservation _ _ _ _ _ Hm Hy) as [Hb _].
    specialize (Hb ("s", "*") (or_introl eq_refl)).
    change (cap Wildcard.capacity ("s", "*")) with 5 in Hb. lra.
Qed.

Lemma wildcard_optimum_fills_the_arc m x :
  max_flow_model Wildcard.nodes Wildcard.arcs Wildcard.capacity = Ok m ->
  optimal m x -> fl x ("s", "*") == 5.
Proof.
  intros Hm [Fx Ox].
  destruct wildcard_into_star_optimal as [m' [Hm' [F5 _]]].
  rewrite Hm in Hm'. injection Hm' as <-.
  specialize (Ox _ F5). rewrite (max_flow_sense _ _ _ _ Hm) in Ox.
  simpl in Ox. rewrite !(max_flow_objval _ _ _ _ _ Hm) in Ox.
  change (5 + 0 <= fl x ("s", "*") + 0) in Ox.
  destruct (flow_bounds_and_conservation _ _ _ _ _ Hm Fx) as [Hb _].
  specialize (Hb ("s", "*") (or_introl eq_refl)).
  change (cap Wildcard.capacity ("s", "*")) with 5 in Hb. lra.
Qed.

(** C6 fails on this input, a valid network with a node named ["*"]:
    the conservation row that [max_flow] builds for that node is
    [flow.sum('*', '*') == flow.sum('*', '*')], the same sum over all
    arcs on both sides, which every assignment satisfies.  Every optimal
    solution sends 5 into ["*"] and nothing out of it, and with a solver
    that reports [OPTIMAL] with an optimal solution [max_flow] prints
    that flow: the assignment it returns is not conserved at ["*"]. *)
Theorem wildcard_node_is_not_conserved :
  valid_network Wildcard.nodes Wildcard.arcs Wildcard.capacity "s" "t" /\
  (exists m,
     max_flow_model Wildcard.nodes Wildcard.arcs Wildcard.capacity = Ok m /\
     In (mkConstr (td_sum [(("s", "*"), Vflow ("s", "*"))] "*" "*") EQ
                  (td_sum [(("s", "*"), Vflow ("s", "*"))] "*" "*"))
        (mconstrs m) /\
     optimal m Wildcard.into_star /\
     (forall x, optimal m x ->
        inflow (fl x) Wildcard.arcs "*" == 5 /\
        outflow (fl x) Wildcard.arcs "*" == 0) /\
     (forall optimize : solver,
        status (optimize m) = OPTIMAL -> truthful optimize m ->
        fl (X (optimize m)) ("s", "*") == 5 /\
        max_flow optimize Wildcard.nodes Wildcard.arcs Wildcard.capacity
        = Ok [Title (newline ++ "Optimal flows");
              ArcLine "s" "*" (fl (X (optimize m)) ("s", "*"))])) /\
  ~ conserved_at_every_node Wildcard.nodes Wildcard.arcs Wildcard.capacity.
Proof.
  split; [apply valid_networkb_sound; reflexivity|].
  destruct wildcard_into_star_optimal as [m [Hm Ho]].
  assert (Hio : forall x, optimal m x ->
            inflow (fl x) Wildcard.arcs "*" == 5 /\
            outflow (fl x) Wildcard.arcs "*" == 0).
  { intros x Ox.
    pose proof (wildcard_optimum_fills_the_arc m x Hm Ox) as H5.
    split.
    - change (fl x ("s", "*") + 0 == 5). lra.
    - reflexivity. }
  split.
  - exists m. split; [exact Hm|]. split; [|split; [exact Ho|split]].
    + revert Hm. vm_compute. intros [= <-]. simpl. tauto.
    + exact Hio.
    + intros optimize St Ht.
      pose proof (wildcard_optimum_fills_the_arc m _ Hm (Ht St)) as H5.
      split; [exact H5|].
      unfold max_flow. rewrite Hm. cbn [bind]. rewrite St.
      change Wildcard.arcs with [("s", "*")]. cbn [filter].
      change (X (optimize m) (Vflow ("s", "*")))
        with (fl (X (optimize m)) ("s", "*")).
      rewrite (Qlt_bool_true 0 (fl (X (optimize m)) ("s", "*"))) by lra.
      reflexivity.
  - intros H. destruct (Hio _ Ho) as [Hin Hout].
    specialize (H m _ Hm (proj1 Ho) "*").
    assert (E : inflow (fl Wildcard.into_star) Wildcard.arcs "*"
                == outflow (fl Wildcard.into_star) Wildcard.arcs "*").
    { apply H; [simpl; tauto|discriminate|discriminate]. }
    rewrite Hin, Hout in E. revert E. unfold Qeq. vm_compute. discriminate.
Qed.

Lemma negative_has_negative :
  exists a, In a Negative.arcs /\ cap Negative.capacity a < 0.
Proof. exists ("s", "A"). split; [now left|reflexivity]. Qed.

Lemma negative_flow_model_infeasible :
  forall x, ~ feasible (built (max_flow_model Negative.nodes Negative.arcs
                                  Negative.capacity)) x.
Proof.
  apply (negative_capacity_infeasible Negative.nodes Negative.arcs
           Negative.capacity);
    [reflexivity|exact negative_has_negative].
Qed.

Lemma negative_cut_model_unbounded :
  forall x, ~ optimal (built (min_cut_model Negative.nodes Negative.arcs
                                 Negative.capacity)) x.
Proof.
  set (mc := built (min_cut_model Negative.nodes Negative.arcs
                      Negative.capacity)).
  assert (Hmc : min_cut_model Negative.nodes Negative.arcs Negative.capacity
                = Ok mc) by reflexivity.
  intros x [Hx Hopt].
  assert (Hx' : feasible mc (Negative.more x)).
  { apply (min_cut_feasible _ _ _ _ _ Hmc) in Hx.
    destruct Hx as [Hr [Hz Hrow]].
    apply (min_cut_feasible _ _ _ _ _ Hmc). split; [|split].
    - intros a [<-|[<-|[]]].
      + pose proof (Hr ("s", "A") ltac:(simpl; tauto)) as H.
        change (0 <= rm x ("s", "A") + 1). lra.
      + exact (Hr ("A", "t") ltac:(simpl; tauto)).
    - intros j Hj Hi. exact (Hz j Hj Hi).
    - intros a [<-|[<-|[]]].
      + pose proof (Hrow ("s", "A") ltac:(simpl; tauto)) as H.
        change (1 <= rm x ("s", "A") + cn x "A") in H.
        change (1 <= rm x ("s", "A") + 1 + cn x "A"). lra.
      + exact (Hrow ("A", "t") ltac:(simpl; tauto)). }
  specialize (Hopt _ Hx'). rewrite (min_cut_sense _ _ _ _ Hmc) in Hopt.
  simpl in Hopt. rewrite !(min_cut_objval _ _ _ _ _ Hmc) in Hopt.
  change (-1 * rm x ("s", "A") + (2 * rm x ("A", "t") + 0)
          <= -1 * (rm x ("s", "A") + 1) + (2 * rm x ("A", "t") + 0)) in Hopt.
  lra.
Qed.

(** C7 fails as stated: with a negative capacity both functions build
    their models; neither rejects the input.  Nor is the node list
    checked against the source, the sink or the arcs: on the notebook's
    arcs with the node list [A, B, C, D], which has neither ['s'] nor
    ['t'], both functions build their models; with the node list
    [s, t], [max_flow] builds its model although the arc (s,A) ends at a
    node that is not listed. *)
Lemma invalid_inputs_accepted :
  (exists a, In a Negative.arcs /\ cap Negative.capacity a < 0) /\
  (exists m, max_flow_model Negative.nodes Negative.arcs Negative.capacity
             = Ok m) /\
  (exists m, min_cut_model Negative.nodes Negative.arcs Negative.capacity
             = Ok m) /\
  ~ rejects_negative max_flow_model /\
  ~ rejects_negative min_cut_model /\
  (~ In "s" InnerOnly.nodes /\ ~ In "t" InnerOnly.nodes /\
   (exists m, max_flow_model InnerOnly.nodes Notebook.arcs Notebook.capacity
              = Ok m) /\
   (exists m, min_cut_model InnerOnly.nodes Notebook.arcs Notebook.capacity
              = Ok m)) /\
  (In ("s", "A") Notebook.arcs /\ ~ In "A" EndsOnly.nodes /\
   exists m, max_flow_model EndsOnly.nodes Notebook.arcs Notebook.capacity
             = Ok m).
Proof.
  assert (Hnot : forall (v : node) (l : list node),
            memb v l = false -> ~ In v l).
  { intros v l H. now apply memb_not_In. }
  split; [exact negative_has_negative|].
  split; [eexists; reflexivity|]. split; [eexists; reflexivity|].
  split; [|split; [|split]].
  - intros H.
    destruct (H Negative.nodes Negative.arcs Negative.capacity
                negative_has_negative) as [e He]; discriminate He.
  - intros H.
    destruct (H Negative.nodes Negative.arcs Negative.capacity
                negative_has_negative) as [e He]; discriminate He.
  - split; [now apply Hnot|]. split; [now apply Hnot|].
    split; eexists; reflexivity.
  - split; [now left|]. split; [now apply Hnot|].
    eexists; reflexivity.
Qed.

(** C8 fails as stated: on this input the model of [max_flow] has no
    solution and the model of [min_cut] has no optimal one; with a
    solver that reports [INFEASIBLE], resp. [UNBOUNDED], each function
    returns normally, having printed nothing: the failure does not reach
    the caller. *)
Lemma status_is_swallowed :
  (forall x, ~ feasible (built (max_flow_model Negative.nodes Negative.arcs
                                  Negative.capacity)) x) /\
  max_flow Negative.infeasible Negative.nodes Negative.arcs Negative.capacity
    = Ok [] /\
  (forall x, ~ optimal (built (min_cut_model Negative.nodes Negative.arcs
                                 Negative.capacity)) x) /\
  min_cut Negative.unbounded Negative.nodes Negative.arcs Negative.capacity
    = Returned [] /\
  ~ failure_surfaced max_flow_model max_flow signals_error /\
  ~ failure_surfaced min_cut_model min_cut raises.
Proof.
  split; [exact negative_flow_model_infeasible|]. split; [reflexivity|].
  split; [exact negative_cut_model_unbounded|]. split; [reflexivity|].
  split; intros H.
  - destruct (H Negative.infeasible Negative.nodes Negative.arcs
                Negative.capacity _ eq_refl) as [e He];
      [discriminate|discriminate He].
  - destruct (H Negative.unbounded Negative.nodes Negative.arcs
                Negative.capacity _ eq_refl) as [out [e He]];
      [discriminate|discriminate He].
Qed.

(** C9 fails on this input, a valid network with a node named ["*"]:
    both models are built; [stuck] is a solution of the flow model with
    objective 5, since the conservation row at ["*"] has the same sum on
    both sides and lets the flow stop there; [free_cut] is a solution of
    the cut model with objective 0.  The flow is worth more than the
    cut. *)
Theorem wildcard_breaks_weak_duality :
  valid_network WildcardPath.nodes WildcardPath.arcs WildcardPath.capacity
                "s" "t" /\
  (exists mf mc,
     max_flow_model WildcardPath.nodes WildcardPath.arcs WildcardPath.capacity
       = Ok mf /\
     min_cut_model WildcardPath.nodes WildcardPath.arcs WildcardPath.capacity
       = Ok mc /\
     feasible mf WildcardPath.stuck /\ objval mf WildcardPath.stuck == 5 /\
     feasible mc WildcardPath.free_cut /\
     objval mc WildcardPath.free_cut == 0) /\
  ~ weak_duality_holds WildcardPath.nodes WildcardPath.arcs
      WildcardPath.capacity.
Proof.
  assert (Hex : exists mf mc,
     max_flow_model WildcardPath.nodes WildcardPath.arcs WildcardPath.capacity
       = Ok mf /\
     min_cut_model WildcardPath.nodes WildcardPath.arcs WildcardPath.capacity
       = Ok mc /\
     feasible mf WildcardPath.stuck /\ objval mf WildcardPath.stuck == 5 /\
     feasible mc WildcardPath.free_cut /\
     objval mc WildcardPath.free_cut == 0).
  { do 2 eexists. split; [reflexivity|]. split; [reflexivity|].
    split; [apply feasibleb_sound; vm_compute; reflexivity|].
    split; [vm_compute; reflexivity|].
    split; [apply feasibleb_sound; vm_compute; reflexivity|].
    vm_compute; reflexivity. }
  split; [apply valid_networkb_sound; reflexivity|].
  split; [exact Hex|].
  intros H. destruct Hex as [mf [mc [Hmf [Hmc [Fx [Vx [Fy Vy]]]]]]].
  specialize (H mf mc _ _ Hmf Hmc Fx Fy). rewrite Vx, Vy in H. lra.
Qed.

(** C10 fails as stated: this network is valid with source ['a'] and
    sink ['t']; the source is not named ['s'], yet another node is, and
    the objective of [max_flow] is the flow on the arc (s,t), with
    optimal value 5. *)
Lemma misnamed_source_not_zero :
  valid_network Misnamed.nodes Misnamed.arcs Misnamed.capacity "a" "t" /\
  "a" <> "s" /\
  (exists mf,
     max_flow_model Misnamed.nodes Misnamed.arcs Misnamed.capacity = Ok mf /\
     terms (mobj mf) = [(1, Vflow ("s", "t"))] /\
     optimal_value mf 5) /\
  ~ misnamed_source_gives_zero.
Proof.
  assert (Hv : valid_network Misnamed.nodes Misnamed.arcs Misnamed.capacity
                 "a" "t") by (apply valid_networkb_sound; reflexivity).
  split; [exact Hv|]. split; [discriminate|].
  destruct (direct_arc_flow_value Misnamed.nodes 5 ltac:(lra))
    as [mf [Hmf Hopt]].
  split.
  - exists mf. split; [exact Hmf|]. split; [|exact Hopt].
    now rewrite (max_flow_objective_terms _ _ _ _ Hmf).
  - intros H. destruct (H _ _ _ _ _ Hv ltac:(discriminate))
      as [mf' [Hmf' [Hterms _]]].
    rewrite (max_flow_objective_terms _ _ _ _ Hmf') in Hterms.
    discriminate Hterms.
Qed.

(** ** The theorems at concrete inputs *)


Lemma min_cut_integral_optimum_witness :
  valid_network Chain.nodes Chain.arcs Chain.capacity "s" "t" /\
  source_pure Chain.arcs /\ sink_pure Chain.arcs /\
  no_direct_arc Chain.arcs /\
  integral_optimum Chain.nodes Chain.arcs Chain.capacity "s" "t".
Proof.
  assert (Hv : valid_network Chain.nodes Chain.arcs Chain.capacity "s" "t")
    by (apply valid_networkb_sound; reflexivity).
  exact (conj Hv (conj eq_refl (conj eq_refl (conj eq_refl
           (min_cut_integral_optimum _ _ _ Hv eq_refl eq_refl
              eq_refl))))).
Defined.

Lemma unreachable_sink_zero_witness :
  valid_network DeadEnd.nodes DeadEnd.arcs DeadEnd.capacity "s" "t" /\
  no_wildcard DeadEnd.nodes /\
  source_pure DeadEnd.arcs /\ sink_pure DeadEnd.arcs /\
  unreachable DeadEnd.arcs "s" "t" /\
  both_zero DeadEnd.nodes DeadEnd.arcs DeadEnd.capacity.
Proof.
  assert (Hv : valid_network DeadEnd.nodes DeadEnd.arcs DeadEnd.capacity
                 "s" "t") by (apply valid_networkb_sound; reflexivity).
  assert (Hu : unreachable DeadEnd.arcs "s" "t")
    by (apply (closed_side_unreachable _ ["s"; "A"]); reflexivity).
  exact (conj Hv (conj eq_refl (conj eq_refl (conj eq_refl (conj Hu
           (unreachable_sink_zero _ _ _ Hv eq_refl eq_refl eq_refl Hu)))))).
Defined.

Lemma flow_read_back_is_feasible_witness :
  let m := built (max_flow_model Notebook.nodes Notebook.arcs
                    Notebook.capacity) in
  max_flow_model Notebook.nodes Notebook.arcs Notebook.capacity = Ok m /\
  honest Scenario1.answers180 m /\
  status (Scenario1.answers180 m) = OPTIMAL /\
  (forall a, In a Notebook.arcs ->
     0 <= fl (X (Scenario1.answers180 m)) a <= cap Notebook.capacity a) /\
  (forall j, In j Notebook.nodes -> j <> "s" -> j <> "t" -> j <> "*" ->
     inflow (fl (X (Scenario1.answers180 m))) Notebook.arcs j
     == outflow (fl (X (Scenario1.answers180 m))) Notebook.arcs j).
Proof.
  intros m.
  assert (Hm : max_flow_model Notebook.nodes Notebook.arcs Notebook.capacity
               = Ok m) by reflexivity.
  assert (Hh : honest Scenario1.answers180 m)
    by (intros _; apply feasibleb_sound; vm_compute; reflexivity).
  exact (conj Hm (conj Hh (conj eq_refl
           (flow_read_back_is_feasible Scenario1.answers180 _ _ _ m
              Hm Hh eq_refl)))).
Defined.

Lemma weak_duality_witness :
  let mf := built (max_flow_model Notebook.nodes Notebook.arcs
                     Notebook.capacity) in
  let mc := built (min_cut_model Notebook.nodes Notebook.arcs
                     Notebook.capacity) in
  NoDup Notebook.nodes /\ NoDup Notebook.arcs /\
  no_wildcard Notebook.nodes /\
  max_flow_model Notebook.nodes Notebook.arcs Notebook.capacity = Ok mf /\
  min_cut_model Notebook.nodes Notebook.arcs Notebook.capacity = Ok mc /\
  feasible mf Scenario1.flow180 /\ feasible mc Scenario1.cut180 /\
  sumQ (fl Scenario1.flow180)
       (filter (fun a => is_s (fst a)) Notebook.arcs)
    <= sumQ (fun a => cap Notebook.capacity a * rm Scenario1.cut180 a)
            Notebook.arcs /\
  objval mf Scenario1.flow180 <= objval mc Scenario1.cut180.
Proof.
  intros mf mc.
  assert (Hx : feasible mf Scenario1.flow180)
    by (apply feasibleb_sound; vm_compute; reflexivity).
  assert (Hy : feasible mc Scenario1.cut180)
    by (apply feasibleb_sound; vm_compute; reflexivity).
  exact (conj notebook_nodes_unique (conj notebook_arcs_unique
           (conj eq_refl (conj eq_refl (conj eq_refl (conj Hx (conj Hy
              (weak_duality Notebook.nodes Notebook.arcs Notebook.capacity
                 mf mc _ _ notebook_nodes_unique notebook_arcs_unique
                 eq_refl eq_refl eq_refl Hx Hy)))))))).
Defined.

Lemma renamed_nodes_unique : NoDup Renamed.nodes.
Proof. apply (nodupb_sound String.eqb string_eqb_spec). reflexivity. Qed.

Lemma renamed_arcs_unique : NoDup Renamed.arcs.
Proof. apply (nodupb_sound arc_eqb arc_eqb_spec). reflexivity. Qed.

Lemma renamed_no_tail_s : forall a, In a Renamed.arcs -> fst a <> "s".
Proof. intros a [<-|[]]. discriminate. Qed.

Lemma renamed_capacities : forall a, In a Renamed.arcs ->
  has_key Renamed.capacity a /\ 0 <= cap Renamed.capacity a.
Proof.
  intros a [<-|[]]. split; [eexists; reflexivity|].
  change (0 <= 50). lra.
Qed.

Lemma hardcoded_source_witness :
  NoDup Renamed.nodes /\ NoDup Renamed.arcs /\
  (forall a, In a Renamed.arcs -> fst a <> "s") /\
  (forall a, In a Renamed.arcs ->
     has_key Renamed.capacity a /\ 0 <= cap Renamed.capacity a) /\
  objective_empty Renamed.nodes Renamed.arcs Renamed.capacity /\
  (forall mc,
     min_cut_model Renamed.nodes Renamed.arcs Renamed.capacity = Ok mc ->
     optimal mc (fun _ => 0) /\
     objval mc (fun _ => 0) == 0 /\
     filter (selected (fun _ => 0)) Renamed.arcs = []).
Proof.
  exact (conj renamed_nodes_unique (conj renamed_arcs_unique
           (conj renamed_no_tail_s (conj renamed_capacities
              (hardcoded_source Renamed.nodes Renamed.arcs Renamed.capacity
                 renamed_nodes_unique renamed_arcs_unique
                 renamed_no_tail_s renamed_capacities))))).
Defined.

(** ** Further properties of the two functions *)

Lemma mapM_length {A B} (f : A -> result B) (l : list A) (bs : list B) :
  mapM f l = Ok bs -> List.length bs = List.length l.
Proof.
  revert bs. induction l as [|a l IH]; intros bs H; simpl in H.
  - inversion H. reflexivity.
  - destruct (f a); simpl in H; [|discriminate].
    destruct (mapM f l) as [bs'|]; simpl in H; [|discriminate].
    inversion H. simpl. f_equal. now apply IH.
Qed.

(** The two models are dual in size: the model of [max_flow] has one
    column per arc and one row per arc and per node other than ['s'] and
    ['t']; the model of [min_cut] has these numbers exchanged. *)
Theorem model_sizes_are_dual nodes arcs capacity mf mc :
  max_flow_model nodes arcs capacity = Ok mf ->
  min_cut_model nodes arcs capacity = Ok mc ->
  columns mf = List.length arcs /\
  rows mf = (List.length arcs + List.length (filter interior nodes))%nat /\
  columns mc = rows mf /\
  rows mc = columns mf.
Proof.
  intros Hf Hc.
  destruct (min_cut_model_keys_distinct _ _ _ _ Hc) as [Ha Hn].
  rewrite (max_flow_model_distinct _ _ _ Ha) in Hf.
  rewrite (min_cut_model_distinct _ _ _ Ha Hn) in Hc.
  cbv zeta in Hf, Hc. unfold rows, columns.
  destruct (mapM _ arcs) as [caps|] eqn:Ecaps in Hf; simpl in Hf;
    [|discriminate].
  inversion Hf; subst mf; clear Hf.
  destruct (mapM (cut_constr _ _) arcs) as [cs|] eqn:Ecs in Hc; simpl in Hc;
    [|discriminate].
  inversion Hc; subst mc; clear Hc. simpl.
  apply mapM_length in Ecaps, Ecs.
  rewrite !length_app, !length_map, Ecaps, Ecs.
  repeat split; reflexivity.
Qed.

(** On the notebook's data the two models have the sizes the solver
    logs in the notebook: 12 rows, 8 columns and 20 nonzeros for
    [max_flow]; 8 rows, 12 columns and 20 nonzeros for [min_cut]. *)
Theorem notebook_model_sizes :
  exists mf mc,
    max_flow_model Notebook.nodes Notebook.arcs Notebook.capacity = Ok mf /\
    min_cut_model Notebook.nodes Notebook.arcs Notebook.capacity = Ok mc /\
    (rows mf, columns mf, nonzeros mf) = (12, 8, 20)%nat /\
    (rows mc, columns mc, nonzeros mc) = (8, 12, 20)%nat.
Proof.
  do 2 eexists. repeat split; reflexivity.
Qed.

(** With a solver whose [OPTIMAL] comes with a solution of the model,
    every line that [max_flow] prints after its title names an arc of
    the input with a positive flow that is at most the arc's
    capacity. *)
Theorem printed_flows_within_capacity optimize nodes arcs capacity m out :
  NoDup arcs ->
  max_flow_model nodes arcs capacity = Ok m ->
  honest optimize m ->
  max_flow optimize nodes arcs capacity = Ok out ->
  forall l, In l out ->
    l = Title (newline ++ "Optimal flows") \/
    exists a, In a arcs /\
      l = ArcLine (fst a) (snd a) (fl (X (optimize m)) a) /\
      0 < fl (X (optimize m)) a <= cap capacity a.
Proof.
  intros _ Hm Hh Hr l Hl. unfold max_flow in Hr. rewrite Hm in Hr.
  cbn [bind] in Hr. unfold honest in Hh.
  destruct (status (optimize m)) eqn:Est; injection Hr as Ho;
    rewrite <- Ho in Hl; try (now destruct Hl).
  destruct Hl as [Hl|Hl]; [left; now symmetry|right].
  apply in_map_iff in Hl. destruct Hl as [a [Ea Ha]].
  apply filter_In in Ha. destruct Ha as [Ia Pa].
  apply Qlt_bool_lt in Pa.
  destruct (flow_bounds_and_conservation _ _ _ _ _ Hm (Hh eq_refl))
    as [B _].
  exists a. split; [exact Ia|]. split; [now symmetry|].
  split; [exact Pa|]. apply (B a Ia).
Qed.

(** The optimum of the model of [min_cut] is not attained at 0/1 points
    only.  On two unit arcs in a row, [r = 1/2] on both arcs with
    [z = 1/2] at the middle node is optimal, with value 1, and no arc has
    [r > 0.5]: a solver that answers with it makes [min_cut] print its
    title and no arc. *)
Theorem fractional_optimum_prints_no_cut :
  exists mc,
    min_cut_model UnitChain.nodes UnitChain.arcs UnitChain.capacity = Ok mc /\
    optimal mc UnitChain.half /\
    objval mc UnitChain.half == 1 /\
    filter (selected UnitChain.half) UnitChain.arcs = [] /\
    min_cut UnitChain.answers_half UnitChain.nodes UnitChain.arcs
            UnitChain.capacity
    = Returned [Title (newline ++ "Optimal cuts")].
Proof.
  set (mc := built (min_cut_model UnitChain.nodes UnitChain.arcs
                      UnitChain.capacity)).
  assert (Hmc : min_cut_model UnitChain.nodes UnitChain.arcs
                  UnitChain.capacity = Ok mc) by reflexivity.
  exists mc. split; [exact Hmc|].
  assert (V : objval mc UnitChain.half == 1).
  { rewrite (min_cut_objval _ _ _ _ _ Hmc). vm_compute. reflexivity. }
  split; [|split; [exact V|split; reflexivity]].
  split.
  - apply (min_cut_feasible _ _ _ _ _ Hmc).
    split; [|split].
    + intros a Ha; simpl in Ha; destruct Ha as [<-|[<-|[]]];
        vm_compute; discriminate.
    + intros j Hj _; simpl in Hj; destruct Hj as [<-|[<-|[<-|[]]]];
        vm_compute; discriminate.
    + intros a Ha; simpl in Ha; destruct Ha as [<-|[<-|[]]];
        vm_compute; discriminate.
  - intros y Fy. rewrite (min_cut_sense _ _ _ _ Hmc). simpl.
    rewrite V, (min_cut_objval _ _ _ _ _ Hmc).
    apply (min_cut_feasible _ _ _ _ _ Hmc) in Fy.
    destruct Fy as [_ [_ Fy]].
    pose proof (Fy ("s", "A") (or_introl eq_refl)) as H1.
    pose proof (Fy ("A", "t") (or_intror (or_introl eq_refl))) as H2.
    unfold cut_holds in H1, H2. simpl in H1, H2.
    unfold UnitChain.arcs, keys, UnitChain.capacity, sumQ.
    cbn [map fst fold_right].
    change (cap _ ("s", "A")) with 1. change (cap _ ("A", "t")) with 1.
    lra.
Qed.

Lemma model_sizes_are_dual_witness :
  let mf := built (max_flow_model Notebook.nodes Notebook.arcs
                     Notebook.capacity) in
  let mc := built (min_cut_model Notebook.nodes Notebook.arcs
                     Notebook.capacity) in
  max_flow_model Notebook.nodes Notebook.arcs Notebook.capacity = Ok mf /\
  min_cut_model Notebook.nodes Notebook.arcs Notebook.capacity = Ok mc /\
  columns mf = List.length Notebook.arcs /\
  rows mf = (List.length Notebook.arcs
             + List.length (filter interior Notebook.nodes))%nat /\
  columns mc = rows mf /\
  rows mc = columns mf.
Proof.
  intros mf mc.
  exact (conj eq_refl (conj eq_refl
           (model_sizes_are_dual Notebook.nodes Notebook.arcs
              Notebook.capacity mf mc eq_refl eq_refl))).
Defined.

Lemma printed_flows_within_capacity_witness :
  let m := built (max_flow_model Notebook.nodes Notebook.arcs
                    Notebook.capacity) in
  let out := [ Title (newline ++ "Optimal flows");
               ArcLine "s" "A" 90; ArcLine "s" "B" 90;
               ArcLine "A" "C" 90; ArcLine "B" "D" 90;
               ArcLine "C" "t" 90; ArcLine "D" "t" 90 ] in
  NoDup Notebook.arcs /\
  max_flow_model Notebook.nodes Notebook.arcs Notebook.capacity = Ok m /\
  honest Scenario1.answers180 m /\
  max_flow Scenario1.answers180 Notebook.nodes Notebook.arcs
           Notebook.capacity = Ok out /\
  forall l, In l out ->
    l = Title (newline ++ "Optimal flows") \/
    exists a, In a Notebook.arcs /\
      l = ArcLine (fst a) (snd a) (fl (X (Scenario1.answers180 m)) a) /\
      0 < fl (X (Scenario1.answers180 m)) a <= cap Notebook.capacity a.
Proof.
  intros m out.
  assert (Hm : max_flow_model Notebook.nodes Notebook.arcs Notebook.capacity
               = Ok m) by reflexivity.
  assert (Hh : honest Scenario1.answers180 m)
    by (intros _; apply feasibleb_sound; vm_compute; reflexivity).
  assert (Hr : max_flow Scenario1.answers180 Notebook.nodes Notebook.arcs
                 Notebook.capacity = Ok out) by reflexivity.
  exact (conj notebook_arcs_unique (conj Hm (conj Hh (conj Hr
           (printed_flows_within_capacity _ _ _ _ m out
              notebook_arcs_unique Hm Hh Hr))))).
Defined.

(** ** When the two functions raise *)

Lemma missing_key_spec capacity a :
  missing_key capacity a = false <-> has_key capacity a.
Proof.
  unfold missing_key, has_key.
  destruct (dict_get arc_eqb capacity a) as [c|e]; split; intros H.
  - now exists c.
  - reflexivity.
  - discriminate.
  - destruct H as [c H]. discriminate.
Qed.

Lemma find_failure {A} (p : A -> bool) (l : list A) :
  (forall a, In a l -> p a = false) \/ (exists a, In a l /\ p a = true).
Proof.
  induction l as [|a l [IH|[b [Hb Pb]]]].
  - left. intros a [].
  - destruct (p a) eqn:E.
    + right. exists a. split; [now left|exact E].
    + left. intros b [<-|Hb]; [exact E|now apply IH].
  - right. exists b. split; [now right|exact Pb].
Qed.

(** [max_flow] raises [KeyError] exactly when some arc has no capacity
    entry, whatever the solver is; otherwise it returns normally. *)
Theorem max_flow_raises_iff_missing_capacity
    (optimize : solver) nodes arcs capacity :
  NoDup arcs ->
  (max_flow optimize nodes arcs capacity = Raise KeyError
   <-> exists a, In a arcs /\ missing_key capacity a = true) /\
  ((forall a, In a arcs -> missing_key capacity a = false)
   -> exists out, max_flow optimize nodes arcs capacity = Ok out).
Proof.
  intros Hd.
  assert (Good : (forall a, In a arcs -> missing_key capacity a = false) ->
                 exists out, max_flow optimize nodes arcs capacity = Ok out).
  { intros H.
    destruct (proj1 (max_flow_model_built nodes arcs capacity)) as [m Hm].
    { split; [exact Hd|]. intros a Ha. now apply missing_key_spec, H. }
    unfold max_flow. rewrite Hm. cbn [bind].
    destruct (status (optimize m)); eauto. }
  split; [|exact Good]. split.
  - intros H. destruct (find_failure (missing_key capacity) arcs) as [F|F];
      [|exact F].
    destruct (Good F) as [out Hout]. congruence.
  - intros [a [Ha Ma]].
    destruct (max_flow_model nodes arcs capacity) as [m|e] eqn:Hm.
    + assert (K : has_key capacity a).
      { apply (proj2 (max_flow_model_built nodes arcs capacity)); eauto. }
      apply missing_key_spec in K. congruence.
    + unfold max_flow. rewrite Hm. destruct e. reflexivity.
Qed.


Lemma filter_interior_distinct (nodes : list node) :
  NoDup nodes -> NoDup (filter interior nodes).
Proof. apply NoDup_filter. Qed.


(** What [cut_shape] asks of an arc, in terms of the node list. *)
Lemma cut_shape_listed nodes a :
  cut_shape nodes a = true <->
  let listed v := In v nodes /\ v <> "s" /\ v <> "t" in
  (fst a = "s" /\ listed (snd a)) \/
  (fst a <> "s" /\ snd a = "t" /\ listed (fst a)) \/
  (fst a <> "s" /\ snd a <> "t" /\ listed (fst a) /\ listed (snd a)).
Proof.
  assert (L : forall v, has_connect nodes v = true
                        <-> In v nodes /\ v <> "s" /\ v <> "t").
  { intros v. rewrite has_connect_iff. unfold interior, is_s, is_t.
    rewrite negb_true_iff, orb_false_iff, !String.eqb_neq. tauto. }
  unfold cut_shape, is_s, is_t. cbn zeta.
  destruct (String.eqb_spec (fst a) "s") as [E1|E1].
  - rewrite L. tauto.
  - destruct (String.eqb_spec (snd a) "t") as [E2|E2].
    + rewrite L. tauto.
    + rewrite andb_true_iff, !L. tauto.
Qed.

(** ** Called on the keys of the capacity dict *)

Lemma dict_get_keys {V} (d : list (arc * V)) a :
  In a (keys d) -> exists v, dict_get arc_eqb d a = Ok v.
Proof.
  unfold keys. induction d as [|[k v] d IH]; simpl; [intros []|].
  intros H. destruct (arc_eqb k a) eqn:E; [eauto|].
  destruct H as [H|H]; [|now apply IH].
  subst k. assert (arc_eqb a a = true) by now apply arc_eqb_spec.
  congruence.
Qed.

(** With [arcs = capacity.keys()], as the notebook calls the two
    functions, [max_flow] never raises, and [min_cut] raises exactly
    when its loop body looks up [connect] at a node that is ['s'], ['t']
    or not listed; it raises [KeyError] then, before it prints
    anything, and returns normally otherwise. *)
Theorem called_on_the_keys (optimize : solver) nodes capacity :
  NoDup nodes -> NoDup (keys capacity) ->
  (exists out, max_flow optimize nodes (keys capacity) capacity = Ok out) /\
  (min_cut optimize nodes (keys capacity) capacity = Raised [] KeyError
   <-> exists a, In a (keys capacity) /\ cut_shape nodes a = false) /\
  ((forall a, In a (keys capacity) -> cut_shape nodes a = true) ->
   exists out,
     min_cut optimize nodes (keys capacity) capacity = Returned out).
Proof.
  intros Hn Ha.
  assert (K : forall a, In a (keys capacity) -> has_key capacity a).
  { intros a H. now apply dict_get_keys. }
  assert (Good : (forall a, In a (keys capacity) ->
                            cut_shape nodes a = true) ->
                 exists out, min_cut optimize nodes (keys capacity) capacity
                             = Returned out).
  { intros S.
    destruct (proj1 (min_cut_model_built nodes (keys capacity) capacity))
      as [m Hm].
    { split; [exact Ha|]. split; [|exact S].
      now apply filter_interior_distinct. }
    unfold min_cut. rewrite Hm. cbv zeta.
    destruct (status (optimize m)); eauto.
    rewrite print_cuts_all; [eauto|].
    intros a Ia. apply filter_In in Ia. now apply K. }
  split; [|split; [split|exact Good]].
  - unfold max_flow.
    destruct (proj1 (max_flow_model_built nodes (keys capacity) capacity))
      as [m Hm]; [now split|].
    rewrite Hm. cbn [bind]. destruct (status (optimize m)); eauto.
  - intros H.
    destruct (find_failure (fun a => negb (cut_shape nodes a))
                (keys capacity)) as [F|[a [Ia Fa]]].
    + destruct Good as [out Hout]; [|congruence].
      intros a Ia. now apply negb_false_iff, F.
    + exists a. split; [exact Ia|]. now apply negb_true_iff.
  - intros [a [Ia Fa]].
    destruct (min_cut_model nodes (keys capacity) capacity) as [m|e] eqn:Hm.
    + destruct (proj2 (min_cut_model_built nodes (keys capacity) capacity))
        as [_ [_ S]]; [eauto|].
      rewrite (S a Ia) in Fa. discriminate.
    + unfold min_cut. rewrite Hm. destruct e. reflexivity.
Qed.

(** ** Which of the two models have solutions *)

(** The model of [max_flow] has a solution exactly when no capacity is
    negative; the zero flow is then one. *)
Theorem flow_model_solvable_iff nodes arcs capacity m :
  NoDup arcs ->
  max_flow_model nodes arcs capacity = Ok m ->
  ((exists x, feasible m x)
   <-> forall a, In a arcs -> 0 <= cap capacity a) /\
  ((forall a, In a arcs -> 0 <= cap capacity a) ->
   feasible m (fun _ => 0)).
Proof.
  intros _ Hm.
  assert (Z : (forall a, In a arcs -> 0 <= cap capacity a) ->
              feasible m (fun _ => 0)).
  { intros H. apply (max_flow_feasible _ _ _ _ _ Hm).
    split; [|split].
    - intros a _. unfold fl. lra.
    - intros a Ha. rewrite psum_zero. now apply H.
    - intros j _ _. now rewrite !psum_zero. }
  split; [|exact Z]. split.
  - intros [x Fx] a Ha.
    destruct (Qlt_le_dec (cap capacity a) 0) as [N|N]; [|exact N].
    exfalso. apply (negative_capacity_infeasible _ _ _ _ Hm) with (x := x);
      eauto.
  - intros H. exists (fun _ => 0). now apply Z.
Qed.

(** The model of [min_cut], once built, has a solution whatever the
    objective coefficients are (remove every arc); it has an optimal
    one exactly when no coefficient is negative, and then no solution
    costs less than 0.  The coefficient of an arc is its capacity entry,
    or 0 if it has none. *)
Theorem cut_model_solvable nodes arcs capacity m :
  min_cut_model nodes arcs capacity = Ok m ->
  feasible m all_removed /\
  ((exists x, optimal m x)
   <-> forall a, In a arcs -> 0 <= cap capacity a) /\
  ((forall a, In a arcs -> 0 <= cap capacity a) ->
   forall x, feasible m x -> 0 <= objval m x).
Proof.
  intros Hm.
  split; [|split; [split|]].
  - apply (min_cut_feasible _ _ _ _ _ Hm). split; [|split].
    + intros a _. unfold rm, all_removed. lra.
    + intros j _ _. unfold cn, all_removed. lra.
    + intros a _. unfold cut_holds, rm, cn, all_removed.
      destruct (is_s (fst a)); [lra|]. destruct (is_t (snd a)); lra.
  - intros [x Ox]. exact (cut_optimum_needs_nonneg _ _ _ _ x Hm Ox).
  - intros H.
    destruct (cut_model_integral_optimum nodes arcs capacity m H Hm)
      as [f [L [_ [_ O]]]].
    eauto.
  - intros H x Fx. rewrite (min_cut_objval _ _ _ _ _ Hm).
    apply (min_cut_feasible _ _ _ _ _ Hm) in Fx. destruct Fx as [R _].
    apply sumQ_nonneg. intros a Ha. specialize (R a Ha).
    specialize (H a Ha). nra.
Qed.

(** ** Duality as a certificate *)

(** A solution of the flow model and a solution of the cut model with
    the same objective value are both optimal. *)
Theorem equal_values_certify_optimality nodes arcs capacity mf mc x y :
  NoDup nodes -> NoDup arcs -> no_wildcard nodes ->
  max_flow_model nodes arcs capacity = Ok mf ->
  min_cut_model nodes arcs capacity = Ok mc ->
  feasible mf x -> feasible mc y ->
  objval mf x == objval mc y ->
  optimal mf x /\ optimal mc y.
Proof.
  intros _ Hd Hw Hmf Hmc Fx Fy E.
  pose proof (weak_duality_models _ _ _ mf mc Hd (no_wildcard_In nodes Hw)
                Hmf Hmc) as WD.
  split; (split; [assumption|]).
  - intros x' Fx'. rewrite (max_flow_sense _ _ _ _ Hmf). simpl.
    rewrite E. now apply WD.
  - intros y' Fy'. rewrite (min_cut_sense _ _ _ _ Hmc). simpl.
    rewrite <- E. now apply WD.
Qed.

Lemma optima_coincide nodes arcs capacity mf mc x y :
  NoDup arcs -> ~ In "*" nodes ->
  max_flow_model nodes arcs capacity = Ok mf ->
  min_cut_model nodes arcs capacity = Ok mc ->
  optimal mf x -> optimal mc y ->
  objval mf x == objval mc y.
Proof.
  intros Hd Hw Hmf Hmc [Fx Ox] [Fy Oy].
  pose proof (cut_optimum_needs_nonneg _ _ _ _ y Hmc (conj Fy Oy)) as Hc.
  destruct (strong_duality_models nodes arcs capacity mf mc Hd Hw Hc
              Hmf Hmc)
    as [f [L [_ [_ [Of [Oc E]]]]]].
  specialize (Ox _ (proj1 Of)). specialize (Oy _ (proj1 Oc)).
  rewrite (max_flow_sense _ _ _ _ Hmf) in Ox.
  rewrite (min_cut_sense _ _ _ _ Hmc) in Oy. simpl in Ox, Oy.
  pose proof (weak_duality_models _ _ _ mf mc Hd Hw Hmf Hmc x y Fx Fy)
    as WD.
  lra.
Qed.

(** Wherever both functions build their models, with no node named
    ["*"] and no negative capacity, both models have optimal solutions,
    and every optimal solution of one has the same objective value as
    every optimal solution of the other. *)
Theorem optima_agree_wherever_both_build nodes arcs capacity mf mc :
  no_wildcard nodes ->
  (forall a, In a arcs -> 0 <= cap capacity a) ->
  max_flow_model nodes arcs capacity = Ok mf ->
  min_cut_model nodes arcs capacity = Ok mc ->
  (exists x, optimal mf x) /\
  (exists y, optimal mc y) /\
  (forall x y, optimal mf x -> optimal mc y ->
               objval mf x == objval mc y).
Proof.
  intros Hw Hc Hmf Hmc.
  pose proof (max_flow_model_arcs_distinct _ _ _ _ Hmf) as Hd.
  destruct (strong_duality_models nodes arcs capacity mf mc Hd
              (no_wildcard_In nodes Hw) Hc Hmf Hmc)
    as [f [L [_ [_ [Of [Oc E]]]]]].
  split; [eauto|]. split; [eauto|].
  intros x y Ox Oy.
  exact (optima_coincide _ _ _ mf mc x y Hd (no_wildcard_In nodes Hw)
           Hmf Hmc Ox Oy).
Qed.

(** ** The order in which nodes and arcs are listed *)

Lemma sumQ_perm {A} (f : A -> Q) (l l' : list A) :
  Permutation l l' -> sumQ f l == sumQ f l'.
Proof.
  induction 1 as [|a l l' _ IH|a b l|l1 l2 l3 _ IH1 _ IH2]; simpl.
  - reflexivity.
  - rewrite IH. reflexivity.
  - lra.
  - now rewrite IH1.
Qed.

Lemma psum_perm x arcs arcs' p1 p2 :
  Permutation arcs arcs' -> psum x arcs p1 p2 == psum x arcs' p1 p2.
Proof.
  intros P. unfold psum. rewrite !sumQ_filter. now apply sumQ_perm.
Qed.

Lemma same_program_optimal m m' x :
  same_program m m' -> (optimal m x <-> optimal m' x).
Proof.
  intros [S [F O]]. unfold optimal. rewrite <- S.
  split; intros [Fx Ox]; (split; [now apply F|]); intros y Fy.
  - apply F in Fy. specialize (Ox y Fy).
    destruct (msense m); simpl in *; rewrite <- !O; exact Ox.
  - apply F in Fy. specialize (Ox y Fy).
    destruct (msense m); simpl in *; rewrite !O; exact Ox.
Qed.

Lemma has_connect_perm nodes nodes' j :
  Permutation nodes nodes' -> has_connect nodes j = has_connect nodes' j.
Proof.
  intros P.
  destruct (has_connect nodes j) eqn:E1, (has_connect nodes' j) eqn:E2;
    try reflexivity.
  - apply has_connect_iff in E1. destruct E1 as [I1 I2].
    assert (H : has_connect nodes' j = true)
      by (apply has_connect_iff; split;
          [now apply (Permutation_in _ P)|exact I2]).
    congruence.
  - apply has_connect_iff in E2. destruct E2 as [I1 I2].
    assert (H : has_connect nodes j = true)
      by (apply has_connect_iff; split;
          [now apply (Permutation_in _ (Permutation_sym P))|exact I2]).
    congruence.
Qed.

Lemma cut_shape_perm nodes nodes' a :
  Permutation nodes nodes' -> cut_shape nodes a = cut_shape nodes' a.
Proof.
  intros P. unfold cut_shape.
  now rewrite !(has_connect_perm nodes nodes' _ P).
Qed.

(** Listing the nodes or the arcs in another order changes neither which
    assignments solve the two models, nor their objective values, nor
    which of them are optimal. *)
Theorem listing_order_is_irrelevant nodes nodes' arcs arcs' capacity :
  NoDup nodes -> NoDup arcs ->
  Permutation nodes nodes' -> Permutation arcs arcs' ->
  (forall mf, max_flow_model nodes arcs capacity = Ok mf ->
     exists mf', max_flow_model nodes' arcs' capacity = Ok mf' /\
                 same_program mf mf' /\
                 (forall x, optimal mf x <-> optimal mf' x)) /\
  (forall mc, min_cut_model nodes arcs capacity = Ok mc ->
     exists mc', min_cut_model nodes' arcs' capacity = Ok mc' /\
                 same_program mc mc' /\
                 (forall x, optimal mc x <-> optimal mc' x)).
Proof.
  intros _ _ Pn Pa.
  assert (Pf : forall l l' : list node, Permutation l l' ->
            Permutation (filter interior l) (filter interior l')).
  { induction 1 as [|a l l' _ IH|a b l|l1 l2 l3 _ IH1 _ IH2]; simpl.
    - constructor.
    - destruct (interior a); [now constructor|exact IH].
    - destruct (interior a), (interior b);
        try apply Permutation_refl. apply perm_swap.
    - now apply perm_trans with (filter interior l2). }
  assert (Ia : forall a, In a arcs <-> In a arcs').
  { intros a. split; apply Permutation_in;
      [exact Pa|exact (Permutation_sym Pa)]. }
  assert (In_ : forall j, In j nodes <-> In j nodes').
  { intros j. split; apply Permutation_in;
      [exact Pn|exact (Permutation_sym Pn)]. }
  split.
  - intros mf Hmf.
    destruct (proj1 (max_flow_model_built nodes' arcs' capacity))
      as [mf' Hmf'].
    { destruct (proj2 (max_flow_model_built nodes arcs capacity)) as [D K];
        [eauto|].
      split; [exact (Permutation_NoDup Pa D)|].
      intros a Ha. apply Ia in Ha. now apply K. }
    exists mf'. split; [exact Hmf'|].
    assert (SP : same_program mf mf').
    { split; [|split].
      - now rewrite (max_flow_sense _ _ _ _ Hmf),
                    (max_flow_sense _ _ _ _ Hmf').
      - intros x. rewrite (max_flow_feasible _ _ _ _ x Hmf),
                          (max_flow_feasible _ _ _ _ x Hmf').
        split; intros [B [C N]]; (split; [|split]).
        + intros a Ha. apply B. now apply Ia.
        + intros a Ha. rewrite <- (psum_perm x arcs arcs' _ _ Pa).
          apply C. now apply Ia.
        + intros j Hj Ij. rewrite <- !(psum_perm x arcs arcs' _ _ Pa).
          apply N; [now apply In_|exact Ij].
        + intros a Ha. apply B. now apply Ia.
        + intros a Ha. rewrite (psum_perm x arcs arcs' _ _ Pa).
          apply C. now apply Ia.
        + intros j Hj Ij. rewrite !(psum_perm x arcs arcs' _ _ Pa).
          apply N; [now apply In_|exact Ij].
      - intros x. rewrite (max_flow_objval _ _ _ _ x Hmf),
                          (max_flow_objval _ _ _ _ x Hmf').
        rewrite !sumQ_filter. now apply sumQ_perm. }
    split; [exact SP|]. intros x. now apply same_program_optimal.
  - intros mc Hmc.
    destruct (proj2 (min_cut_model_built nodes arcs capacity))
      as [D [Dn S]]; [eauto|].
    destruct (proj1 (min_cut_model_built nodes' arcs' capacity))
      as [mc' Hmc'].
    { split; [exact (Permutation_NoDup Pa D)|].
      split; [exact (Permutation_NoDup (Pf _ _ Pn) Dn)|].
      intros a Ha; apply Ia in Ha.
      rewrite <- (cut_shape_perm nodes nodes' a Pn). now apply S. }
    exists mc'. split; [exact Hmc'|].
    assert (SP : same_program mc mc').
    { split; [|split].
      - now rewrite (min_cut_sense _ _ _ _ Hmc),
                    (min_cut_sense _ _ _ _ Hmc').
      - intros x. rewrite (min_cut_feasible _ _ _ _ x Hmc),
                          (min_cut_feasible _ _ _ _ x Hmc').
        split; intros [R [Z C]]; (split; [|split]).
        + intros a Ha. apply R. now apply Ia.
        + intros j Hj Ij. apply Z; [now apply In_|exact Ij].
        + intros a Ha. apply C. now apply Ia.
        + intros a Ha. apply R. now apply Ia.
        + intros j Hj Ij. apply Z; [now apply In_|exact Ij].
        + intros a Ha. apply C. now apply Ia.
      - intros x. rewrite (min_cut_objval _ _ _ _ x Hmc),
                          (min_cut_objval _ _ _ _ x Hmc').
        now apply sumQ_perm. }
    split; [exact SP|]. intros x. now apply same_program_optimal.
Qed.

(** ** More capacity, fewer listed nodes *)

(** Raising capacities keeps every solution of the flow model, leaves
    the solutions of the cut model as they are, and lowers neither
    optimal value. *)
Theorem more_capacity_never_lowers_the_optima
    nodes arcs capacity capacity' :
  NoDup nodes -> NoDup arcs ->
  (forall a, In a arcs -> cap capacity a <= cap capacity' a) ->
  (forall mf mf',
     max_flow_model nodes arcs capacity = Ok mf ->
     max_flow_model nodes arcs capacity' = Ok mf' ->
     (forall x, feasible mf x -> feasible mf' x) /\
     (forall v v', optimal_value mf v -> optimal_value mf' v' -> v <= v')) /\
  (forall mc mc',
     min_cut_model nodes arcs capacity = Ok mc ->
     min_cut_model nodes arcs capacity' = Ok mc' ->
     (forall x, feasible mc x <-> feasible mc' x) /\
     (forall v v', optimal_value mc v -> optimal_value mc' v' -> v <= v')).
Proof.
  intros _ _ Hc. split.
  - intros mf mf' Hmf Hmf'.
    assert (F : forall x, feasible mf x -> feasible mf' x).
    { intros x. rewrite (max_flow_feasible _ _ _ _ x Hmf),
                        (max_flow_feasible _ _ _ _ x Hmf').
      intros [B [C N]]. split; [exact B|split; [|exact N]].
      intros a Ha. specialize (C a Ha). specialize (Hc a Ha). lra. }
    split; [exact F|].
    intros v v' [x [[Fx _] Vx]] [x' [[_ Ox'] Vx']].
    specialize (Ox' x (F x Fx)).
    rewrite (max_flow_sense _ _ _ _ Hmf') in Ox'. simpl in Ox'.
    rewrite (max_flow_objval _ _ _ _ x Hmf) in Vx.
    rewrite (max_flow_objval _ _ _ _ x Hmf') in Ox'. lra.
  - intros mc mc' Hmc Hmc'.
    assert (F : forall x, feasible mc x <-> feasible mc' x).
    { intros x. rewrite (min_cut_feasible _ _ _ _ x Hmc),
                        (min_cut_feasible _ _ _ _ x Hmc').
      reflexivity. }
    split; [exact F|].
    intros v v' [x [[_ Ox] Vx]] [x' [[Fx' _] Vx']].
    specialize (Ox x' (proj2 (F x') Fx')).
    rewrite (min_cut_sense _ _ _ _ Hmc) in Ox. simpl in Ox.
    assert (M : objval mc x' <= objval mc' x').
    { rewrite (min_cut_objval _ _ _ _ x' Hmc),
              (min_cut_objval _ _ _ _ x' Hmc').
      apply sumQ_le. intros a Ha. specialize (Hc a Ha).
      apply (min_cut_feasible _ _ _ _ x' Hmc') in Fx'.
      destruct Fx' as [R _]. specialize (R a Ha). nra. }
    lra.
Qed.

(** Conservation is imposed at the listed nodes only: with fewer nodes
    listed, every solution of the flow model remains one, and the
    optimal value is not lower. *)
Theorem fewer_listed_nodes_never_lower_the_flow
    nodes nodes' arcs capacity mf mf' :
  NoDup arcs ->
  (forall j, In j nodes' -> In j nodes) ->
  max_flow_model nodes arcs capacity = Ok mf ->
  max_flow_model nodes' arcs capacity = Ok mf' ->
  (forall x, feasible mf x -> feasible mf' x) /\
  (forall v v', optimal_value mf v -> optimal_value mf' v' -> v <= v').
Proof.
  intros _ Sub Hmf Hmf'.
  assert (F : forall x, feasible mf x -> feasible mf' x).
  { intros x. rewrite (max_flow_feasible _ _ _ _ x Hmf),
                      (max_flow_feasible _ _ _ _ x Hmf').
    intros [B [C N]]. split; [exact B|split; [exact C|]].
    intros j Hj. apply N. now apply Sub. }
  split; [exact F|].
  intros v v' [x [[Fx _] Vx]] [x' [[_ Ox'] Vx']].
  specialize (Ox' x (F x Fx)).
  rewrite (max_flow_sense _ _ _ _ Hmf') in Ox'. simpl in Ox'.
  rewrite (max_flow_objval _ _ _ _ x Hmf) in Vx.
  rewrite (max_flow_objval _ _ _ _ x Hmf') in Ox'. lra.
Qed.

(** With no node listed other than ['s'] and ['t'], nothing is
    conserved: filling every arc is optimal, and the optimal value is
    the capacity of the arcs that leave ['s']. *)
Theorem without_listed_nodes_the_source_capacity_flows
    nodes arcs capacity mf :
  NoDup arcs -> no_star arcs ->
  (forall j, In j nodes -> j = "s" \/ j = "t") ->
  (forall a, In a arcs -> 0 <= cap capacity a) ->
  max_flow_model nodes arcs capacity = Ok mf ->
  optimal mf (filled capacity) /\
  objval mf (filled capacity) == source_capacity capacity arcs.
Proof.
  intros Hd Hs Hn Hc Hmf.
  assert (V : objval mf (filled capacity) == source_capacity capacity arcs).
  { rewrite (max_flow_objval _ _ _ _ _ Hmf). reflexivity. }
  split; [|exact V]. split.
  - apply (max_flow_feasible _ _ _ _ _ Hmf). split; [|split].
    + intros a Ha. now apply Hc.
    + intros a Ha. destruct (Hs a Ha) as [S1 S2].
      rewrite (psum_arc _ _ a Hd Ha S1 S2). unfold fl, filled. lra.
    + intros j Hj Ij. exfalso. unfold interior, is_s, is_t in Ij.
      destruct (Hn j Hj) as [-> | ->]; discriminate.
  - intros y Fy. rewrite (max_flow_sense _ _ _ _ Hmf). simpl.
    rewrite V, (max_flow_objval _ _ _ _ _ Hmf).
    apply sumQ_le. intros a Ha. apply filter_In in Ha.
    destruct (flow_bounds_and_conservation _ _ _ _ _ Hmf Fy) as [B _].
    apply (B a (proj1 Ha)).
Qed.

(** ** What the two functions read *)

Lemma mapM_ext {A B} (f g : A -> result B) (l : list A) :
  (forall a, In a l -> f a = g a) -> mapM f l = mapM g l.
Proof.
  induction l as [|a l IH]; intros H; simpl; [reflexivity|].
  rewrite (H a (or_introl eq_refl)), IH; [reflexivity|].
  intros b Hb. apply H. now right.
Qed.

Lemma models_read nodes nodes' arcs capacity capacity' :
  filter interior nodes = filter interior nodes' ->
  (forall a, In a arcs ->
     dict_get arc_eqb capacity a = dict_get arc_eqb capacity' a) ->
  max_flow_model nodes arcs capacity
  = max_flow_model nodes' arcs capacity' /\
  min_cut_model nodes arcs capacity
  = min_cut_model nodes' arcs capacity'.
Proof.
  intros Hn Hc. split.
  - unfold max_flow_model. rewrite Hn.
    destruct (addVars arc_eqb newModel Vflow arcs (map (fun _ => 1) arcs))
      as [[m flow]|e]; [|reflexivity].
    cbn [bind].
    match goal with
    | |- bind (mapM ?f arcs) _ = bind (mapM ?g arcs) _ =>
        rewrite (mapM_ext f g arcs)
    end; [reflexivity|].
    intros a Ha. now rewrite (Hc a Ha).
  - unfold min_cut_model. rewrite Hn.
    rewrite (map_ext_in (cap capacity) (cap capacity') arcs);
      [reflexivity|].
    intros a Ha. unfold cap. now rewrite (Hc a Ha).
Qed.

Lemma print_cuts_read capacity capacity' (printed : list line)
    (l : list arc) :
  (forall a, In a l ->
     dict_get arc_eqb capacity a = dict_get arc_eqb capacity' a) ->
  print_cuts capacity printed l = print_cuts capacity' printed l.
Proof.
  revert printed. induction l as [|a l IH]; intros printed H; simpl;
    [reflexivity|].
  rewrite (H a (or_introl eq_refl)).
  destruct (dict_get arc_eqb capacity' a); [|reflexivity].
  apply IH. intros b Hb. apply H. now right.
Qed.

(** The two functions read [nodes] only for its members other than ['s']
    and ['t'], and [capacity] only at the arcs: two inputs that agree
    there give the same result with every solver. *)
Theorem only_inner_nodes_and_arc_capacities_are_read
    (optimize : solver) nodes nodes' arcs capacity capacity' :
  filter interior nodes = filter interior nodes' ->
  (forall a, In a arcs ->
     dict_get arc_eqb capacity a = dict_get arc_eqb capacity' a) ->
  max_flow optimize nodes arcs capacity
  = max_flow optimize nodes' arcs capacity' /\
  min_cut optimize nodes arcs capacity
  = min_cut optimize nodes' arcs capacity'.
Proof.
  intros Hn Hc.
  destruct (models_read nodes nodes' arcs capacity capacity' Hn Hc)
    as [Ef Ec].
  unfold max_flow, min_cut. rewrite Ef, Ec. split; [reflexivity|].
  destruct (min_cut_model nodes' arcs capacity') as [m|e]; [|reflexivity].
  cbv zeta. destruct (status (optimize m)); try reflexivity.
  apply print_cuts_read.
  intros a Ha. apply filter_In in Ha. now apply Hc.
Qed.

(** ** No arcs *)

(** Without arcs both functions build their models, whatever the nodes
    and the capacity dict are; both models have optimal value 0; and
    when the solver reports [OPTIMAL] each function prints its title
    and nothing else. *)
Theorem without_arcs (optimize : solver) nodes capacity :
  NoDup nodes ->
  exists mf mc,
    max_flow_model nodes [] capacity = Ok mf /\
    min_cut_model nodes [] capacity = Ok mc /\
    optimal_value mf 0 /\
    optimal_value mc 0 /\
    (status (optimize mf) = OPTIMAL ->
     max_flow optimize nodes [] capacity
     = Ok [Title (newline ++ "Optimal flows")]) /\
    (status (optimize mc) = OPTIMAL ->
     min_cut optimize nodes [] capacity
     = Returned [Title (newline ++ "Optimal cuts")]).
Proof.
  intros Hn.
  destruct (proj1 (max_flow_model_built nodes [] capacity)) as [mf Hmf];
    [split; [constructor|intros a []]|].
  destruct (proj1 (min_cut_model_built nodes [] capacity)) as [mc Hmc].
  { split; [constructor|]. split; [|intros a []].
    now apply filter_interior_distinct. }
  exists mf, mc. split; [exact Hmf|]. split; [exact Hmc|].
  split; [|split; [|split]].
  - exists (fun _ => 0). split; [|now rewrite (max_flow_objval _ _ _ _ _ Hmf)].
    split.
    + apply (max_flow_feasible _ _ _ _ _ Hmf). split; [|split].
      * intros a [].
      * intros a [].
      * intros j _ _. now rewrite !psum_zero.
    + intros y _. rewrite (max_flow_sense _ _ _ _ Hmf). simpl.
      rewrite !(max_flow_objval _ _ _ _ _ Hmf). simpl. lra.
  - exists (fun _ => 0). split; [|now rewrite (min_cut_objval _ _ _ _ _ Hmc)].
    split.
    + apply (min_cut_feasible _ _ _ _ _ Hmc). split; [|split].
      * intros a [].
      * intros j _ _. unfold cn. lra.
      * intros a [].
    + intros y _. rewrite (min_cut_sense _ _ _ _ Hmc). simpl.
      rewrite !(min_cut_objval _ _ _ _ _ Hmc). simpl. lra.
  - intros St. unfold max_flow. rewrite Hmf. cbn [bind]. rewrite St.
    reflexivity.
  - intros St. unfold min_cut. rewrite Hmc. cbv zeta. rewrite St.
    reflexivity.
Qed.

(** ** What the printed flows tell *)

(** With a solver whose [OPTIMAL] comes with a solution of the model,
    the objective value is the sum of the flows that [max_flow] hands
    to [print] for the arcs that leave ['s'], and every arc for which it
    prints no line carries no flow. *)
Theorem printed_flows_give_the_value
    (optimize : solver) nodes arcs capacity m out :
  NoDup arcs ->
  max_flow_model nodes arcs capacity = Ok m ->
  honest optimize m ->
  status (optimize m) = OPTIMAL ->
  max_flow optimize nodes arcs capacity = Ok out ->
  printed_value out == objval m (X (optimize m)) /\
  (forall a, In a arcs ->
     ~ In (ArcLine (fst a) (snd a) (fl (X (optimize m)) a)) out ->
     fl (X (optimize m)) a == 0).
Proof.
  intros _ Hm Hh St Hr. unfold max_flow in Hr. rewrite Hm in Hr.
  cbn [bind] in Hr. rewrite St in Hr. injection Hr as Ho.
  destruct (flow_bounds_and_conservation _ _ _ _ _ Hm (Hh St)) as [B _].
  set (x := X (optimize m)) in *.
  assert (Z : forall a, In a arcs -> Qlt_bool 0 (fl x a) = false ->
                        fl x a == 0).
  { intros a Ha P. apply Qlt_bool_ge in P. specialize (B a Ha). lra. }
  split.
  - rewrite <- Ho. unfold printed_value.
    change (sumQ ?f (?t :: ?l)) with (f t + sumQ f l). cbv beta iota.
    rewrite sumQ_map, sumQ_filter. cbv beta iota.
    rewrite (max_flow_objval _ _ _ _ _ Hm), sumQ_filter.
    rewrite Qplus_0_l. apply sumQ_ext. intros a Ha. cbn [fst snd].
    change (x (Vflow a)) with (fl x a).
    destruct (Qlt_bool 0 (fl x a)) eqn:P; [reflexivity|].
    destruct (is_s (fst a)); [|reflexivity].
    symmetry. now apply Z.
  - intros a Ha Np.
    destruct (Qlt_bool 0 (fl x a)) eqn:P; [|now apply Z].
    exfalso. apply Np. rewrite <- Ho. right.
    apply in_map_iff. exists a. split; [reflexivity|].
    apply filter_In. split; assumption.
Qed.

(** ** What a solution of the cut model removes *)

Lemma path_mono (E E' : arc -> Prop) u v :
  (forall a, E a -> E' a) -> path E u v -> path E' u v.
Proof.
  intros H P. induction P as [u|u v w _ IH Hvw].
  - apply path_here.
  - apply (path_step E' u v w IH). now apply H.
Qed.

Lemma unremoved_path_keeps_potential nodes arcs y v :
  (forall a, In a arcs -> cut_shape nodes a = true) ->
  (forall a, In a arcs -> cut_holds y a) ->
  path (fun a => In a arcs /\ Qlt_bool 0 (rm y a) = false) "s" v ->
  1 <= pot (cn y) v.
Proof.
  intros Hs Hrow P. remember "s" as u eqn:Eu.
  induction P as [u|u v w _ IH [Ha Hr]].
  - subst u. unfold pot. simpl. lra.
  - specialize (IH Eu). apply Qlt_bool_ge in Hr.
    pose proof (proj1 (cut_holds_pot nodes y (v, w) (Hs _ Ha)) (Hrow _ Ha))
      as H.
    cbn [fst snd] in H. lra.
Qed.

(** In every solution of the model of [min_cut] the arcs with [r > 0]
    disconnect ['t'] from ['s'].  When every [r] is 0 or 1 these are the
    arcs that [min_cut] selects for printing ([r > 0.5]), and their
    objective coefficients (the capacity entry, or 0 without one) add up
    to the objective value. *)
Theorem removed_arcs_disconnect nodes arcs capacity m y :
  NoDup nodes -> NoDup arcs ->
  min_cut_model nodes arcs capacity = Ok m ->
  feasible m y ->
  separates arcs (fun a => Qlt_bool 0 (rm y a)) "s" "t" /\
  ((forall a, In a arcs -> rm y a == 0 \/ rm y a == 1) ->
   separates arcs (selected y) "s" "t" /\
   sumQ (cap capacity) (filter (selected y) arcs) == objval m y).
Proof.
  intros _ _ Hm Fy.
  destruct (proj2 (min_cut_model_built nodes arcs capacity))
    as [_ [_ Hs]]; [eauto|].
  apply (min_cut_feasible _ _ _ _ _ Hm) in Fy. destruct Fy as [_ [_ Hrow]].
  assert (Sep : separates arcs (fun a => Qlt_bool 0 (rm y a)) "s" "t").
  { intros P.
    pose proof (unremoved_path_keeps_potential nodes arcs y "t" Hs Hrow P)
      as H.
    unfold pot in H. simpl in H. lra. }
  split; [exact Sep|]. intros Hi. split.
  - intros P. apply Sep. revert P. apply path_mono.
    intros a [Ha Hsel]. split; [exact Ha|].
    unfold selected in Hsel. apply Qlt_bool_ge in Hsel.
    unfold Qlt_bool. apply negb_false_iff, Qle_bool_iff.
    destruct (Hi a Ha) as [E|E]; lra.
  - rewrite (min_cut_objval _ _ _ _ _ Hm), sumQ_filter.
    apply sumQ_ext. intros a Ha.
    destruct (Hi a Ha) as [E|E].
    + rewrite (selected_false y a) by lra. rewrite E. ring.
    + rewrite (selected_true y a) by lra. rewrite E. ring.
Qed.

(** ** From the source to the sink *)

(** Where [min_cut] builds its model too, the objective of [max_flow],
    the flow that leaves ['s'], is the flow that enters ['t'], for every
    solution of the flow model. *)
Theorem what_leaves_the_source_enters_the_sink
    nodes arcs capacity mf mc x :
  NoDup nodes -> NoDup arcs -> no_wildcard nodes ->
  max_flow_model nodes arcs capacity = Ok mf ->
  min_cut_model nodes arcs capacity = Ok mc ->
  feasible mf x ->
  objval mf x == inflow (fl x) arcs "t".
Proof.
  intros _ Hd Hw Hmf Hmc Fx.
  pose proof (no_wildcard_In nodes Hw) as Hw'.
  pose proof (built_shape nodes arcs capacity mc Hmc) as Hs.
  apply (max_flow_feasible_plain _ _ _ _ x Hmf Hd
           (built_no_star nodes arcs capacity mc Hw' Hmc) Hw') in Fx.
  destruct Fx as [_ Hc].
  rewrite (max_flow_objval_out _ _ _ _ x Hmf).
  rewrite (flow_value_pot nodes arcs (fl x)
             (fun v => if is_t v then 0 else 1) Hs Hc)
    by reflexivity.
  unfold inflow. rewrite sumQ_filter. apply sumQ_ext. intros a Ha.
  destruct (cut_shape_inv nodes a (Hs a Ha)) as [_ [_ [_ Ht]]].
  rewrite Ht. unfold is_t. rewrite (String.eqb_sym "t" (snd a)).
  destruct (snd a =? "t")%string; ring.
Qed.

(** ** Optimal flows and optimal cuts *)

Lemma sumQ_zero_terms {A} (g : A -> Q) (l : list A) :
  (forall a, In a l -> 0 <= g a) -> sumQ g l == 0 ->
  forall a, In a l -> g a == 0.
Proof.
  intros Hg Hz a Ha.
  pose proof (sumQ_member_le g l a Hg Ha) as H. specialize (Hg a Ha). lra.
Qed.

Lemma sumQ_minus {A} (f g : A -> Q) (l : list A) :
  sumQ (fun a => f a - g a) l == sumQ f l - sumQ g l.
Proof.
  induction l as [|a l IH]; simpl; [lra|]. rewrite IH. lra.
Qed.

(** Every optimal solution of the flow model fills to its capacity
    every arc that an optimal solution of the cut model removes, in
    whole or in part ([r > 0]); in particular every arc that [min_cut]
    prints for an optimal solution. *)
Theorem optimal_flows_fill_the_removed_arcs
    nodes arcs capacity mf mc x y :
  NoDup nodes -> NoDup arcs -> no_wildcard nodes ->
  max_flow_model nodes arcs capacity = Ok mf ->
  min_cut_model nodes arcs capacity = Ok mc ->
  optimal mf x -> optimal mc y ->
  forall a, In a arcs ->
    (0 < rm y a -> fl x a == cap capacity a) /\
    (selected y a = true -> fl x a == cap capacity a).
Proof.
  intros _ Hd Hw Hmf Hmc Ox Oy.
  pose proof (no_wildcard_In nodes Hw) as Hw'.
  pose proof (optima_coincide _ _ _ mf mc x y Hd Hw' Hmf Hmc Ox Oy) as E.
  pose proof (built_shape nodes arcs capacity mc Hmc) as Hs.
  destruct Ox as [Fx _]. destruct Oy as [Fy _].
  apply (max_flow_feasible_plain _ _ _ _ x Hmf Hd
           (built_no_star nodes arcs capacity mc Hw' Hmc) Hw') in Fx.
  destruct Fx as [Hb Hc].
  apply (min_cut_feasible _ _ _ _ y Hmc) in Fy.
  destruct Fy as [Hr [_ Hrow]].
  rewrite (max_flow_objval_out _ _ _ _ x Hmf) in E.
  rewrite (min_cut_objval _ _ _ _ y Hmc) in E.
  rewrite (flow_value_pot nodes arcs (fl x) (pot (cn y)) Hs Hc) in E
    by reflexivity.
  assert (Slack : forall a, In a arcs ->
            fl x a * (pot (cn y) (fst a) - pot (cn y) (snd a))
            <= fl x a * rm y a /\
            fl x a * rm y a <= cap capacity a * rm y a).
  { intros a Ha. pose proof (Hb a Ha) as [H0 H1]. pose proof (Hr a Ha) as H2.
    pose proof (proj1 (cut_holds_pot nodes y a (Hs a Ha)) (Hrow a Ha)) as H3.
    split; nra. }
  assert (Z : forall a, In a arcs ->
            cap capacity a * rm y a
            - fl x a * (pot (cn y) (fst a) - pot (cn y) (snd a)) == 0).
  { apply sumQ_zero_terms.
    - intros a Ha. destruct (Slack a Ha). lra.
    - rewrite sumQ_minus. lra. }
  assert (Fill : forall a, In a arcs -> 0 < rm y a ->
                           fl x a == cap capacity a).
  { intros a Ha Pos. specialize (Z a Ha). destruct (Slack a Ha) as [S1 S2].
    pose proof (Hb a Ha) as [H0 H1].
    assert (P : (cap capacity a - fl x a) * rm y a == 0) by lra.
    apply Qmult_integral in P. destruct P as [P|P]; lra. }
  intros a Ha. split; [now apply Fill|].
  intros Sel. apply Fill; [exact Ha|].
  unfold selected in Sel. apply Qlt_bool_lt in Sel. lra.
Qed.

(** ** [greater_or_equal_max] *)

Lemma blocks_holds_ge (p : Blocks.point) (a b : Blocks.Var) :
  Blocks.holds p (Blocks.ge a b) <-> p b <= p a.
Proof.
  unfold Blocks.holds, Blocks.ge, Blocks.eval, Blocks.of_var. simpl.
  split; intros H; lra.
Qed.

Lemma blocks_feasible_addConstr (m : Blocks.Model) (r : Blocks.Row)
    (p : Blocks.point) :
  Blocks.feasible (Blocks.addConstr m r) p
  <-> Blocks.feasible m p /\ Blocks.holds p r.
Proof.
  unfold Blocks.feasible, Blocks.addConstr. simpl.
  rewrite Forall_app. split.
  - intros [D [R1 R2]]. inversion R2; subst. tauto.
  - intros [[D R1] R2]. repeat split; auto.
Qed.

Lemma blocks_feasible_greater_or_equal_max (m : Blocks.Model)
    (a b c : Blocks.Var) (p : Blocks.point) :
  Blocks.feasible (Blocks.greater_or_equal_max m a b c) p
  <-> Blocks.feasible m p /\ Qmax (p b) (p c) <= p a.
Proof.
  unfold Blocks.greater_or_equal_max.
  rewrite !blocks_feasible_addConstr, !blocks_holds_ge, Q.max_lub_iff.
  tauto.
Qed.

(** The two rows that [greater_or_equal_max] adds say exactly
    [a >= max(b, c)]: a point solves the model it leaves behind exactly
    when it solved the model before and the value of [a] is at least
    the larger of the values of [b] and [c].  The variables of the model
    are left as they were. *)
Theorem greater_or_equal_max_is_the_maximum (m : Blocks.Model)
    (a b c : Blocks.Var) (p : Blocks.point) :
  Blocks.owns m a -> Blocks.owns m b -> Blocks.owns m c ->
  Blocks.mcols (Blocks.greater_or_equal_max m a b c) = Blocks.mcols m /\
  (Blocks.feasible (Blocks.greater_or_equal_max m a b c) p
   <-> Blocks.feasible m p /\ Qmax (p b) (p c) <= p a).
Proof.
  intros _ _ _. split; [reflexivity|].
  apply blocks_feasible_greater_or_equal_max.
Qed.

(** Two calls impose both maxima, in either order; in particular
    [greater_or_equal_max(m, a, b, c)] followed by
    [greater_or_equal_max(m, a, c, d)] says [a >= max(b, c, d)]. *)
Theorem greater_or_equal_max_composes (m : Blocks.Model)
    (a b c a' b' c' d : Blocks.Var) (p : Blocks.point) :
  Blocks.owns m a -> Blocks.owns m b -> Blocks.owns m c ->
  Blocks.owns m a' -> Blocks.owns m b' -> Blocks.owns m c' ->
  Blocks.owns m d ->
  (Blocks.feasible
     (Blocks.greater_or_equal_max (Blocks.greater_or_equal_max m a b c)
        a' b' c') p
   <-> Blocks.feasible m p /\
       Qmax (p b) (p c) <= p a /\ Qmax (p b') (p c') <= p a') /\
  (Blocks.feasible
     (Blocks.greater_or_equal_max (Blocks.greater_or_equal_max m a b c)
        a' b' c') p
   <-> Blocks.feasible
         (Blocks.greater_or_equal_max
            (Blocks.greater_or_equal_max m a' b' c') a b c) p) /\
  (Blocks.feasible
     (Blocks.greater_or_equal_max (Blocks.greater_or_equal_max m a b c)
        a c d) p
   <-> Blocks.feasible m p /\ Qmax (p b) (Qmax (p c) (p d)) <= p a).
Proof.
  intros _ _ _ _ _ _ _.
  rewrite !blocks_feasible_greater_or_equal_max, !Q.max_lub_iff. tauto.
Qed.

Lemma blocks_binary_value (m : Blocks.Model) (v : Blocks.Var)
    (p : Blocks.point) :
  Blocks.is_binary m v -> Blocks.feasible m p -> p v == 0 \/ p v == 1.
Proof.
  intros [n Hn] [D _]. exact (D v _ Hn).
Qed.

(** On binary variables the two rows say that [x] is 1 whenever [y] or
    [z] is: one direction of [x = y | z]. *)
Theorem greater_or_equal_max_on_binaries (m : Blocks.Model)
    (x y z : Blocks.Var) (p : Blocks.point) :
  Blocks.is_binary m x -> Blocks.is_binary m y -> Blocks.is_binary m z ->
  (Blocks.feasible (Blocks.greater_or_equal_max m x y z) p
   <-> Blocks.feasible m p /\ (p y == 1 \/ p z == 1 -> p x == 1)).
Proof.
  intros Bx By Bz. rewrite blocks_feasible_greater_or_equal_max.
  rewrite Q.max_lub_iff.
  split; intros [F H]; (split; [exact F|]);
    destruct (blocks_binary_value m x p Bx F) as [Vx|Vx],
             (blocks_binary_value m y p By F) as [Vy|Vy],
             (blocks_binary_value m z p Bz F) as [Vz|Vz];
    try (intros [K|K]); try lra;
    try (assert (K : p x == 1) by (apply H; auto); lra).
Qed.

(** ** The further properties at concrete inputs *)

Lemma max_flow_raises_iff_missing_capacity_witness :
  NoDup MissingEntry.arcs /\
  max_flow Scenario1.answers180 MissingEntry.nodes MissingEntry.arcs
           MissingEntry.capacity = Raise KeyError.
Proof.
  assert (Hd : NoDup MissingEntry.arcs)
    by (apply (nodupb_sound arc_eqb arc_eqb_spec); reflexivity).
  split; [exact Hd|].
  apply (proj1 (max_flow_raises_iff_missing_capacity Scenario1.answers180
                  MissingEntry.nodes MissingEntry.arcs
                  MissingEntry.capacity Hd)).
  exists ("A", "t"). split; [right; left; reflexivity|reflexivity].
Defined.


Lemma called_on_the_keys_witness :
  NoDup Notebook.nodes /\ NoDup (keys Notebook.capacity) /\
  (exists out,
     max_flow Scenario1.answers180 Notebook.nodes (keys Notebook.capacity)
              Notebook.capacity = Ok out) /\
  (min_cut Scenario1.answers180 Notebook.nodes (keys Notebook.capacity)
           Notebook.capacity = Raised [] KeyError
   <-> exists a, In a (keys Notebook.capacity) /\
                 cut_shape Notebook.nodes a = false) /\
  ((forall a, In a (keys Notebook.capacity) ->
              cut_shape Notebook.nodes a = true) ->
   exists out,
     min_cut Scenario1.answers180 Notebook.nodes (keys Notebook.capacity)
             Notebook.capacity = Returned out).
Proof.
  exact (conj notebook_nodes_unique (conj notebook_arcs_unique
           (called_on_the_keys Scenario1.answers180 Notebook.nodes
              Notebook.capacity notebook_nodes_unique
              notebook_arcs_unique))).
Defined.

Lemma flow_model_solvable_iff_witness :
  let m := built (max_flow_model Notebook.nodes Notebook.arcs
                    Notebook.capacity) in
  NoDup Notebook.arcs /\
  max_flow_model Notebook.nodes Notebook.arcs Notebook.capacity = Ok m /\
  ((exists x, feasible m x)
   <-> forall a, In a Notebook.arcs -> 0 <= cap Notebook.capacity a) /\
  ((forall a, In a Notebook.arcs -> 0 <= cap Notebook.capacity a) ->
   feasible m (fun _ => 0)).
Proof.
  intros m.
  exact (conj notebook_arcs_unique (conj eq_refl
           (flow_model_solvable_iff Notebook.nodes Notebook.arcs
              Notebook.capacity m notebook_arcs_unique eq_refl))).
Defined.

Lemma cut_model_solvable_witness :
  let m := built (min_cut_model Notebook.nodes Notebook.arcs
                    Notebook.capacity) in
  min_cut_model Notebook.nodes Notebook.arcs Notebook.capacity = Ok m /\
  feasible m all_removed /\
  ((exists x, optimal m x)
   <-> forall a, In a Notebook.arcs -> 0 <= cap Notebook.capacity a) /\
  ((forall a, In a Notebook.arcs -> 0 <= cap Notebook.capacity a) ->
   forall x, feasible m x -> 0 <= objval m x).
Proof.
  intros m.
  exact (conj eq_refl
           (cut_model_solvable Notebook.nodes Notebook.arcs
              Notebook.capacity m eq_refl)).
Defined.

Lemma equal_values_certify_optimality_witness :
  let mf := built (max_flow_model Notebook.nodes Notebook.arcs
                     Notebook.capacity) in
  let mc := built (min_cut_model Notebook.nodes Notebook.arcs
                     Notebook.capacity) in
  NoDup Notebook.nodes /\ NoDup Notebook.arcs /\
  no_wildcard Notebook.nodes /\
  max_flow_model Notebook.nodes Notebook.arcs Notebook.capacity = Ok mf /\
  min_cut_model Notebook.nodes Notebook.arcs Notebook.capacity = Ok mc /\
  feasible mf Scenario1.flow180 /\ feasible mc Scenario1.cut180 /\
  objval mf Scenario1.flow180 == objval mc Scenario1.cut180 /\
  optimal mf Scenario1.flow180 /\ optimal mc Scenario1.cut180.
Proof.
  intros mf mc.
  assert (Ff : feasible mf Scenario1.flow180)
    by (apply feasibleb_sound; vm_compute; reflexivity).
  assert (Fc : feasible mc Scenario1.cut180)
    by (apply feasibleb_sound; vm_compute; reflexivity).
  assert (E : objval mf Scenario1.flow180 == objval mc Scenario1.cut180)
    by (vm_compute; reflexivity).
  exact (conj notebook_nodes_unique (conj notebook_arcs_unique
           (conj eq_refl (conj eq_refl (conj eq_refl (conj Ff (conj Fc
              (conj E
                 (equal_values_certify_optimality Notebook.nodes
                    Notebook.arcs Notebook.capacity mf mc _ _
                    notebook_nodes_unique notebook_arcs_unique eq_refl
                    eq_refl eq_refl Ff Fc E))))))))).
Defined.

Lemma notebook_capacities_nonneg :
  forall a, In a Notebook.arcs -> 0 <= cap Notebook.capacity a.
Proof.
  intros a Ha. simpl in Ha.
  repeat (destruct Ha as [<-|Ha]; [vm_compute; discriminate|]).
  destruct Ha.
Qed.

Lemma optima_agree_wherever_both_build_witness :
  let mf := built (max_flow_model Notebook.nodes Notebook.arcs
                     Notebook.capacity) in
  let mc := built (min_cut_model Notebook.nodes Notebook.arcs
                     Notebook.capacity) in
  no_wildcard Notebook.nodes /\
  (forall a, In a Notebook.arcs -> 0 <= cap Notebook.capacity a) /\
  max_flow_model Notebook.nodes Notebook.arcs Notebook.capacity = Ok mf /\
  min_cut_model Notebook.nodes Notebook.arcs Notebook.capacity = Ok mc /\
  (exists x, optimal mf x) /\
  (exists y, optimal mc y) /\
  (forall x y, optimal mf x -> optimal mc y ->
               objval mf x == objval mc y).
Proof.
  intros mf mc.
  exact (conj eq_refl (conj notebook_capacities_nonneg (conj eq_refl
           (conj eq_refl
              (optima_agree_wherever_both_build Notebook.nodes
                 Notebook.arcs Notebook.capacity mf mc eq_refl
                 notebook_capacities_nonneg eq_refl eq_refl))))).
Defined.

Lemma listing_order_is_irrelevant_witness :
  NoDup Notebook.nodes /\ NoDup Notebook.arcs /\
  Permutation Notebook.nodes (rev Notebook.nodes) /\
  Permutation Notebook.arcs (rev Notebook.arcs) /\
  (forall mf,
     max_flow_model Notebook.nodes Notebook.arcs Notebook.capacity = Ok mf ->
     exists mf',
       max_flow_model (rev Notebook.nodes) (rev Notebook.arcs)
         Notebook.capacity = Ok mf' /\
       same_program mf mf' /\
       (forall x, optimal mf x <-> optimal mf' x)) /\
  (forall mc,
     min_cut_model Notebook.nodes Notebook.arcs Notebook.capacity = Ok mc ->
     exists mc',
       min_cut_model (rev Notebook.nodes) (rev Notebook.arcs)
         Notebook.capacity = Ok mc' /\
       same_program mc mc' /\
       (forall x, optimal mc x <-> optimal mc' x)).
Proof.
  exact (conj notebook_nodes_unique (conj notebook_arcs_unique
           (conj (Permutation_rev _) (conj (Permutation_rev _)
              (listing_order_is_irrelevant Notebook.nodes
                 (rev Notebook.nodes) Notebook.arcs (rev Notebook.arcs)
                 Notebook.capacity notebook_nodes_unique
                 notebook_arcs_unique (Permutation_rev _)
                 (Permutation_rev _)))))).
Defined.

Lemma unit_chain_nodes_unique : NoDup UnitChain.nodes.
Proof. apply (nodupb_sound String.eqb string_eqb_spec). reflexivity. Qed.

Lemma unit_chain_arcs_unique : NoDup UnitChain.arcs.
Proof. apply (nodupb_sound arc_eqb arc_eqb_spec). reflexivity. Qed.

Lemma unit_chain_below_chain :
  forall a, In a UnitChain.arcs ->
            cap UnitChain.capacity a <= cap Chain.capacity a.
Proof.
  intros a Ha. simpl in Ha.
  repeat (destruct Ha as [<-|Ha]; [vm_compute; discriminate|]).
  destruct Ha.
Qed.

Lemma more_capacity_never_lowers_the_optima_witness :
  NoDup UnitChain.nodes /\ NoDup UnitChain.arcs /\
  (forall a, In a UnitChain.arcs ->
             cap UnitChain.capacity a <= cap Chain.capacity a) /\
  (forall mf mf',
     max_flow_model UnitChain.nodes UnitChain.arcs UnitChain.capacity
       = Ok mf ->
     max_flow_model UnitChain.nodes UnitChain.arcs Chain.capacity
       = Ok mf' ->
     (forall x, feasible mf x -> feasible mf' x) /\
     (forall v v', optimal_value mf v -> optimal_value mf' v' -> v <= v')) /\
  (forall mc mc',
     min_cut_model UnitChain.nodes UnitChain.arcs UnitChain.capacity
       = Ok mc ->
     min_cut_model UnitChain.nodes UnitChain.arcs Chain.capacity
       = Ok mc' ->
     (forall x, feasible mc x <-> feasible mc' x) /\
     (forall v v', optimal_value mc v -> optimal_value mc' v' -> v <= v')).
Proof.
  exact (conj unit_chain_nodes_unique (conj unit_chain_arcs_unique
           (conj unit_chain_below_chain
              (more_capacity_never_lowers_the_optima UnitChain.nodes
                 UnitChain.arcs UnitChain.capacity Chain.capacity
                 unit_chain_nodes_unique unit_chain_arcs_unique
                 unit_chain_below_chain)))).
Defined.

Lemma ends_only_listed :
  forall j, In j EndsOnly.nodes -> In j Notebook.nodes.
Proof.
  intros j [<-|[<-|[]]]; simpl; auto 10.
Qed.

Lemma fewer_listed_nodes_never_lower_the_flow_witness :
  let mf := built (max_flow_model Notebook.nodes Notebook.arcs
                     Notebook.capacity) in
  let mf' := built (max_flow_model EndsOnly.nodes Notebook.arcs
                      Notebook.capacity) in
  NoDup Notebook.arcs /\
  (forall j, In j EndsOnly.nodes -> In j Notebook.nodes) /\
  max_flow_model Notebook.nodes Notebook.arcs Notebook.capacity = Ok mf /\
  max_flow_model EndsOnly.nodes Notebook.arcs Notebook.capacity = Ok mf' /\
  (forall x, feasible mf x -> feasible mf' x) /\
  (forall v v', optimal_value mf v -> optimal_value mf' v' -> v <= v').
Proof.
  intros mf mf'.
  exact (conj notebook_arcs_unique (conj ends_only_listed (conj eq_refl
           (conj eq_refl
              (fewer_listed_nodes_never_lower_the_flow Notebook.nodes
                 EndsOnly.nodes Notebook.arcs Notebook.capacity mf mf'
                 notebook_arcs_unique ends_only_listed eq_refl
                 eq_refl))))).
Defined.

Lemma notebook_no_star : no_star Notebook.arcs.
Proof.
  intros a Ha. simpl in Ha.
  repeat (destruct Ha as [<-|Ha]; [split; discriminate|]).
  destruct Ha.
Qed.

Lemma ends_only_ends : forall j, In j EndsOnly.nodes -> j = "s" \/ j = "t".
Proof. intros j [<-|[<-|[]]]; auto. Qed.

Lemma without_listed_nodes_the_source_capacity_flows_witness :
  let mf := built (max_flow_model EndsOnly.nodes Notebook.arcs
                     Notebook.capacity) in
  NoDup Notebook.arcs /\ no_star Notebook.arcs /\
  (forall j, In j EndsOnly.nodes -> j = "s" \/ j = "t") /\
  (forall a, In a Notebook.arcs -> 0 <= cap Notebook.capacity a) /\
  max_flow_model EndsOnly.nodes Notebook.arcs Notebook.capacity = Ok mf /\
  optimal mf (filled Notebook.capacity) /\
  objval mf (filled Notebook.capacity) == 250.
Proof.
  intros mf.
  pose proof (without_listed_nodes_the_source_capacity_flows
                EndsOnly.nodes Notebook.arcs Notebook.capacity mf
                notebook_arcs_unique notebook_no_star ends_only_ends
                notebook_capacities_nonneg eq_refl) as [O V].
  exact (conj notebook_arcs_unique (conj notebook_no_star
           (conj ends_only_ends (conj notebook_capacities_nonneg
              (conj eq_refl (conj O V)))))).
Defined.

Lemma inner_only_same_nodes :
  filter interior Notebook.nodes = filter interior InnerOnly.nodes.
Proof. reflexivity. Qed.

Lemma inner_only_same_capacities :
  forall a, In a Notebook.arcs ->
    dict_get arc_eqb Notebook.capacity a
    = dict_get arc_eqb InnerOnly.capacity a.
Proof.
  intros a Ha. simpl in Ha.
  repeat (destruct Ha as [<-|Ha]; [reflexivity|]).
  destruct Ha.
Qed.

Lemma only_inner_nodes_and_arc_capacities_are_read_witness :
  filter interior Notebook.nodes = filter interior InnerOnly.nodes /\
  (forall a, In a Notebook.arcs ->
     dict_get arc_eqb Notebook.capacity a
     = dict_get arc_eqb InnerOnly.capacity a) /\
  max_flow Scenario1.answers180 Notebook.nodes Notebook.arcs
           Notebook.capacity
  = max_flow Scenario1.answers180 InnerOnly.nodes Notebook.arcs
             InnerOnly.capacity /\
  min_cut Scenario1.answers180 Notebook.nodes Notebook.arcs
          Notebook.capacity
  = min_cut Scenario1.answers180 InnerOnly.nodes Notebook.arcs
            InnerOnly.capacity.
Proof.
  exact (conj inner_only_same_nodes (conj inner_only_same_capacities
           (only_inner_nodes_and_arc_capacities_are_read
              Scenario1.answers180 Notebook.nodes InnerOnly.nodes
              Notebook.arcs Notebook.capacity InnerOnly.capacity
              inner_only_same_nodes inner_only_same_capacities))).
Defined.

Lemma without_arcs_witness :
  NoDup Notebook.nodes /\
  exists mf mc,
    max_flow_model Notebook.nodes [] Notebook.capacity = Ok mf /\
    min_cut_model Notebook.nodes [] Notebook.capacity = Ok mc /\
    optimal_value mf 0 /\
    optimal_value mc 0 /\
    (status (Scenario1.answers180 mf) = OPTIMAL ->
     max_flow Scenario1.answers180 Notebook.nodes [] Notebook.capacity
     = Ok [Title (newline ++ "Optimal flows")]) /\
    (status (Scenario1.answers180 mc) = OPTIMAL ->
     min_cut Scenario1.answers180 Notebook.nodes [] Notebook.capacity
     = Returned [Title (newline ++ "Optimal cuts")]).
Proof.
  exact (conj notebook_nodes_unique
           (without_arcs Scenario1.answers180 Notebook.nodes
              Notebook.capacity notebook_nodes_unique)).
Defined.

Lemma printed_flows_give_the_value_witness :
  let m := built (max_flow_model Notebook.nodes Notebook.arcs
                    Notebook.capacity) in
  let out := [ Title (newline ++ "Optimal flows");
               ArcLine "s" "A" 90; ArcLine "s" "B" 90;
               ArcLine "A" "C" 90; ArcLine "B" "D" 90;
               ArcLine "C" "t" 90; ArcLine "D" "t" 90 ] in
  NoDup Notebook.arcs /\
  max_flow_model Notebook.nodes Notebook.arcs Notebook.capacity = Ok m /\
  honest Scenario1.answers180 m /\
  status (Scenario1.answers180 m) = OPTIMAL /\
  max_flow Scenario1.answers180 Notebook.nodes Notebook.arcs
           Notebook.capacity = Ok out /\
  printed_value out == objval m (X (Scenario1.answers180 m)) /\
  (forall a, In a Notebook.arcs ->
     ~ In (ArcLine (fst a) (snd a) (fl (X (Scenario1.answers180 m)) a)) out ->
     fl (X (Scenario1.answers180 m)) a == 0).
Proof.
  intros m out.
  assert (Hh : honest Scenario1.answers180 m)
    by (intros _; apply feasibleb_sound; vm_compute; reflexivity).
  exact (conj notebook_arcs_unique (conj eq_refl (conj Hh (conj eq_refl
           (conj eq_refl
              (printed_flows_give_the_value Scenario1.answers180
                 Notebook.nodes Notebook.arcs Notebook.capacity m out
                 notebook_arcs_unique eq_refl Hh eq_refl eq_refl)))))).
Defined.

Lemma blocks_setup_owns :
  Blocks.owns Blocks.m0 Blocks.a /\ Blocks.owns Blocks.m0 Blocks.b /\
  Blocks.owns Blocks.m0 Blocks.c /\ Blocks.owns Blocks.m0 Blocks.x /\
  Blocks.owns Blocks.m0 Blocks.y /\ Blocks.owns Blocks.m0 Blocks.z.
Proof. unfold Blocks.owns. vm_compute. repeat split; lia. Qed.

Lemma greater_or_equal_max_is_the_maximum_witness :
  Blocks.owns Blocks.m0 Blocks.a /\ Blocks.owns Blocks.m0 Blocks.b /\
  Blocks.owns Blocks.m0 Blocks.c /\
  Blocks.mcols (Blocks.greater_or_equal_max Blocks.m0 Blocks.a Blocks.b
                  Blocks.c)
  = Blocks.mcols Blocks.m0 /\
  (Blocks.feasible
     (Blocks.greater_or_equal_max Blocks.m0 Blocks.a Blocks.b Blocks.c)
     Blocks.values
   <-> Blocks.feasible Blocks.m0 Blocks.values /\
       Qmax (Blocks.values Blocks.b) (Blocks.values Blocks.c)
       <= Blocks.values Blocks.a).
Proof.
  destruct blocks_setup_owns as [Ha [Hb [Hc _]]].
  exact (conj Ha (conj Hb (conj Hc
           (greater_or_equal_max_is_the_maximum Blocks.m0 Blocks.a
              Blocks.b Blocks.c Blocks.values Ha Hb Hc)))).
Defined.

Lemma greater_or_equal_max_composes_witness :
  Blocks.owns Blocks.m0 Blocks.a /\ Blocks.owns Blocks.m0 Blocks.b /\
  Blocks.owns Blocks.m0 Blocks.c /\ Blocks.owns Blocks.m0 Blocks.x /\
  Blocks.owns Blocks.m0 Blocks.y /\ Blocks.owns Blocks.m0 Blocks.z /\
  (Blocks.feasible
     (Blocks.greater_or_equal_max
        (Blocks.greater_or_equal_max Blocks.m0 Blocks.a Blocks.b Blocks.c)
        Blocks.a Blocks.c Blocks.z) Blocks.values
   <-> Blocks.feasible Blocks.m0 Blocks.values /\
       Qmax (Blocks.values Blocks.b)
            (Qmax (Blocks.values Blocks.c) (Blocks.values Blocks.z))
       <= Blocks.values Blocks.a).
Proof.
  destruct blocks_setup_owns as [Ha [Hb [Hc [Hx [Hy Hz]]]]].
  exact (conj Ha (conj Hb (conj Hc (conj Hx (conj Hy (conj Hz
           (proj2 (proj2
              (greater_or_equal_max_composes Blocks.m0 Blocks.a Blocks.b
                 Blocks.c Blocks.x Blocks.y Blocks.z Blocks.z
                 Blocks.values Ha Hb Hc Hx Hy Hz Hz))))))))).
Defined.

Lemma blocks_setup_binaries :
  Blocks.is_binary Blocks.m0 Blocks.x /\
  Blocks.is_binary Blocks.m0 Blocks.y /\
  Blocks.is_binary Blocks.m0 Blocks.z.
Proof. repeat split; eexists; reflexivity. Qed.

Lemma greater_or_equal_max_on_binaries_witness :
  Blocks.is_binary Blocks.m0 Blocks.x /\
  Blocks.is_binary Blocks.m0 Blocks.y /\
  Blocks.is_binary Blocks.m0 Blocks.z /\
  (Blocks.feasible
     (Blocks.greater_or_equal_max Blocks.m0 Blocks.x Blocks.y Blocks.z)
     Blocks.values
   <-> Blocks.feasible Blocks.m0 Blocks.values /\
       (Blocks.values Blocks.y == 1 \/ Blocks.values Blocks.z == 1 ->
        Blocks.values Blocks.x == 1)).
Proof.
  destruct blocks_setup_binaries as [Hx [Hy Hz]].
  exact (conj Hx (conj Hy (conj Hz
           (greater_or_equal_max_on_binaries Blocks.m0 Blocks.x Blocks.y
              Blocks.z Blocks.values Hx Hy Hz)))).
Defined.

Lemma notebook_answers_optimal :
  let mf := built (max_flow_model Notebook.nodes Notebook.arcs
                     Notebook.capacity) in
  let mc := built (min_cut_model Notebook.nodes Notebook.arcs
                     Notebook.capacity) in
  optimal mf Scenario1.flow180 /\ optimal mc Scenario1.cut180.
Proof.
  intros mf mc.
  assert (Ff : feasible mf Scenario1.flow180)
    by (apply feasibleb_sound; vm_compute; reflexivity).
  assert (Fc : feasible mc Scenario1.cut180)
    by (apply feasibleb_sound; vm_compute; reflexivity).
  assert (E : objval mf Scenario1.flow180 == objval mc Scenario1.cut180)
    by (vm_compute; reflexivity).
  pose proof (weak_duality_models Notebook.nodes Notebook.arcs
                Notebook.capacity mf mc notebook_arcs_unique
                notebook_nodes_plain eq_refl eq_refl) as WD.
  split; (split; [assumption|]).
  - intros x' Fx'.
    rewrite (max_flow_sense Notebook.nodes Notebook.arcs Notebook.capacity
               mf eq_refl).
    simpl. rewrite E. now apply WD.
  - intros y' Fy'.
    rewrite (min_cut_sense Notebook.nodes Notebook.arcs Notebook.capacity
               mc eq_refl).
    simpl. rewrite <- E. now apply WD.
Qed.

Lemma notebook_cut180_integral :
  forall a, In a Notebook.arcs ->
            rm Scenario1.cut180 a == 0 \/ rm Scenario1.cut180 a == 1.
Proof.
  intros a Ha. simpl in Ha.
  repeat (destruct Ha as [<-|Ha];
          [(left; reflexivity) || (right; reflexivity)|]).
  destruct Ha.
Qed.

Lemma removed_arcs_disconnect_witness :
  let m := built (min_cut_model Notebook.nodes Notebook.arcs
                    Notebook.capacity) in
  NoDup Notebook.nodes /\ NoDup Notebook.arcs /\
  min_cut_model Notebook.nodes Notebook.arcs Notebook.capacity = Ok m /\
  feasible m Scenario1.cut180 /\
  (forall a, In a Notebook.arcs ->
             rm Scenario1.cut180 a == 0 \/ rm Scenario1.cut180 a == 1) /\
  separates Notebook.arcs (selected Scenario1.cut180) "s" "t" /\
  sumQ (cap Notebook.capacity)
       (filter (selected Scenario1.cut180) Notebook.arcs)
  == objval m Scenario1.cut180.
Proof.
  intros m.
  assert (Fc : feasible m Scenario1.cut180)
    by (apply feasibleb_sound; vm_compute; reflexivity).
  exact (conj notebook_nodes_unique (conj notebook_arcs_unique
           (conj eq_refl (conj Fc (conj notebook_cut180_integral
              (proj2 (removed_arcs_disconnect Notebook.nodes Notebook.arcs
                        Notebook.capacity m Scenario1.cut180
                        notebook_nodes_unique notebook_arcs_unique
                        eq_refl Fc)
                     notebook_cut180_integral)))))).
Defined.

Lemma what_leaves_the_source_enters_the_sink_witness :
  let mf := built (max_flow_model Notebook.nodes Notebook.arcs
                     Notebook.capacity) in
  let mc := built (min_cut_model Notebook.nodes Notebook.arcs
                     Notebook.capacity) in
  NoDup Notebook.nodes /\ NoDup Notebook.arcs /\
  no_wildcard Notebook.nodes /\
  max_flow_model Notebook.nodes Notebook.arcs Notebook.capacity = Ok mf /\
  min_cut_model Notebook.nodes Notebook.arcs Notebook.capacity = Ok mc /\
  feasible mf Scenario1.flow180 /\
  objval mf Scenario1.flow180
  == inflow (fl Scenario1.flow180) Notebook.arcs "t".
Proof.
  intros mf mc.
  assert (Ff : feasible mf Scenario1.flow180)
    by (apply feasibleb_sound; vm_compute; reflexivity).
  exact (conj notebook_nodes_unique (conj notebook_arcs_unique
           (conj eq_refl (conj eq_refl (conj eq_refl (conj Ff
              (what_leaves_the_source_enters_the_sink Notebook.nodes
                 Notebook.arcs Notebook.capacity mf mc Scenario1.flow180
                 notebook_nodes_unique notebook_arcs_unique eq_refl
                 eq_refl eq_refl Ff))))))).
Defined.

Lemma optimal_flows_fill_the_removed_arcs_witness :
  let mf := built (max_flow_model Notebook.nodes Notebook.arcs
                     Notebook.capacity) in
  let mc := built (min_cut_model Notebook.nodes Notebook.arcs
                     Notebook.capacity) in
  NoDup Notebook.nodes /\ NoDup Notebook.arcs /\
  no_wildcard Notebook.nodes /\
  max_flow_model Notebook.nodes Notebook.arcs Notebook.capacity = Ok mf /\
  min_cut_model Notebook.nodes Notebook.arcs Notebook.capacity = Ok mc /\
  optimal mf Scenario1.flow180 /\ optimal mc Scenario1.cut180 /\
  forall a, In a Notebook.arcs ->
    (0 < rm Scenario1.cut180 a ->
     fl Scenario1.flow180 a == cap Notebook.capacity a) /\
    (selected Scenario1.cut180 a = true ->
     fl Scenario1.flow180 a == cap Notebook.capacity a).
Proof.
  intros mf mc.
  destruct notebook_answers_optimal as [Of Oc].
  exact (conj notebook_nodes_unique (conj notebook_arcs_unique
           (conj eq_refl (conj eq_refl (conj eq_refl (conj Of (conj Oc
              (optimal_flows_fill_the_removed_arcs Notebook.nodes
                 Notebook.arcs Notebook.capacity mf mc Scenario1.flow180
                 Scenario1.cut180 notebook_nodes_unique
                 notebook_arcs_unique eq_refl eq_refl eq_refl
                 Of Oc)))))))).
Defined.
